(** * A file-backed JSON document store: embedding and verification

    Shallow embedding of [json-store.js] (the [AsyncMutex] queue and the two
    revisions of the [JSONStore] class) and of the migration helpers around
    it ([dependency-resolver.js], [transform-utils.js], [logger.js]),
    together with the small part of the JavaScript runtime they rely on.

    Layout:
    - [Runtime]      values, errors, property access, [typeof], [structuredClone]
    - [JSON]         [JSON.stringify (_, null, 2)] and [JSON.parse]
    - [Fs]           the [node:fs/promises] calls the store makes, with fault injection
    - [JSONStore]    the later revision of the class (with the path accessors)
    - [JSONStoreV1]  the earlier revision of the class
    - [AsyncMutex]   the promise-chained queue as a transition system
    - [DependencyResolver]  the id-mapping resolver over a store
    - [TransformUtils]      the object helpers, on plain objects
    - [MigrationLogger]     the migration log and what it prints

    Modelling boundaries (stated once, relied on everywhere):
    - numbers are the integral doubles [Fin z] and the three non-finite ones;
      fractional numbers, [-0] and the exponent rendering of integers from
      1e21 on are outside the model, and [JSON.parse] answers [Unmodelled]
      on a text that holds such a number ([Notions.described]);
    - strings are byte strings (the UTF-8 encoding of a well-formed string);
    - property lookup is own-property lookup: members inherited from the
      runtime's prototypes ([toString], [__proto__], [push], ...) are outside
      the model, and a statement that needs a key to be missing, or an
      assignment to create a property, names the keys it covers
      ([Runtime.inherited], [Notions.own_keys]);
    - [VSym] stands for a value that [structuredClone] rejects and that
      [JSON.stringify] leaves out (a symbol). *)

From Stdlib Require Import ZArith String Ascii List Bool Lia.
From Stdlib Require Import DecimalString DecimalZ.
From stdpp Require Import base strings gmap.

Local Open Scope Z_scope.
Local Open Scope string_scope.
Local Open Scope list_scope.

(* ===================================================================== *)
(** * Runtime values *)
(* ===================================================================== *)

Module Runtime.

Inductive number :=
| Fin (z : Z)
| NaN
| PosInf
| NegInf.

Unset Elimination Schemes.
Inductive value :=
| VUndef
| VNull
| VBool (b : bool)
| VNum (n : number)
| VStr (s : string)
| VSym
| VArr (elems : list value) (extra : list (string * value))
| VObj (props : list (string * value)).
Set Elimination Schemes.

(** Induction over values, with the hypotheses for the nested lists. *)
Section value_ind.
Variable P : value -> Prop.
Hypothesis Hundef : P VUndef.
Hypothesis Hnull : P VNull.
Hypothesis Hbool : forall b, P (VBool b).
Hypothesis Hnum : forall n, P (VNum n).
Hypothesis Hstr : forall s, P (VStr s).
Hypothesis Hsym : P VSym.
Hypothesis Harr : forall es ex,
    Forall P es -> Forall (fun kv => P (snd kv)) ex -> P (VArr es ex).
Hypothesis Hobj : forall ps,
    Forall (fun kv => P (snd kv)) ps -> P (VObj ps).

Fixpoint value_ind (v : value) : P v :=
  let fix elems (l : list value) : Forall P l :=
    match l with
    | [] => @List.Forall_nil _ _
    | x :: l' => @List.Forall_cons _ P x l' (value_ind x) (elems l')
    end in
  let fix fields (l : list (string * value)) : Forall (fun kv => P (snd kv)) l :=
    match l with
    | [] => @List.Forall_nil _ _
    | kv :: l' =>
        @List.Forall_cons _ (fun kv => P (snd kv)) kv l' (value_ind (snd kv)) (fields l')
    end in
  match v with
  | VUndef => Hundef
  | VNull => Hnull
  | VBool b => Hbool b
  | VNum n => Hnum n
  | VStr s => Hstr s
  | VSym => Hsym
  | VArr es ex => Harr es ex (elems es) (fields ex)
  | VObj ps => Hobj ps (fields ps)
  end.
End value_ind.

(** Errors that can be thrown.  [Error m] is [new Error(m)] and
    [ErrorCause m c] is [new Error(m, { cause: c })];
    [NativeError] is an error raised by the runtime itself (its [name] is
    [TypeError], [RangeError], [SyntaxError] or [DataCloneError]);
    [SystemError] is a file-system failure carrying an errno [code];
    [Unmodelled] marks a behaviour of the runtime this development does not
    describe. *)
Inductive error :=
| Error (message : string)
| ErrorCause (message : string) (cause : error)
| NativeError (name : string) (message : string)
| SystemError (code : string) (message : string)
| Unmodelled (what : string).

Definition message_of (e : error) : string :=
  match e with
  | Error m => m
  | ErrorCause m _ => m
  | NativeError _ m => m
  | SystemError _ m => m
  | Unmodelled w => w
  end.

(** [err.code === c] *)
Definition has_code (e : error) (c : string) : bool :=
  match e with
  | SystemError c' _ => String.eqb c' c
  | _ => false
  end.

Inductive result (A : Type) :=
| Ok (a : A)
| Throw (e : error).
Arguments Ok {A} a.
Arguments Throw {A} e.

Definition is_ok {A} (r : result A) : bool :=
  match r with Ok _ => true | Throw _ => false end.

Definition rbind {A B} (r : result A) (k : A -> result B) : result B :=
  match r with
  | Ok a => k a
  | Throw e => Throw e
  end.

Definition type_error (m : string) : error := NativeError "TypeError" m.
Definition range_error (m : string) : error := NativeError "RangeError" m.

(** ** [typeof] and the nullish test *)

Definition typeof (v : value) : string :=
  match v with
  | VUndef => "undefined"
  | VNull => "object"
  | VBool _ => "boolean"
  | VNum _ => "number"
  | VStr _ => "string"
  | VSym => "symbol"
  | VArr _ _ => "object"
  | VObj _ => "object"
  end.

(** [v == null] *)
Definition nullish (v : value) : bool :=
  match v with
  | VUndef | VNull => true
  | _ => false
  end.

(** [v == null || typeof v !== "object"] is false exactly on containers. *)
Definition is_container (v : value) : bool :=
  match v with
  | VArr _ _ | VObj _ => true
  | _ => false
  end.

(** ** Numbers as text *)

Definition string_of_Z (z : Z) : string := NilZero.string_of_int (Z.to_int z).
Definition string_of_nat (n : nat) : string := string_of_Z (Z.of_nat n).

(** [`${n}`] *)
Definition string_of_number (n : number) : string :=
  match n with
  | Fin z => string_of_Z z
  | NaN => "NaN"
  | PosInf => "Infinity"
  | NegInf => "-Infinity"
  end.

(** ** Property keys

    A property key is a string.  An _array index_ is the canonical decimal
    rendering of an integer below [2^32 - 1]; such keys address the elements
    of an array and are enumerated first, in ascending order, on any object. *)

Definition max_array_index : Z := 4294967295.

Definition is_digit (c : ascii) : bool :=
  let n := nat_of_ascii c in (48 <=? n)%nat && (n <=? 57)%nat.

Definition digit_val (c : ascii) : Z := Z.of_nat (nat_of_ascii c) - 48.

Fixpoint all_chars (p : ascii -> bool) (s : string) : bool :=
  match s with
  | EmptyString => true
  | String c s' => p c && all_chars p s'
  end.

Fixpoint digits_val (acc : Z) (s : string) : Z :=
  match s with
  | EmptyString => acc
  | String c s' => digits_val (10 * acc + digit_val c) s'
  end.

Definition array_index (k : string) : option N :=
  match k with
  | EmptyString => None
  | String c rest =>
      if all_chars is_digit k
         && (negb (Ascii.eqb c "0") || String.eqb rest "")
         && (String.length k <=? 10)%nat
         && (digits_val 0 k <? max_array_index)%Z
      then Some (Z.to_N (digits_val 0 k))
      else None
  end.

Fixpoint assoc_get {A} (l : list (string * A)) (k : string) : option A :=
  match l with
  | [] => None
  | (k', a) :: l' => if String.eqb k' k then Some a else assoc_get l' k
  end.

(** Replace the value of an existing key, keeping its position. *)
Fixpoint assoc_replace {A} (l : list (string * A)) (k : string) (a : A)
  : list (string * A) :=
  match l with
  | [] => []
  | (k', a') :: l' =>
      if String.eqb k' k then (k', a) :: l' else (k', a') :: assoc_replace l' k a
  end.

(** Insert a new array-index key [k] (of numeric value [i]) at its place
    among the array-index keys that open the list. *)
Fixpoint insert_index {A} (l : list (string * A)) (i : N) (k : string) (a : A)
  : list (string * A) :=
  match l with
  | [] => [(k, a)]
  | (k', a') :: l' =>
      match array_index k' with
      | Some j => if (j <? i)%N then (k', a') :: insert_index l' i k a
                  else (k, a) :: l
      | None => (k, a) :: l
      end
  end.

(** [o[k] = a] on the own properties of an ordinary object. *)
Definition obj_set {A} (l : list (string * A)) (k : string) (a : A)
  : list (string * A) :=
  match assoc_get l k with
  | Some _ => assoc_replace l k a
  | None =>
      match array_index k with
      | Some i => insert_index l i k a
      | None => l ++ [(k, a)]
      end
  end.

(** [a[i] = x] on the elements of an array: positions past the end are
    created, the gap reading as [undefined]. *)
Fixpoint elems_set (es : list value) (i : nat) (x : value) : list value :=
  match i, es with
  | O, [] => [x]
  | O, _ :: es' => x :: es'
  | S i', [] => VUndef :: elems_set [] i' x
  | S i', e :: es' => e :: elems_set es' i' x
  end.

(** [a.length = n] *)
Fixpoint elems_resize (es : list value) (n : nat) : list value :=
  match n, es with
  | O, _ => []
  | S n', [] => VUndef :: elems_resize [] n'
  | S n', e :: es' => e :: elems_resize es' n'
  end.

Definition char_at (s : string) (i : nat) : value :=
  match String.get i s with
  | Some c => VStr (String c EmptyString)
  | None => VUndef
  end.

(** [v[k]] for a string key, on the own properties.  Reading through
    [undefined] or [null] is a [TypeError]; the other primitives have no own
    properties except the characters and the length of a string.  A name
    the value inherits ([inherited], below) reads as missing here. *)
Definition get_prop (v : value) (k : string) : result value :=
  match v with
  | VUndef | VNull =>
      Throw (type_error ("Cannot read properties of " +:+ (if v is VNull then "null" else "undefined")))
  | VBool _ | VNum _ | VSym => Ok VUndef
  | VStr s =>
      match array_index k with
      | Some i => Ok (char_at s (N.to_nat i))
      | None => if String.eqb k "length"
                then Ok (VNum (Fin (Z.of_nat (String.length s))))
                else Ok VUndef
      end
  | VArr es ex =>
      match array_index k with
      | Some i => Ok (nth (N.to_nat i) es VUndef)
      | None => if String.eqb k "length"
                then Ok (VNum (Fin (Z.of_nat (length es))))
                else Ok (default VUndef (assoc_get ex k))
      end
  | VObj ps => Ok (default VUndef (assoc_get ps k))
  end.

(** [v[k] = x] for a string key, in strict mode (the store is an ES module),
    as the assignment of an own property.  Assigning a property of a
    primitive is a [TypeError].  Assigning the [length] of an array is
    described for number values only, and assigning [__proto__] is described
    as for any other name ([inherited], below). *)
Definition set_prop (v : value) (k : string) (x : value) : result value :=
  match v with
  | VUndef | VNull => Throw (type_error "Cannot set properties of null or undefined")
  | VBool _ | VNum _ | VSym | VStr _ =>
      Throw (type_error "Cannot create property on a primitive value")
  | VArr es ex =>
      match array_index k with
      | Some i => Ok (VArr (elems_set es (N.to_nat i) x) ex)
      | None =>
          if String.eqb k "length" then
            match x with
            | VNum (Fin z) =>
                if ((0 <=? z) && (z <=? max_array_index))%Z
                then Ok (VArr (elems_resize es (Z.to_nat z)) ex)
                else Throw (range_error "Invalid array length")
            | VNum _ => Throw (range_error "Invalid array length")
            | _ => Throw (Unmodelled "array length assigned a non-number")
            end
          else Ok (VArr es (obj_set ex k x))
      end
  | VObj ps => Ok (VObj (obj_set ps k x))
  end.

(** ** Names the prototypes answer for

    [get_prop] and [set_prop] describe own properties.  On an object the
    runtime also answers for the members of [Object.prototype], and on an
    array for those of [Array.prototype] as well: reading such a name finds
    the inherited member where no own property has it, and assigning
    [__proto__] goes to an accessor and creates no property.  These are the
    names (ECMAScript 2023, Annex B included); the statements that depend
    on a property being absent, or on an assignment creating one, are made
    for keys that are none of them. *)
Definition object_prototype_names : list string :=
  ["__proto__"; "constructor"; "hasOwnProperty"; "isPrototypeOf";
   "propertyIsEnumerable"; "toLocaleString"; "toString"; "valueOf";
   "__defineGetter__"; "__defineSetter__"; "__lookupGetter__"; "__lookupSetter__"].

Definition array_prototype_names : list string :=
  ["at"; "concat"; "copyWithin"; "entries"; "every"; "fill"; "filter"; "find";
   "findIndex"; "findLast"; "findLastIndex"; "flat"; "flatMap"; "forEach";
   "includes"; "indexOf"; "join"; "keys"; "lastIndexOf"; "map"; "pop"; "push";
   "reduce"; "reduceRight"; "reverse"; "shift"; "slice"; "some"; "sort";
   "splice"; "toReversed"; "toSorted"; "toSpliced"; "unshift"; "values"; "with"].

(** A name an object inherits. *)
Definition inherited_by_object (k : string) : bool :=
  existsb (String.eqb k) object_prototype_names.

(** A name an object or an array inherits. *)
Definition inherited (k : string) : bool :=
  existsb (String.eqb k) (object_prototype_names ++ array_prototype_names).


(** ** [structuredClone]

    A deep copy; it fails with a [DataCloneError] on a symbol, wherever it
    sits. *)
Definition data_clone_error : error :=
  NativeError "DataCloneError" "Symbol() could not be cloned.".

Fixpoint structuredClone (v : value) : result value :=
  let fix clone_elems (l : list value) : result (list value) :=
    match l with
    | [] => Ok []
    | x :: l' =>
        rbind (structuredClone x) (fun x' =>
        rbind (clone_elems l') (fun l'' => Ok (x' :: l'')))
    end in
  let fix clone_fields (l : list (string * value)) : result (list (string * value)) :=
    match l with
    | [] => Ok []
    | (k, x) :: l' =>
        rbind (structuredClone x) (fun x' =>
        rbind (clone_fields l') (fun l'' => Ok ((k, x') :: l'')))
    end in
  match v with
  | VSym => Throw data_clone_error
  | VArr es ex =>
      rbind (clone_elems es) (fun es' =>
      rbind (clone_fields ex) (fun ex' => Ok (VArr es' ex')))
  | VObj ps => rbind (clone_fields ps) (fun ps' => Ok (VObj ps'))
  | _ => Ok v
  end.

End Runtime.

(* ===================================================================== *)
(** * JSON text *)
(* ===================================================================== *)

(** [JSON.stringify (v, null, 2)] and [JSON.parse], after ECMA-262 (25.5).
    These are runtime primitives: the store only calls them. *)
Module JSON.
Import Runtime.

Definition nl : string := String (ascii_of_nat 10) EmptyString.
Definition dquote : ascii := ascii_of_nat 34.
Definition backslash : ascii := ascii_of_nat 92.

Definition hex_digit (n : nat) : ascii :=
  if (n <? 10)%nat then ascii_of_nat (48 + n) else ascii_of_nat (87 + n).

(** One character of [QuoteJSONString]. *)
Definition quote_char (c : ascii) : string :=
  let n := nat_of_ascii c in
  if (n =? 34)%nat then String backslash (String dquote EmptyString)
  else if (n =? 92)%nat then String backslash (String backslash EmptyString)
  else if (n =? 8)%nat then String backslash "b"
  else if (n =? 12)%nat then String backslash "f"
  else if (n =? 10)%nat then String backslash "n"
  else if (n =? 13)%nat then String backslash "r"
  else if (n =? 9)%nat then String backslash "t"
  else if (n <? 32)%nat then
    String backslash
      (String "u" (String "0" (String "0"
        (String (hex_digit (n / 16)) (String (hex_digit (n mod 16)) EmptyString)))))
  else String c EmptyString.

Fixpoint quote_chars (s : string) : string :=
  match s with
  | EmptyString => EmptyString
  | String c s' => quote_char c +:+ quote_chars s'
  end.

(** [JSON.stringify(s)] for a string [s]. *)
Definition quote (s : string) : string :=
  String dquote (quote_chars s +:+ String dquote EmptyString).

Fixpoint join (sep : string) (l : list string) : string :=
  match l with
  | [] => EmptyString
  | [x] => x
  | x :: l' => x +:+ sep +:+ join sep l'
  end.

(** The two container layouts of [SerializeJSONObject] / [SerializeJSONArray]
    with a non-empty gap: [stepback] is the indentation of the enclosing
    line, [indent] the one of the members. *)
Definition wrap (opening closing stepback indent : string) (partial : list string)
  : string :=
  match partial with
  | [] => opening +:+ closing
  | _ => opening +:+ nl +:+ indent +:+ join ("," +:+ nl +:+ indent) partial
         +:+ nl +:+ stepback +:+ closing
  end.

(** [SerializeJSONProperty]: [None] is the [undefined] the runtime returns
    for a value that has no JSON text. *)
Fixpoint serialize (indent : string) (v : value) : option string :=
  let inner := indent +:+ "  " in
  let fix elements (l : list value) : list string :=
    match l with
    | [] => []
    | x :: l' => default "null" (serialize inner x) :: elements l'
    end in
  let fix members (l : list (string * value)) : list string :=
    match l with
    | [] => []
    | (k, x) :: l' =>
        match serialize inner x with
        | Some s => (quote k +:+ ": " +:+ s) :: members l'
        | None => members l'
        end
    end in
  match v with
  | VUndef | VSym => None
  | VNull => Some "null"
  | VBool true => Some "true"
  | VBool false => Some "false"
  | VNum (Fin z) => Some (string_of_Z z)
  | VNum _ => Some "null"
  | VStr s => Some (quote s)
  | VArr es _ => Some (wrap "[" "]" indent inner (elements es))
  | VObj ps => Some (wrap "{" "}" indent inner (members ps))
  end.

(** [JSON.stringify (v, null, 2)] *)
Definition stringify (v : value) : option string := serialize "" v.

(** ** Parsing *)

Definition syntax_error (m : string) : error := NativeError "SyntaxError" m.

Definition is_ws (c : ascii) : bool :=
  let n := nat_of_ascii c in
  (n =? 32)%nat || (n =? 9)%nat || (n =? 10)%nat || (n =? 13)%nat.

Fixpoint skip_ws (s : string) : string :=
  match s with
  | EmptyString => EmptyString
  | String c s' => if is_ws c then skip_ws s' else s
  end.

Definition hex_val (c : ascii) : option N :=
  let n := N_of_ascii c in
  if (48 <=? n)%N && (n <=? 57)%N then Some (n - 48)%N
  else if (97 <=? n)%N && (n <=? 102)%N then Some (n - 87)%N
  else if (65 <=? n)%N && (n <=? 70)%N then Some (n - 55)%N
  else None.

(** The UTF-8 bytes of a code point of the basic plane. *)
Definition utf8 (cp : N) : result string :=
  if (cp <? 128)%N then Ok (String (ascii_of_N cp) EmptyString)
  else if (cp <? 2048)%N then
    Ok (String (ascii_of_N (192 + cp / 64))
       (String (ascii_of_N (128 + cp mod 64)) EmptyString))
  else if (55296 <=? cp)%N && (cp <=? 57343)%N then
    Throw (Unmodelled "surrogate escape")
  else
    Ok (String (ascii_of_N (224 + cp / 4096))
       (String (ascii_of_N (128 + (cp / 64) mod 64))
       (String (ascii_of_N (128 + cp mod 64)) EmptyString))).

(** The characters of a string literal after its opening quote, up to and
    including the closing quote. *)
Fixpoint parse_chars (s : string) : result (string * string) :=
  match s with
  | EmptyString => Throw (syntax_error "Unterminated string in JSON")
  | String c s' =>
      let n := nat_of_ascii c in
      if (n =? 34)%nat then Ok (EmptyString, s')
      else if (n =? 92)%nat then
        match s' with
        | EmptyString => Throw (syntax_error "Unterminated string in JSON")
        | String e s'' =>
            let m := nat_of_ascii e in
            let simple (b : nat) :=
              rbind (parse_chars s'') (fun '(str, rest) =>
              Ok (String (ascii_of_nat b) str, rest)) in
            if (m =? 34)%nat then simple 34%nat
            else if (m =? 92)%nat then simple 92%nat
            else if (m =? 47)%nat then simple 47%nat
            else if (m =? 98)%nat then simple 8%nat
            else if (m =? 102)%nat then simple 12%nat
            else if (m =? 110)%nat then simple 10%nat
            else if (m =? 114)%nat then simple 13%nat
            else if (m =? 116)%nat then simple 9%nat
            else if (m =? 117)%nat then
              match s'' with
              | String h1 (String h2 (String h3 (String h4 s4))) =>
                  match hex_val h1, hex_val h2, hex_val h3, hex_val h4 with
                  | Some a, Some b, Some c', Some d =>
                      rbind (utf8 (((a * 16 + b) * 16 + c') * 16 + d)%N) (fun bytes =>
                      rbind (parse_chars s4) (fun '(str, rest) =>
                      Ok (bytes +:+ str, rest)))
                  | _, _, _, _ => Throw (syntax_error "Bad Unicode escape in JSON")
                  end
              | _ => Throw (syntax_error "Bad Unicode escape in JSON")
              end
            else Throw (syntax_error "Bad escaped character in JSON")
        end
      else if (n <? 32)%nat then Throw (syntax_error "Bad control character in string literal in JSON")
      else rbind (parse_chars s') (fun '(str, rest) => Ok (String c str, rest))
  end.

(** The longest prefix of decimal digits. *)
Fixpoint take_digits (s : string) : string * string :=
  match s with
  | EmptyString => (EmptyString, EmptyString)
  | String c s' =>
      if is_digit c then let '(d, rest) := take_digits s' in (String c d, rest)
      else (EmptyString, s)
  end.

Definition max_safe_integer : Z := 9007199254740991.

(** A number literal; [neg] tells whether a minus sign was read.  Only the
    integers that a double holds exactly are described. *)
Definition parse_number (neg : bool) (s : string) : result (value * string) :=
  let '(ds, rest) := take_digits s in
  match ds with
  | EmptyString => Throw (syntax_error "No number after minus sign in JSON")
  | String d ds' =>
      let '(ds, rest) :=
        if Ascii.eqb d "0" then (String d EmptyString, ds' +:+ rest) else (ds, rest) in
      match rest with
      | String c _ =>
          if Ascii.eqb c "." || Ascii.eqb c "e" || Ascii.eqb c "E"
          then Throw (Unmodelled "number with a fraction or an exponent")
          else
            let z := digits_val 0 ds in
            if neg && (z =? 0)%Z then Throw (Unmodelled "negative zero")
            else if (max_safe_integer <? z)%Z then Throw (Unmodelled "integer beyond 2^53")
            else Ok (VNum (Fin (if neg then - z else z)), rest)
      | EmptyString =>
          let z := digits_val 0 ds in
          if neg && (z =? 0)%Z then Throw (Unmodelled "negative zero")
          else if (max_safe_integer <? z)%Z then Throw (Unmodelled "integer beyond 2^53")
          else Ok (VNum (Fin (if neg then - z else z)), rest)
      end
  end.

(** [expect lit s]: [s] starts with the characters [lit]. *)
Fixpoint expect (lit s : string) : option string :=
  match lit, s with
  | EmptyString, _ => Some s
  | String a lit', String b s' => if Ascii.eqb a b then expect lit' s' else None
  | String _ _, EmptyString => None
  end.

Definition unexpected : error := syntax_error "Unexpected token in JSON".

(** The fuel bounds the number of values, elements and members read. *)
Fixpoint parse_value (fuel : nat) (s : string) : result (value * string) :=
  match fuel with
  | O => Throw (Unmodelled "out of fuel")
  | S fuel' =>
      match skip_ws s with
      | EmptyString => Throw (syntax_error "Unexpected end of JSON input")
      | String c r =>
          let n := nat_of_ascii c in
          if (n =? 110)%nat then
            match expect "ull" r with Some r' => Ok (VNull, r') | None => Throw unexpected end
          else if (n =? 116)%nat then
            match expect "rue" r with Some r' => Ok (VBool true, r') | None => Throw unexpected end
          else if (n =? 102)%nat then
            match expect "alse" r with Some r' => Ok (VBool false, r') | None => Throw unexpected end
          else if (n =? 34)%nat then
            rbind (parse_chars r) (fun '(str, r') => Ok (VStr str, r'))
          else if (n =? 45)%nat then parse_number true r
          else if is_digit c then parse_number false (String c r)
          else if (n =? 91)%nat then
            match skip_ws r with
            | String c' r' =>
                if (nat_of_ascii c' =? 93)%nat then Ok (VArr [] [], r')
                else rbind (parse_elements fuel' r) (fun '(es, r'') => Ok (VArr es [], r''))
            | EmptyString => Throw (syntax_error "Unexpected end of JSON input")
            end
          else if (n =? 123)%nat then
            match skip_ws r with
            | String c' r' =>
                if (nat_of_ascii c' =? 125)%nat then Ok (VObj [], r')
                else rbind (parse_members fuel' r []) (fun '(ps, r'') => Ok (VObj ps, r''))
            | EmptyString => Throw (syntax_error "Unexpected end of JSON input")
            end
          else Throw unexpected
      end
  end

(** One element, then either a comma and the remaining elements or the
    closing bracket. *)
with parse_elements (fuel : nat) (s : string) : result (list value * string) :=
  match fuel with
  | O => Throw (Unmodelled "out of fuel")
  | S fuel' =>
      rbind (parse_value fuel' s) (fun '(v, r) =>
      match skip_ws r with
      | String c r' =>
          if (nat_of_ascii c =? 44)%nat then
            rbind (parse_elements fuel' r') (fun '(vs, r'') => Ok (v :: vs, r''))
          else if (nat_of_ascii c =? 93)%nat then Ok ([v], r')
          else Throw unexpected
      | EmptyString => Throw (syntax_error "Unexpected end of JSON input")
      end)
  end

(** One member, then either a comma and the remaining members or the closing
    brace.  A repeated key overwrites the earlier value in place. *)
with parse_members (fuel : nat) (s : string) (acc : list (string * value))
  : result (list (string * value) * string) :=
  match fuel with
  | O => Throw (Unmodelled "out of fuel")
  | S fuel' =>
      match skip_ws s with
      | String q r =>
          if (nat_of_ascii q =? 34)%nat then
            rbind (parse_chars r) (fun '(k, r1) =>
            match skip_ws r1 with
            | String colon r2 =>
                if (nat_of_ascii colon =? 58)%nat then
                  rbind (parse_value fuel' r2) (fun '(v, r3) =>
                  let acc' := obj_set acc k v in
                  match skip_ws r3 with
                  | String c r4 =>
                      if (nat_of_ascii c =? 44)%nat then parse_members fuel' r4 acc'
                      else if (nat_of_ascii c =? 125)%nat then Ok (acc', r4)
                      else Throw unexpected
                  | EmptyString => Throw (syntax_error "Unexpected end of JSON input")
                  end)
                else Throw unexpected
            | EmptyString => Throw (syntax_error "Unexpected end of JSON input")
            end)
          else Throw unexpected
      | EmptyString => Throw (syntax_error "Unexpected end of JSON input")
      end
  end.

(** [JSON.parse (text)] *)
Definition parse (text : string) : result value :=
  rbind (parse_value (S (String.length text)) text) (fun '(v, rest) =>
  match skip_ws rest with
  | EmptyString => Ok v
  | String _ _ => Throw (syntax_error "Unexpected non-whitespace character after JSON")
  end).

End JSON.


(* ===================================================================== *)
(** * Effects: state and exceptions *)
(* ===================================================================== *)

(** A computation over a state [S] that returns or throws; the state it
    leaves is kept in both cases, as with the fields of an object and the
    files of a disk. *)
Module Eff.
Import Runtime.

Definition M (S A : Type) : Type := S -> S * result A.

Definition ret {S A} (a : A) : M S A := fun s => (s, Ok a).
Definition throw {S A} (e : error) : M S A := fun s => (s, Throw e).

Definition bind {S A B} (m : M S A) (k : A -> M S B) : M S B :=
  fun s =>
    match m s with
    | (s', Ok a) => k a s'
    | (s', Throw e) => (s', Throw e)
    end.

(** [try { m } catch (e) { h e }] *)
Definition try_catch {S A} (m : M S A) (h : error -> M S A) : M S A :=
  fun s =>
    match m s with
    | (s', Ok a) => (s', Ok a)
    | (s', Throw e) => h e s'
    end.

(** [try { m } finally { f }]: an error of [f] replaces the outcome of [m]. *)
Definition try_finally {S A} (m : M S A) (f : M S unit) : M S A :=
  fun s =>
    match m s with
    | (s', r) =>
        match f s' with
        | (s'', Ok _) => (s'', r)
        | (s'', Throw e) => (s'', Throw e)
        end
    end.

(** The outcome of [m] as a value, for code that branches on it. *)
Definition attempt {S A} (m : M S A) : M S (result A) :=
  fun s => match m s with (s', r) => (s', Ok r) end.

Definition gets {S A} (f : S -> A) : M S A := fun s => (s, Ok (f s)).
Definition modify {S} (f : S -> S) : M S unit := fun s => (f s, Ok tt).
Definition lift_result {S A} (r : result A) : M S A := fun s => (s, r).

(** Run a computation on the first, resp. second, component of a pair. *)
Definition on_fst {S T A} (m : M S A) : M (S * T) A :=
  fun st => match m (fst st) with (s', r) => ((s', snd st), r) end.
Definition on_snd {S T A} (m : M T A) : M (S * T) A :=
  fun st => match m (snd st) with (t', r) => ((fst st, t'), r) end.

End Eff.

Declare Scope eff_scope.
Delimit Scope eff_scope with eff.
Notation "x <- m ;; k" := (Eff.bind m (fun x => k))
  (at level 100, m at next level, right associativity) : eff_scope.
Notation "m ;; k" := (Eff.bind m (fun _ => k))
  (at level 100, right associativity) : eff_scope.

(* ===================================================================== *)
(** * The file system *)
(* ===================================================================== *)

(** The calls of [node:fs/promises], [node:path] and [node:crypto] the store
    makes.  A disk is a finite map from paths to contents and a set of
    directories.  What the environment does during one store operation is an
    [env]: the token [randomUUID] returns and, for each call, the error it
    fails with, if any.  Every store operation makes each call at most once. *)
Module Fs.
Import Runtime Eff.

Record fs := {
  files : gmap string string;
  dirs : gset string
}.

Record env := {
  uuid : string;
  fail_access : option error;
  fail_readFile : option error;
  fail_open : option error;
  fail_writeFile : option error;
  (** how many bytes reach the file when [writeFile] fails *)
  written : nat;
  fail_sync : option error;
  fail_close : option error;
  fail_rename : option error;
  fail_unlink : option error
}.

(** An environment in which no call fails on its own. *)
Definition calm (token : string) : env :=
  {| uuid := token; fail_access := None; fail_readFile := None;
     fail_open := None; fail_writeFile := None; written := 0;
     fail_sync := None; fail_close := None; fail_rename := None;
     fail_unlink := None |}.

Definition set_files (f : gmap string string -> gmap string string) (w : fs) : fs :=
  {| files := f (files w); dirs := dirs w |}.

Definition enoent (syscall path : string) : error :=
  SystemError "ENOENT"
    ("ENOENT: no such file or directory, " +:+ syscall +:+ " '" +:+ path +:+ "'").

Definition inject (f : option error) : M fs unit :=
  match f with
  | Some e => throw e
  | None => ret tt
  end.

Local Open Scope eff_scope.

Definition access (e : env) (dir : string) : M fs unit :=
  inject (fail_access e) ;;
  present <- gets (fun w => bool_decide (dir ∈ dirs w)) ;;
  if (present : bool) then ret tt else throw (enoent "access" dir).

(** [readFile(path, "utf-8")] *)
Definition readFile (e : env) (path : string) : M fs string :=
  inject (fail_readFile e) ;;
  content <- gets (fun w => files w !! path) ;;
  match content with
  | Some c => ret c
  | None => throw (enoent "open" path)
  end.

(** [open(path, "w")]: the file is created, or truncated; the handle is
    identified with the path. *)
Definition open (e : env) (path : string) : M fs string :=
  inject (fail_open e) ;;
  modify (set_files (insert path "")) ;;
  ret path.

(** [handle.writeFile(text, "utf-8")] *)
Definition writeFile (e : env) (handle text : string) : M fs unit :=
  match fail_writeFile e with
  | Some err =>
      modify (set_files (insert handle (String.substring 0 (written e) text))) ;;
      throw err
  | None => modify (set_files (insert handle text))
  end.

Definition sync (e : env) (handle : string) : M fs unit := inject (fail_sync e).
Definition close (e : env) (handle : string) : M fs unit := inject (fail_close e).

Definition rename (e : env) (from to : string) : M fs unit :=
  inject (fail_rename e) ;;
  content <- gets (fun w => files w !! from) ;;
  match content with
  | Some c => modify (set_files (fun m => <[to := c]> (delete from m)))
  | None => throw (enoent "rename" from)
  end.

Definition unlink (e : env) (path : string) : M fs unit :=
  inject (fail_unlink e) ;;
  content <- gets (fun w => files w !! path) ;;
  match content with
  | Some _ => modify (set_files (delete path))
  | None => throw (enoent "unlink" path)
  end.

(** [dirname] of [node:path] (POSIX).  [scan] walks the characters after the
    first one from the end and returns the position of the slash that closes
    the directory part. *)
Fixpoint scan (rev_tail : list ascii) (matchedSlash : bool) : option nat :=
  match rev_tail with
  | [] => None
  | c :: before =>
      if Ascii.eqb c "/" then
        if matchedSlash then scan before true else Some (S (length before))
      else scan before false
  end.

Definition dirname (path : string) : string :=
  match path with
  | EmptyString => "."
  | String c0 tail =>
      let hasRoot := Ascii.eqb c0 "/" in
      match scan (rev (list_ascii_of_string tail)) true with
      | None => if hasRoot then "/" else "."
      | Some stop =>
          if hasRoot && (stop =? 1)%nat then "//"
          else String.substring 0 stop path
      end
  end.

End Fs.

(* ===================================================================== *)
(** * The store: shared state *)
(* ===================================================================== *)

Module Store.
Import Runtime Eff.

(** The private fields of a [JSONStore].  The [#mutex] field is the subject
    of [AsyncMutex] below: the operations here are the bodies that run under
    it, one at a time. *)
Record store := {
  filePath : string;
  data : value;
  initialized : bool;
  dirty : bool;
  defaultFactory : unit -> value
}.

Definition set_data (v : value) (s : store) : store :=
  {| filePath := filePath s; data := v; initialized := initialized s;
     dirty := dirty s; defaultFactory := defaultFactory s |}.
Definition set_initialized (b : bool) (s : store) : store :=
  {| filePath := filePath s; data := data s; initialized := b;
     dirty := dirty s; defaultFactory := defaultFactory s |}.
Definition set_dirty (b : bool) (s : store) : store :=
  {| filePath := filePath s; data := data s; initialized := initialized s;
     dirty := b; defaultFactory := defaultFactory s |}.

(** [new JSONStore(filePath, { defaultFactory })] *)
Definition new (path : string) (factory : option (unit -> value)) : store :=
  let f := default (fun _ => VObj []) factory in
  {| filePath := path; data := f tt; initialized := false; dirty := false;
     defaultFactory := f |}.

(** The argument of [update] and [updateAndSave]: a partial document, or a
    function.  A function receives a value it may change in place and its
    return value is ignored; here it returns the value as it has left it, or
    throws.  It sees nothing but its argument. *)
Inductive updater :=
| Partial (p : value)
| Mutator (f : value -> result value).

(** The own enumerable properties of a value, in enumeration order.  A gap
    of an array counts as an element. *)
Fixpoint indexed (i : N) (es : list value) : list (string * value) :=
  match es with
  | [] => []
  | e :: es' => (string_of_Z (Z.of_N i), e) :: indexed (N.succ i) es'
  end.

Fixpoint chars_of (s : string) : list value :=
  match s with
  | EmptyString => []
  | String c s' => VStr (String c EmptyString) :: chars_of s'
  end.

Definition own_enumerable (v : value) : list (string * value) :=
  match v with
  | VObj ps => ps
  | VArr es ex => indexed 0 es ++ ex
  | VStr s => indexed 0 (chars_of s)
  | _ => []
  end.

Definition define_all (target source : list (string * value)) : list (string * value) :=
  fold_left (fun acc kv => obj_set acc (fst kv) (snd kv)) source target.

(** [{ ...a, ...b }] *)
Definition spread (a b : value) : value :=
  VObj (define_all (define_all [] (own_enumerable a)) (own_enumerable b)).

Definition not_initialized : error :=
  Error "JSONStore not initialized. Call load() first.".

(** [#assertInitialized()] *)
Definition assertInitialized : M store unit :=
  fun s => if initialized s then (s, Ok tt) else (s, Throw not_initialized).

(** A unit of work run through [#mutex.runExclusive], seen in isolation: its
    body.  (What the queue adds when several are pending is [AsyncMutex].) *)
Definition runExclusive {S A} (fn : M S A) : M S A := fn.

Definition parse_failure (path : string) (parseError : error) : error :=
  ErrorCause ("Failed to parse JSON from " +:+ path +:+ ": " +:+ message_of parseError)
             parseError.

(** The text handed to [handle.writeFile]: [JSON.stringify] returns
    [undefined] for a value without JSON text, which [writeFile] rejects. *)
Definition text_of (v : value) : result string :=
  match JSON.stringify v with
  | Some s => Ok s
  | None => Throw (type_error "The data argument must be of type string")
  end.

Definition tmp_path (path token : string) : string :=
  path +:+ "." +:+ token +:+ ".tmp".

End Store.

(* ===================================================================== *)
(** * [JSONStore], later revision *)
(* ===================================================================== *)

Module JSONStore.
Import Runtime Eff Store.
Local Open Scope eff_scope.

(** [#writeAtomic(data)] *)
Definition writeAtomic (e : Fs.env) (path : string) (d : value) : M Fs.fs unit :=
  let tmpPath := tmp_path path (Fs.uuid e) in
  try_catch
    (handle <- Fs.open e tmpPath ;;
     try_finally
       (text <- lift_result (text_of d) ;;
        Fs.writeFile e handle text ;;
        Fs.sync e handle)
       (Fs.close e handle) ;;
     Fs.rename e tmpPath path)
    (fun err =>
       try_catch (Fs.unlink e tmpPath) (fun _ => ret tt) ;;
       throw err).

(** [#readOrCreateDefault()] *)
Definition readOrCreateDefault (e : Fs.env) : M (store * Fs.fs) value :=
  path <- on_fst (gets filePath) ;;
  read <- attempt (on_snd (Fs.readFile e path)) ;;
  match read with
  | Throw err =>
      if negb (has_code err "ENOENT") then throw err
      else
        factory <- on_fst (gets defaultFactory) ;;
        let defaultData := factory tt in
        on_snd (writeAtomic e path defaultData) ;;
        ret defaultData
  | Ok content =>
      try_catch (lift_result (JSON.parse content))
                (fun parseError => throw (parse_failure path parseError))
  end.

(** [load()] *)
Definition load (e : Fs.env) : M (store * Fs.fs) unit :=
  runExclusive
    (path <- on_fst (gets filePath) ;;
     let dir := Fs.dirname path in
     try_catch (on_snd (Fs.access e dir))
               (fun _ => throw (Error ("Directory does not exist: " +:+ dir))) ;;
     loadedData <- readOrCreateDefault e ;;
     on_fst (modify (set_data loadedData)) ;;
     on_fst (modify (set_initialized true)) ;;
     on_fst (modify (set_dirty false))).

(** [reload()] *)
Definition reload (e : Fs.env) : M (store * Fs.fs) unit :=
  on_fst assertInitialized ;;
  runExclusive
    (path <- on_fst (gets filePath) ;;
     content <-
       try_catch (on_snd (Fs.readFile e path))
         (fun err =>
            if has_code err "ENOENT"
            then throw (ErrorCause ("File does not exist: " +:+ path) err)
            else throw err) ;;
     parsed <-
       try_catch (lift_result (JSON.parse content))
                 (fun parseError => throw (parse_failure path parseError)) ;;
     on_fst (modify (set_data parsed)) ;;
     on_fst (modify (set_dirty false))).

(** [update(updater)] *)
Definition update (u : updater) : M store unit :=
  assertInitialized ;;
  match u with
  | Mutator f =>
      current <- gets data ;;
      cloned <- lift_result (structuredClone current) ;;
      cloned' <- lift_result (f cloned) ;;
      modify (set_data cloned')
  | Partial p =>
      current <- gets data ;;
      modify (set_data (spread current p))
  end ;;
  modify (set_dirty true).

(** [save()] *)
Definition save (e : Fs.env) : M (store * Fs.fs) unit :=
  on_fst assertInitialized ;;
  runExclusive
    (path <- on_fst (gets filePath) ;;
     current <- on_fst (gets data) ;;
     on_snd (writeAtomic e path current) ;;
     on_fst (modify (set_dirty false))).

(** [updateAndSave(updater)] *)
Definition updateAndSave (e : Fs.env) (u : updater) : M (store * Fs.fs) unit :=
  on_fst assertInitialized ;;
  runExclusive
    (path <- on_fst (gets filePath) ;;
     current <- on_fst (gets data) ;;
     backup <- lift_result (structuredClone current) ;;
     try_catch
       (match u with
        | Mutator f =>
            current <- on_fst (gets data) ;;
            cloned <- lift_result (structuredClone current) ;;
            cloned' <- lift_result (f cloned) ;;
            on_fst (modify (set_data cloned'))
        | Partial p =>
            current <- on_fst (gets data) ;;
            on_fst (modify (set_data (spread current p)))
        end ;;
        current <- on_fst (gets data) ;;
        on_snd (writeAtomic e path current) ;;
        on_fst (modify (set_dirty false)))
       (fun err =>
          on_fst (modify (set_data backup)) ;;
          throw err)).

(** ** Paths *)

(** A validated key: [(string | number)], the number finite. *)
Inductive key :=
| KStr (s : string)
| KNum (z : Z).

(** The property a key addresses: [current[key]]. *)
Definition prop_name (k : key) : string :=
  match k with
  | KStr s => s
  | KNum z => string_of_Z z
  end.

(** [#validateKeys(keys)], the loop from index [i] on *)
Fixpoint validateKeys_from (i : nat) (keys : list value) : result (list key) :=
  match keys with
  | [] => Ok []
  | k :: rest =>
      match k with
      | VNum (Fin z) =>
          rbind (validateKeys_from (S i) rest) (fun ks => Ok (KNum z :: ks))
      | VNum n =>
          Throw (Error ("Invalid key at index " +:+ string_of_nat i
                        +:+ ": numbers must be finite (got " +:+ string_of_number n +:+ ")"))
      | VStr s =>
          rbind (validateKeys_from (S i) rest) (fun ks => Ok (KStr s :: ks))
      | _ =>
          Throw (Error ("Invalid key at index " +:+ string_of_nat i
                        +:+ ": expected string or number, got " +:+ typeof k))
      end
  end.

Definition validateKeys (keys : list value) : result (list key) :=
  validateKeys_from 0 keys.

(** [/^[a-zA-Z_$][a-zA-Z0-9_$]*$/.test(s)] *)
Definition ident_start (c : ascii) : bool :=
  let n := nat_of_ascii c in
  ((97 <=? n) && (n <=? 122) || (65 <=? n) && (n <=? 90) || (n =? 95) || (n =? 36))%nat.

Definition ident_part (c : ascii) : bool := ident_start c || is_digit c.

Definition is_identifier (s : string) : bool :=
  match s with
  | EmptyString => false
  | String c s' => ident_start c && all_chars ident_part s'
  end.

(** [#formatPath(keys)] *)
Definition formatPath (keys : list key) : string :=
  match keys with
  | [] => "(empty path)"
  | _ =>
      fold_left
        (fun result k =>
           match k with
           | KNum z => result +:+ "[" +:+ string_of_Z z +:+ "]"
           | KStr s =>
               if is_identifier s
               then result +:+ (if String.eqb result "" then s else "." +:+ s)
               else result +:+ "[" +:+ JSON.quote s +:+ "]"
           end)
        keys ""
  end.

(** [JSON.stringify(k)] for a key *)
Definition key_text (k : key) : string :=
  match k with
  | KStr s => JSON.quote s
  | KNum z => string_of_Z z
  end.

Definition array_refused (pathKeys : list key) : error :=
  Error ("Cannot auto-create array at '" +:+ formatPath pathKeys +:+ "'. "
         +:+ "Initialize it first with setPath(["
         +:+ JSON.join ", " (map key_text pathKeys) +:+ "], [])").

Definition not_traversable (pathKeys : list key) : error :=
  Error ("Cannot traverse through non-object at '" +:+ formatPath pathKeys +:+ "'").

(** [#setAtPath(data, keys, value)].  The source walks references and
    assigns in place; here [walked] is [keys.slice(0, i)], [current] the
    container reached, and the result is [current] as the assignments below
    it leave it.  The last step of each round puts the changed [next] back
    under its key: that is what assigning through the reference does. *)
Fixpoint setAtPath_from (walked : list key) (current : value) (keys : list key)
  (v : value) : result value :=
  match keys with
  | [] => set_prop current "undefined" v
  | [k] => set_prop current (prop_name k) v
  | k :: ((nextKey :: _) as rest) =>
      rbind (get_prop current (prop_name k)) (fun child =>
      rbind (if nullish child then
               match nextKey with
               | KNum _ => Throw (array_refused (walked ++ [k]))
               | KStr _ => set_prop current (prop_name k) (VObj [])
               end
             else Ok current) (fun current' =>
      rbind (get_prop current' (prop_name k)) (fun next =>
      if nullish next || negb (String.eqb (typeof next) "object")
      then Throw (not_traversable (walked ++ [k]))
      else
        rbind (setAtPath_from (walked ++ [k]) next rest v) (fun next' =>
        set_prop current' (prop_name k) next'))))
  end.

Definition setAtPath (d : value) (keys : list key) (v : value) : result value :=
  setAtPath_from [] d keys v.

(** The loop of [getPath] *)
Fixpoint walk (current : value) (keys : list key) : result value :=
  match keys with
  | [] => Ok current
  | k :: rest =>
      if nullish current || negb (String.eqb (typeof current) "object")
      then Ok VUndef
      else rbind (get_prop current (prop_name k)) (fun next => walk next rest)
  end.

(** [getPath(...keys)] *)
Definition getPath (keys : list value) : M store value :=
  assertInitialized ;;
  validKeys <- lift_result (validateKeys keys) ;;
  current <- gets data ;;
  lift_result (walk current validKeys).

(** [hasPath(...keys)] *)
Definition hasPath (keys : list value) : M store bool :=
  found <- getPath keys ;;
  ret (if found is VUndef then false else true).

Definition empty_path : error := Error "Path cannot be empty".

(** [setPath(keys, value)] *)
Definition setPath (keys : list value) (v : value) : M store unit :=
  validKeys <- lift_result (validateKeys keys) ;;
  (if (length validKeys =? 0)%nat then throw empty_path else ret tt) ;;
  update (Mutator (fun d => setAtPath d validKeys v)).

(** [setPathAndSave(keys, value)] *)
Definition setPathAndSave (e : Fs.env) (keys : list value) (v : value)
  : M (store * Fs.fs) unit :=
  validKeys <- lift_result (validateKeys keys) ;;
  (if (length validKeys =? 0)%nat then throw empty_path else ret tt) ;;
  updateAndSave e (Mutator (fun d => setAtPath d validKeys v)).

(** ** Accessors *)

(** [get data()] *)
Definition get_data : M store value :=
  assertInitialized ;;
  current <- gets data ;;
  lift_result (structuredClone current).

(** [get isDirty()] and [get isInitialized()] *)
Definition isDirty : M store bool := gets dirty.
Definition isInitialized : M store bool := gets initialized.

(** [_getFilePath()] *)
Definition _getFilePath : M store string := gets filePath.

(** [_getDataSnapshot()] *)
Definition _getDataSnapshot : M store value :=
  assertInitialized ;;
  current <- gets data ;;
  lift_result (structuredClone current).

(** [_setData(data)] *)
Definition _setData (d : value) : M store unit :=
  assertInitialized ;;
  modify (set_data d) ;;
  modify (set_dirty true).

End JSONStore.

(* ===================================================================== *)
(** * [JSONStore], earlier revision *)
(* ===================================================================== *)

Module JSONStoreV1.
Import Runtime Eff Store.
Local Open Scope eff_scope.

(** [#writeAtomic()]: writes [this.#data] *)
Definition writeAtomic (e : Fs.env) : M (store * Fs.fs) unit :=
  path <- on_fst (gets filePath) ;;
  let tmpPath := tmp_path path (Fs.uuid e) in
  try_catch
    (handle <- on_snd (Fs.open e tmpPath) ;;
     try_finally
       (current <- on_fst (gets data) ;;
        text <- lift_result (text_of current) ;;
        on_snd (Fs.writeFile e handle text) ;;
        on_snd (Fs.sync e handle))
       (on_snd (Fs.close e handle)) ;;
     on_snd (Fs.rename e tmpPath path))
    (fun err =>
       try_catch (on_snd (Fs.unlink e tmpPath)) (fun _ => ret tt) ;;
       throw err).

(** [load()] *)
Definition load (e : Fs.env) : M (store * Fs.fs) unit :=
  runExclusive
    (path <- on_fst (gets filePath) ;;
     let dir := Fs.dirname path in
     try_catch (on_snd (Fs.access e dir))
               (fun _ => throw (Error ("Directory does not exist: " +:+ dir))) ;;
     loadedData <-
       try_catch
         (content <- on_snd (Fs.readFile e path) ;;
          try_catch (lift_result (JSON.parse content))
                    (fun parseError => throw (parse_failure path parseError)))
         (fun err =>
            if has_code err "ENOENT" then
              factory <- on_fst (gets defaultFactory) ;;
              let loadedData := factory tt in
              originalData <- on_fst (gets data) ;;
              on_fst (modify (set_data loadedData)) ;;
              try_catch (writeAtomic e)
                        (fun writeErr =>
                           on_fst (modify (set_data originalData)) ;;
                           throw writeErr) ;;
              ret loadedData
            else throw err) ;;
     on_fst (modify (set_data loadedData)) ;;
     on_fst (modify (set_initialized true)) ;;
     on_fst (modify (set_dirty false))).

(** [reload()] *)
Definition reload (e : Fs.env) : M (store * Fs.fs) unit :=
  on_fst assertInitialized ;;
  runExclusive
    (path <- on_fst (gets filePath) ;;
     content <- on_snd (Fs.readFile e path) ;;
     parsed <-
       try_catch (lift_result (JSON.parse content))
                 (fun parseError => throw (parse_failure path parseError)) ;;
     on_fst (modify (set_data parsed)) ;;
     on_fst (modify (set_dirty false))).

(** [update(updater)] *)
Definition update (u : updater) : M store unit :=
  assertInitialized ;;
  match u with
  | Mutator f =>
      current <- gets data ;;
      cloned <- lift_result (structuredClone current) ;;
      cloned' <- lift_result (f cloned) ;;
      modify (set_data cloned')
  | Partial p =>
      current <- gets data ;;
      modify (set_data (spread current p))
  end ;;
  modify (set_dirty true).

(** [save()] *)
Definition save (e : Fs.env) : M (store * Fs.fs) unit :=
  on_fst assertInitialized ;;
  runExclusive
    (writeAtomic e ;;
     on_fst (modify (set_dirty false))).

(** [updateAndSave(updater)]: the backup is the document itself, not a copy *)
Definition updateAndSave (e : Fs.env) (u : updater) : M (store * Fs.fs) unit :=
  on_fst assertInitialized ;;
  runExclusive
    (backup <- on_fst (gets data) ;;
     try_catch
       (match u with
        | Mutator f =>
            current <- on_fst (gets data) ;;
            cloned <- lift_result (structuredClone current) ;;
            cloned' <- lift_result (f cloned) ;;
            on_fst (modify (set_data cloned'))
        | Partial p =>
            current <- on_fst (gets data) ;;
            on_fst (modify (set_data (spread current p)))
        end ;;
        writeAtomic e ;;
        on_fst (modify (set_dirty false)))
       (fun err =>
          on_fst (modify (set_data backup)) ;;
          throw err)).

End JSONStoreV1.

(* ===================================================================== *)
(** * [AsyncMutex]: the promise-chained queue *)
(* ===================================================================== *)

(** [runExclusive(fn)] is an async function: up to its first [await] it runs
    without interruption, so allocating [next], reading [#queue] into [prev]
    and storing [next] in [#queue] is one step ([Enqueue]).  The call then
    waits for [prev]; when [prev] is settled it may resume and start [fn]
    ([Begin]).  While [fn] runs it may suspend any number of times
    ([Suspend]); whenever it returns or throws, the [finally] block calls
    [release], which settles [next] ([Finish]).  Which enabled step happens
    next is up to the scheduler and to the completion of I/O: the relation
    [step] allows every choice. *)
Module AsyncMutex.
Local Open Scope nat_scope.

(** Promises are numbered in allocation order; promise [0] is the
    [Promise.resolve()] the queue starts with. *)
Definition promise := nat.

Inductive phase :=
| Waiting      (* at [await prev] *)
| Running      (* inside [fn] *)
| Done.        (* [release] called *)

(** One call of [runExclusive]. *)
Record call := {
  prev : promise;
  next : promise;
  phase_of : phase
}.

Inductive event :=
| Enqueued (c : nat)
| Began (c : nat)
| Suspended (c : nat)
| Finished (c : nat).

Record state := {
  queue : promise;            (* the [#queue] field *)
  allocated : nat;            (* promises created so far *)
  settled : list promise;     (* promises resolved so far *)
  calls : list call;          (* the calls made so far, in call order *)
  trace : list event          (* what happened, latest first *)
}.

Definition init : state :=
  {| queue := 0; allocated := 1; settled := [0]; calls := []; trace := [] |}.

Definition is_settled (s : state) (p : promise) : bool :=
  existsb (Nat.eqb p) (settled s).

Definition set_phase (ph : phase) (c : call) : call :=
  {| prev := prev c; next := next c; phase_of := ph |}.

(** [runExclusive(fn)] up to [await prev] *)
Definition enqueue (s : state) : state :=
  let nxt := allocated s in
  {| queue := nxt;
     allocated := S (allocated s);
     settled := settled s;
     calls := calls s ++ [{| prev := queue s; next := nxt; phase_of := Waiting |}];
     trace := Enqueued (length (calls s)) :: trace s |}.

Definition update_call (s : state) (i : nat) (c : call) (ev : event)
  (settle : list promise) : state :=
  {| queue := queue s;
     allocated := allocated s;
     settled := settle ++ settled s;
     calls := <[i := c]> (calls s);
     trace := ev :: trace s |}.

Inductive step : state -> state -> Prop :=
| Enqueue s :
    step s (enqueue s)
| Begin s i c :
    calls s !! i = Some c ->
    phase_of c = Waiting ->
    is_settled s (prev c) = true ->
    step s (update_call s i (set_phase Running c) (Began i) [])
| Suspend s i c :
    calls s !! i = Some c ->
    phase_of c = Running ->
    step s (update_call s i c (Suspended i) [])
| Finish s i c :
    calls s !! i = Some c ->
    phase_of c = Running ->
    step s (update_call s i (set_phase Done c) (Finished i) [next c]).

Inductive reachable : state -> Prop :=
| reach_init : reachable init
| reach_step s s' : reachable s -> step s s' -> reachable s'.

(** The calls whose body began, resp. that were made, in the order of a
    list of events. *)
Fixpoint began (t : list event) : list nat :=
  match t with
  | [] => []
  | Began c :: t' => c :: began t'
  | _ :: t' => began t'
  end.

Fixpoint enqueued (t : list event) : list nat :=
  match t with
  | [] => []
  | Enqueued c :: t' => c :: enqueued t'
  | _ :: t' => enqueued t'
  end.

(** The events in the order they happened. *)
Definition history (s : state) : list event := rev (trace s).

Definition is_running (s : state) (i : nat) : bool :=
  match calls s !! i with
  | Some c => if phase_of c is Running then true else false
  | None => false
  end.

(** The calls whose body is in progress. *)
Definition running (s : state) : list nat :=
  List.filter (is_running s) (seq 0 (length (calls s))).

(** [save()] then [reload()]: both enqueued, the first begins, suspends at
    its write, finishes, then the second begins. *)
Definition save_call : call := {| prev := 0; next := 1; phase_of := Waiting |}.
Definition reload_call : call := {| prev := 1; next := 2; phase_of := Waiting |}.

Definition both_queued : state := enqueue (enqueue init).
Definition save_running : state :=
  update_call both_queued 0 (set_phase Running save_call) (Began 0) [].
Definition save_writing : state :=
  update_call save_running 0 (set_phase Running save_call) (Suspended 0) [].
Definition save_done : state :=
  update_call save_writing 0 (set_phase Done (set_phase Running save_call))
    (Finished 0) [next (set_phase Running save_call)].
Definition reload_running : state :=
  update_call save_done 1 (set_phase Running reload_call) (Began 1) [].

(** What holds in every state the queue can reach. *)
Record inv (s : state) : Prop := {
  inv_queue : queue s = length (calls s);
  inv_alloc : allocated s = S (length (calls s));
  inv_bound : length (began (trace s)) <= length (calls s);
  inv_links : forall i c, calls s !! i = Some c -> prev c = i /\ next c = S i;
  inv_settled : forall p, In p (settled s) ->
      p = 0 \/ exists i c, p = S i /\ calls s !! i = Some c /\ phase_of c = Done;
  inv_prefix : forall i j ci cj, i < j ->
      calls s !! i = Some ci -> calls s !! j = Some cj ->
      phase_of cj <> Waiting -> phase_of ci = Done;
  inv_finished : forall i c, calls s !! i = Some c -> phase_of c = Done ->
      In (Finished i) (trace s);
  inv_began : began (trace s) = rev (seq 0 (length (began (trace s))));
  inv_started : forall i c, calls s !! i = Some c ->
      (phase_of c <> Waiting <-> i < length (began (trace s)));
  inv_enqueued : enqueued (trace s) = rev (seq 0 (length (calls s)));
  inv_order : forall later j earlier, trace s = later ++ Began j :: earlier ->
      forall i, i < j ->
        In (Finished i) earlier
        /\ ~ In (Began i) later /\ ~ In (Suspended i) later /\ ~ In (Finished i) later
}.

End AsyncMutex.

(* ===================================================================== *)
(** * [DependencyResolver] *)
(* ===================================================================== *)

(** [dependency-resolver.js].  A resolver holds a reference to a
    [JSONStore] in [#idMap]: its methods run over that store, which is the
    state here.  [environment] and [category] are strings, as the signature
    of the constructor declares them; the constructor does not check. *)
Module DependencyResolver.
Import Runtime Eff Store.
Local Open Scope eff_scope.
Local Open Scope nat_scope.

(** [s.trim() === ""]: every code point of [s] is white space or a line
    terminator (ECMA-262 12.2, 12.3), read off the UTF-8 encoding. *)
Definition blank1 (a : nat) : bool :=
  (a =? 9) || (a =? 10) || (a =? 11) || (a =? 12) || (a =? 13) || (a =? 32).

(** U+00A0 *)
Definition blank2 (a b : nat) : bool := (a =? 194) && (b =? 160).

(** U+1680, U+2000 to U+200A, U+2028, U+2029, U+202F, U+205F, U+3000, U+FEFF *)
Definition blank3 (a b c : nat) : bool :=
  (a =? 225) && (b =? 154) && (c =? 128)
  || (a =? 226) && (b =? 128)
     && ((128 <=? c) && (c <=? 138) || (c =? 168) || (c =? 169) || (c =? 175))
  || (a =? 226) && (b =? 129) && (c =? 159)
  || (a =? 227) && (b =? 128) && (c =? 128)
  || (a =? 239) && (b =? 187) && (c =? 191).

Fixpoint blank (s : string) : bool :=
  match s with
  | EmptyString => true
  | String a s1 =>
      if blank1 (nat_of_ascii a) then blank s1
      else
        match s1 with
        | EmptyString => false
        | String b s2 =>
            if blank2 (nat_of_ascii a) (nat_of_ascii b) then blank s2
            else
              match s2 with
              | EmptyString => false
              | String c s3 =>
                  if blank3 (nat_of_ascii a) (nat_of_ascii b) (nat_of_ascii c)
                  then blank s3
                  else false
              end
        end
  end.

(** [validateNonEmptyString(value, name)] *)
Definition validateNonEmptyString (v : value) (name : string) : result string :=
  match v with
  | VStr s =>
      if blank s then Throw (type_error (name +:+ " must be a non-empty string"))
      else Ok s
  | _ => Throw (type_error (name +:+ " must be a non-empty string"))
  end.

Record resolver := {
  environment : string;
  category : string;
  scopedTypes : gset string
}.

Definition DEFAULT_SCOPED_TYPES : gset string := {[ "inventories"; "credentials" ]}.

(** [new DependencyResolver(idMap, environment, category, { scopedTypes })];
    a given list of types, the empty one too, replaces the default set. *)
Definition new (env cat : string) (scoped : option (list string)) : resolver :=
  {| environment := env; category := cat;
     scopedTypes := match scoped with
                    | Some types => list_to_set types
                    | None => DEFAULT_SCOPED_TYPES
                    end |}.

(** [#isScoped(type)] *)
Definition isScoped (r : resolver) (type : string) : bool :=
  bool_decide (type ∈ scopedTypes r).

(** [typeof x === "string" ? x : null] *)
Definition string_or_null (x : value) : option string :=
  match x with
  | VStr s => Some s
  | _ => None
  end.

(** [#resolve(type, oldId)]; [None] is [null] *)
Definition resolve (r : resolver) (type oldId : string) : M store (option string) :=
  scoped <-
    (if isScoped r type then
       scopedValue <-
         JSONStore.getPath [VStr type; VStr oldId; VStr (category r); VStr (environment r)] ;;
       ret (string_or_null scopedValue)
     else ret None) ;;
  match scoped with
  | Some newId => ret (Some newId)
  | None =>
      simpleValue <- JSONStore.getPath [VStr type; VStr oldId] ;;
      ret (string_or_null simpleValue)
  end.

Definition quoted (s : string) : string :=
  String JSON.dquote (s +:+ String JSON.dquote EmptyString).

Definition not_found (r : resolver) (type oldId : string) : error :=
  Error ("Dependency not found: " +:+ type +:+ " " +:+ quoted oldId
         +:+ " for environment " +:+ quoted (environment r)
         +:+ " and category " +:+ quoted (category r)
         +:+ " must be migrated first").

(** [require(type, oldId)] *)
Definition require (r : resolver) (type oldId : value) : M store string :=
  type <- lift_result (validateNonEmptyString type "type") ;;
  oldId <- lift_result (validateNonEmptyString oldId "oldId") ;;
  newId <- resolve r type oldId ;;
  match newId with
  | None => throw (not_found r type oldId)
  | Some id => ret id
  end.

(** [optional(type, oldId)] *)
Definition optional (r : resolver) (type oldId : value) : M store (option string) :=
  type <- lift_result (validateNonEmptyString type "type") ;;
  match oldId with
  | VNull | VUndef => ret None
  | VStr s => if blank s then ret None else resolve r type s
  | _ => ret None
  end.

(** [has(type, oldId)] *)
Definition has (r : resolver) (type oldId : value) : M store bool :=
  type <- lift_result (validateNonEmptyString type "type") ;;
  oldId <- lift_result (validateNonEmptyString oldId "oldId") ;;
  newId <- resolve r type oldId ;;
  ret (if newId is Some _ then true else false).

(** The path [record] writes. *)
Definition record_keys (r : resolver) (type oldId : string) : list value :=
  if isScoped r type
  then [VStr type; VStr oldId; VStr (category r); VStr (environment r)]
  else [VStr type; VStr oldId].

(** [record(type, oldId, newId)] *)
Definition record (r : resolver) (e : Fs.env) (type oldId newId : value)
  : M (store * Fs.fs) unit :=
  type <- lift_result (validateNonEmptyString type "type") ;;
  oldId <- lift_result (validateNonEmptyString oldId "oldId") ;;
  newId <- lift_result (validateNonEmptyString newId "newId") ;;
  JSONStore.setPathAndSave e (record_keys r type oldId) (VStr newId).

End DependencyResolver.

(* ===================================================================== *)
(** * Transform utilities *)
(* ===================================================================== *)

(** [transform-utils.js], on plain objects: an object is the list of its own
    properties in enumeration order, every key once.  The functions that
    change their argument in place return it as they leave it. *)
(** The helpers on plain objects, as their own properties in enumeration
    order.  [obj[key] = x] is [obj_set]: it creates or replaces an own
    property.  That is what the runtime does for every key but [__proto__]
    on an object that has no own property of that name, where the accessor
    of [Object.prototype] runs instead; the statements leave that case out. *)
Module TransformUtils.
Import Runtime.

(** [delete o[k]] *)
Fixpoint obj_delete {A} (l : list (string * A)) (k : string) : list (string * A) :=
  match l with
  | [] => []
  | (k', a) :: l' => if String.eqb k' k then l' else (k', a) :: obj_delete l' k
  end.

(** [Object.hasOwn(o, k)] *)
Definition hasOwn {A} (l : list (string * A)) (k : string) : bool :=
  match assoc_get l k with
  | Some _ => true
  | None => false
  end.

(** [o[k]] *)
Definition read (l : list (string * value)) (k : string) : value :=
  default VUndef (assoc_get l k).

(** [removeKeys(obj, ...keys)] *)
Definition removeKeys (obj : list (string * value)) (keys : list string)
  : list (string * value) :=
  fold_left (fun o key => obj_delete o key) keys obj.

(** [renameKey(obj, oldKey, newKey)] *)
Definition renameKey (obj : list (string * value)) (oldKey newKey : string)
  : list (string * value) :=
  if String.eqb oldKey newKey || negb (hasOwn obj oldKey) then obj
  else obj_delete (obj_set obj newKey (read obj oldKey)) oldKey.

(** [addDefaults(obj, defaults)] *)
Definition addDefaults (obj defaults : list (string * value)) : list (string * value) :=
  fold_left
    (fun o key => if negb (hasOwn o key) then obj_set o key (read defaults key) else o)
    (map fst defaults) obj.

(** [pick(obj, ...keys)] *)
Definition pick (obj : list (string * value)) (keys : list string)
  : list (string * value) :=
  fold_left
    (fun result key => if hasOwn obj key then obj_set result key (read obj key) else result)
    keys [].

(** [omit(obj, ...keys)] *)
Definition omit (obj : list (string * value)) (keys : list string)
  : list (string * value) :=
  let keysToOmit : gset string := list_to_set keys in
  fold_left
    (fun result key =>
       if negb (bool_decide (key ∈ keysToOmit)) then obj_set result key (read obj key)
       else result)
    (map fst obj) [].

End TransformUtils.

(* ===================================================================== *)
(** * Notions used in the statements *)
(* ===================================================================== *)

Module Notions.
Import Runtime Eff Store.

(** The error with which the steps after [open] fail, if they do.  [close]
    runs in a [finally] block, so its error is the one that reaches the
    [catch] when it fails; otherwise it is the error of the first failing
    step among serialising, [writeFile], [sync] and [rename]. *)
Definition failure_after_open (e : Fs.env) (d : value) : option error :=
  match Fs.fail_close e with
  | Some closeErr => Some closeErr
  | None =>
      match text_of d with
      | Throw textErr => Some textErr
      | Ok _ =>
          match Fs.fail_writeFile e with
          | Some writeErr => Some writeErr
          | None =>
              match Fs.fail_sync e with
              | Some syncErr => Some syncErr
              | None => Fs.fail_rename e
              end
          end
      end
  end.

(** The same environment with another outcome for [unlink]. *)
Definition with_unlink (e : Fs.env) (u : option error) : Fs.env :=
  {| Fs.uuid := Fs.uuid e; Fs.fail_access := Fs.fail_access e;
     Fs.fail_readFile := Fs.fail_readFile e; Fs.fail_open := Fs.fail_open e;
     Fs.fail_writeFile := Fs.fail_writeFile e; Fs.written := Fs.written e;
     Fs.fail_sync := Fs.fail_sync e; Fs.fail_close := Fs.fail_close e;
     Fs.fail_rename := Fs.fail_rename e; Fs.fail_unlink := u |}.

(** A value [structuredClone] accepts. *)
Definition cloneable (v : value) : Prop := exists c, structuredClone v = Ok c.

(** No symbol anywhere in the value. *)
Fixpoint symbol_free (v : value) : bool :=
  let fix elems (l : list value) : bool :=
    match l with
    | [] => true
    | x :: l' => symbol_free x && elems l'
    end in
  let fix fields (l : list (string * value)) : bool :=
    match l with
    | [] => true
    | (_, x) :: l' => symbol_free x && fields l'
    end in
  match v with
  | VSym => false
  | VArr es ex => elems es && fields ex
  | VObj ps => fields ps
  | _ => true
  end.

(** The same, over the elements and over the properties of a container. *)
Definition elems_free (l : list value) : bool := forallb symbol_free l.
Definition fields_free (l : list (string * value)) : bool :=
  forallb (fun kv => symbol_free (snd kv)) l.

(** ** JSON documents

    The values [JSON.parse] builds and [JSON.stringify] renders without
    loss: no [undefined], no symbol, no non-finite number, integers a double
    holds exactly, arrays without named properties, and objects whose
    properties are in the order the runtime keeps (array indices first, in
    ascending order, then the other keys, each once). *)

Definition safe_integer (z : Z) : bool :=
  ((- JSON.max_safe_integer <=? z) && (z <=? JSON.max_safe_integer))%Z.

Fixpoint names_only (ks : list string) : bool :=
  match ks with
  | [] => true
  | k :: ks' =>
      match array_index k with
      | Some _ => false
      | None => negb (existsb (String.eqb k) ks') && names_only ks'
      end
  end.

Fixpoint ordered_from (lo : option N) (ks : list string) : bool :=
  match ks with
  | [] => true
  | k :: ks' =>
      match array_index k with
      | Some i =>
          match lo with Some l => (l <? i)%N | None => true end
          && ordered_from (Some i) ks'
      | None => names_only ks
      end
  end.

Fixpoint json_document (v : value) : bool :=
  let fix elems (l : list value) : bool :=
    match l with
    | [] => true
    | x :: l' => json_document x && elems l'
    end in
  let fix fields (l : list (string * value)) : bool :=
    match l with
    | [] => true
    | (_, x) :: l' => json_document x && fields l'
    end in
  match v with
  | VNull | VBool _ | VStr _ => true
  | VNum (Fin z) => safe_integer z
  | VArr es ex => elems es && match ex with [] => true | _ :: _ => false end
  | VObj ps => fields ps && ordered_from None (map fst ps)
  | _ => false
  end.

(** What reading a value back costs in fuel. *)
Fixpoint cost (v : value) : nat :=
  let fix elems (l : list value) : nat :=
    match l with
    | [] => O
    | x :: l' => S (cost x + elems l')
    end in
  let fix fields (l : list (string * value)) : nat :=
    match l with
    | [] => O
    | (_, x) :: l' => S (cost x + fields l')
    end in
  match v with
  | VArr es _ => S (elems es)
  | VObj ps => S (fields ps)
  | _ => 1%nat
  end.

Definition cost_elems (es : list value) : nat :=
  list_sum (map (fun x => S (cost x)) es).
Definition cost_fields (ps : list (string * value)) : nat :=
  list_sum (map (fun kv => S (cost (snd kv))) ps).

(** The texts of the elements of an array and of the members of an object,
    as [SerializeJSONArray] and [SerializeJSONObject] collect them. *)
Definition element_texts (inner : string) (es : list value) : list string :=
  map (fun x => default "null" (JSON.serialize inner x)) es.

Fixpoint member_texts (inner : string) (ps : list (string * value)) : list string :=
  match ps with
  | [] => []
  | (k, x) :: ps' =>
      match JSON.serialize inner x with
      | Some s => (JSON.quote k +:+ ": " +:+ s) :: member_texts inner ps'
      | None => member_texts inner ps'
      end
  end.

Definition sum_len (l : list string) : nat :=
  list_sum (map (fun t => S (String.length t)) l).

(** What follows a value in a JSON text: nothing, a comma, or a new line. *)
Definition delimited (rest : string) : Prop :=
  match rest with
  | EmptyString => True
  | String c _ => c = ","%char \/ c = ascii_of_nat 10
  end.

Fixpoint spaces_only (s : string) : bool :=
  match s with
  | EmptyString => true
  | String c s' => Ascii.eqb c " " && spaces_only s'
  end.

(** The decimal digits of a number as text. *)
Definition digits_of (d : Decimal.uint) : string := NilEmpty.string_of_uint d.

(** A document reads back when, at any indentation and whatever follows,
    the parser gets it from its text, given fuel for its size. *)
Definition reads_back (v : value) : Prop :=
  json_document v = true ->
  forall indent fuel rest,
    spaces_only indent = true -> (cost v <= fuel)%nat -> delimited rest ->
    exists text, JSON.serialize indent v = Some text
                 /\ JSON.parse_value fuel (text +:+ rest) = Ok (v, rest).

Definition newline : ascii := ascii_of_nat 10.

(** The document an updater asks for, from the current one. *)
Definition next_document (u : updater) (current : value) : result value :=
  match u with
  | Partial p => Ok (spread current p)
  | Mutator f => rbind (structuredClone current) f
  end.

(** A validated key as the value the caller passed. *)
Definition key_value (k : JSONStore.key) : value :=
  match k with
  | JSONStore.KStr s => VStr s
  | JSONStore.KNum z => VNum (Fin z)
  end.


(** The keys of the path address own properties, under the names
    [prop_name] gives them: no string among them is a name that an object
    or an array inherits, and every number is an integer within 2^53, which
    the runtime turns into its decimal digits.  Along such a path a
    property that is not stored is missing, and an assignment creates or
    replaces a stored property. *)
Definition own_keys (ks : list JSONStore.key) : bool :=
  forallb
    (fun k =>
       match k with
       | JSONStore.KStr s => negb (inherited s)
       | JSONStore.KNum z => safe_integer z
       end) ks.

(** The same for a document that holds no array, and for objects that are
    new: only the names an object inherits matter. *)
Definition own_names (ks : list JSONStore.key) : bool :=
  forallb
    (fun k =>
       match k with
       | JSONStore.KStr s => negb (inherited_by_object s)
       | JSONStore.KNum z => safe_integer z
       end) ks.

(** The path ends in [length]: on an array the assignment then sets the
    length, which [set_prop] describes for a number only. *)
Definition ends_in_length (ks : list JSONStore.key) : bool :=
  String.eqb (List.last (map JSONStore.prop_name ks) EmptyString) "length".


(** A key [#validateKeys] lets through: any string, any finite number. *)
Definition accepted (k : value) : Prop :=
  match k with
  | VStr _ => True
  | VNum (Fin _) => True
  | _ => False
  end.

(** A key as the specification describes it, read generously: a string
    that is not empty, or a finite number. *)
Definition nonempty_key (k : value) : Prop :=
  match k with
  | VStr s => s <> ""
  | VNum (Fin _) => True
  | _ => False
  end.

(** The error [#validateKeys] throws for the key [k] found at index [i]. *)
Definition invalid_key (i : nat) (k : value) : error :=
  match k with
  | VNum n =>
      Error ("Invalid key at index " +:+ string_of_nat i
             +:+ ": numbers must be finite (got " +:+ string_of_number n +:+ ")")
  | _ =>
      Error ("Invalid key at index " +:+ string_of_nat i
             +:+ ": expected string or number, got " +:+ typeof k)
  end.

End Notions.

(* ===================================================================== *)
(** * Sample stores, disks and environments *)
(* ===================================================================== *)

Module Samples.
Import Runtime Store.

(** An environment whose [writeFile] fails after three bytes and whose
    [unlink] fails too. *)
Definition failing_write : Fs.env :=
  {| Fs.uuid := "0b5e"; Fs.fail_access := None; Fs.fail_readFile := None;
     Fs.fail_open := None;
     Fs.fail_writeFile := Some (SystemError "ENOSPC" "no space left on device");
     Fs.written := 3; Fs.fail_sync := None; Fs.fail_close := None;
     Fs.fail_rename := None;
     Fs.fail_unlink := Some (SystemError "EPERM" "operation not permitted") |}.

Definition old_disk : Fs.fs :=
  {| Fs.files := {[ "/data/ids.json" := "{}" ]}; Fs.dirs := {[ "/data" ]} |}.

(** A document holding a symbol, as [update({ tag: Symbol() })] leaves it. *)
Definition tagged_store : store :=
  {| filePath := "/data/ids.json"; data := VObj [("tag", VSym)];
     initialized := true; dirty := true; defaultFactory := fun _ => VObj [] |}.

Definition data_disk : Fs.fs :=
  {| Fs.files := ∅; Fs.dirs := {[ "/data" ]} |}.

(** An initialized store with unsaved changes. *)
Definition ids_store : store :=
  {| filePath := "/data/ids.json";
     data := VObj [("projects", VObj [("P-1", VStr "N-7")]); ("count", VNum (Fin 1))];
     initialized := true; dirty := true; defaultFactory := fun _ => VObj [] |}.

(** An initialized store with the given document. *)
Definition store_of (d : value) : store :=
  {| filePath := "/data/ids.json"; data := d; initialized := true; dirty := false;
     defaultFactory := fun _ => VObj [] |}.

End Samples.

(* ===================================================================== *)
(** * [MigrationLogger] *)
(* ===================================================================== *)

(** [logger.js].  The three private lists and what [console.log] has
    printed are the state; an entry is a record, after the [typedef]s of the
    source, with [details] absent when the caller gave none.  [now] is what
    [new Date().toISOString()] returns during the call.  The arguments are
    strings, as the signatures declare them. *)
Module MigrationLogger.
Import Runtime.

Record MigratedEntry := {
  m_type : string;
  m_oldId : string;
  m_newId : string;
  m_details : option value;
  m_timestamp : string
}.

Record SkippedEntry := {
  s_type : string;
  s_oldId : string;
  s_reason : string;
  s_timestamp : string
}.

Record FailedEntry := {
  f_type : string;
  f_oldId : string;
  f_error : string;
  f_timestamp : string
}.

Record logger := {
  migrated_list : list MigratedEntry;
  skipped_list : list SkippedEntry;
  failed_list : list FailedEntry;
  console : list string
}.

(** [new MigrationLogger()], with nothing printed yet *)
Definition new : logger :=
  {| migrated_list := []; skipped_list := []; failed_list := []; console := [] |}.

(** [console.log(line)] *)
Definition console_log (line : string) (l : logger) : logger :=
  {| migrated_list := migrated_list l; skipped_list := skipped_list l;
     failed_list := failed_list l; console := console l ++ [line] |}.

(** [migrated(type, oldId, newId, details)] *)
Definition migrated (now type oldId newId : string) (details : value) (l : logger)
  : logger :=
  let entry :=
    {| m_type := type; m_oldId := oldId; m_newId := newId;
       m_details := (if details is VUndef then None else Some details);
       m_timestamp := now |} in
  console_log ("✓ " +:+ type +:+ " " +:+ oldId +:+ " → " +:+ newId)
    {| migrated_list := migrated_list l ++ [entry]; skipped_list := skipped_list l;
       failed_list := failed_list l; console := console l |}.

(** [skipped(type, oldId, reason)] *)
Definition skipped (now type oldId reason : string) (l : logger) : logger :=
  let entry :=
    {| s_type := type; s_oldId := oldId; s_reason := reason; s_timestamp := now |} in
  console_log ("⊘ " +:+ type +:+ " " +:+ oldId +:+ " skipped: " +:+ reason)
    {| migrated_list := migrated_list l; skipped_list := skipped_list l ++ [entry];
       failed_list := failed_list l; console := console l |}.

(** [failed(type, oldId, error)]: the message of an [Error], or the string *)
Definition failed (now type oldId : string) (error : Runtime.error + string) (l : logger)
  : logger :=
  let errorMessage :=
    match error with
    | inl err => message_of err
    | inr text => text
    end in
  let entry :=
    {| f_type := type; f_oldId := oldId; f_error := errorMessage; f_timestamp := now |} in
  console_log ("✗ " +:+ type +:+ " " +:+ oldId +:+ " failed: " +:+ errorMessage)
    {| migrated_list := migrated_list l; skipped_list := skipped_list l;
       failed_list := failed_list l ++ [entry]; console := console l |}.

Record counts := {
  n_migrated : nat;
  n_skipped : nat;
  n_failed : nat;
  n_total : nat
}.

(** [getCounts()] *)
Definition getCounts (l : logger) : counts :=
  {| n_migrated := length (migrated_list l);
     n_skipped := length (skipped_list l);
     n_failed := length (failed_list l);
     n_total := length (migrated_list l) + length (skipped_list l)
                + length (failed_list l) |}.

(** [toJSON()] *)
Definition toJSON (l : logger)
  : list MigratedEntry * list SkippedEntry * list FailedEntry :=
  (migrated_list l, skipped_list l, failed_list l).

(** [getByType(type)] *)
Definition getByType (type : string) (l : logger)
  : list MigratedEntry * list SkippedEntry * list FailedEntry :=
  (List.filter (fun e => String.eqb (m_type e) type) (migrated_list l),
   List.filter (fun e => String.eqb (s_type e) type) (skipped_list l),
   List.filter (fun e => String.eqb (f_type e) type) (failed_list l)).

(** [hasFailures()] *)
Definition hasFailures (l : logger) : bool := (0 <? length (failed_list l))%nat.




End MigrationLogger.

(* ===================================================================== *)
(** * Shapes of documents and arguments *)
(* ===================================================================== *)

Module Shapes.
Import Runtime Store.

(** No array anywhere in the value: objects and primitives only, as in an
    id map that [record] has built. *)
Fixpoint no_arrays (v : value) : bool :=
  let fix fields (l : list (string * value)) : bool :=
    match l with
    | [] => true
    | (_, x) :: l' => no_arrays x && fields l'
    end in
  match v with
  | VArr _ _ => false
  | VObj ps => fields ps
  | _ => true
  end.

Definition fields_plain (l : list (string * value)) : bool :=
  forallb (fun kv => no_arrays (snd kv)) l.

(** A document that [JSON.stringify] and [JSON.parse] give back unchanged
    and that holds no array. *)
Definition storable (v : value) : Prop :=
  Notions.json_document v = true /\ no_arrays v = true.

(** The string in an argument that [validateNonEmptyString] accepts. *)
Definition nonblank (v : value) : option string :=
  match v with
  | VStr s => if DependencyResolver.blank s then None else Some s
  | _ => None
  end.

(** The white space of ASCII, and its visible characters. *)
Definition ascii_space (c : ascii) : bool :=
  DependencyResolver.blank1 (nat_of_ascii c).

Definition visible (c : ascii) : bool :=
  let n := nat_of_ascii c in (33 <=? n)%nat && (n <=? 126)%nat.

Definition must_be_string (name : string) : error :=
  type_error (name +:+ " must be a non-empty string").

(** The properties that stay when the keys [keys] are taken away. *)
Definition kept (keys : list string) (kv : string * value) : bool :=
  negb (bool_decide (fst kv ∈ keys)).

(** The new id a document holds at a path: the string there, if there is
    one. *)
Definition mapping (d : value) (keys : list JSONStore.key) : option string :=
  match JSONStore.walk d keys with
  | Ok (VStr id) => Some id
  | _ => None
  end.

Definition simple_keys (type oldId : string) : list JSONStore.key :=
  [JSONStore.KStr type; JSONStore.KStr oldId].

Definition scoped_keys (r : DependencyResolver.resolver) (type oldId : string)
  : list JSONStore.key :=
  [JSONStore.KStr type; JSONStore.KStr oldId;
   JSONStore.KStr (DependencyResolver.category r);
   JSONStore.KStr (DependencyResolver.environment r)].

(** The keys under which a resolver stores a mapping, and looks first. *)
Definition path_of (r : DependencyResolver.resolver) (type oldId : string)
  : list JSONStore.key :=
  if DependencyResolver.isScoped r type then scoped_keys r type oldId
  else simple_keys type oldId.

(** What a resolver finds in a document: the scoped mapping if the type is
    scoped and there is one, else the simple mapping. *)
Definition found (r : DependencyResolver.resolver) (d : value) (type oldId : string)
  : option string :=
  match (if DependencyResolver.isScoped r type
         then mapping d (scoped_keys r type oldId) else None) with
  | Some id => Some id
  | None => mapping d (simple_keys type oldId)
  end.

(** One call of a logging method, with the time it was made at. *)
Inductive log_call :=
| LogMigrated (now type oldId newId : string) (details : value)
| LogSkipped (now type oldId reason : string)
| LogFailed (now type oldId : string) (error : Runtime.error + string).

Definition call_type (c : log_call) : string :=
  match c with
  | LogMigrated _ type _ _ _ => type
  | LogSkipped _ type _ _ => type
  | LogFailed _ type _ _ => type
  end.

Definition make (c : log_call) (l : MigrationLogger.logger) : MigrationLogger.logger :=
  match c with
  | LogMigrated now type oldId newId details =>
      MigrationLogger.migrated now type oldId newId details l
  | LogSkipped now type oldId reason => MigrationLogger.skipped now type oldId reason l
  | LogFailed now type oldId error => MigrationLogger.failed now type oldId error l
  end.

(** The calls made one after the other, the first first. *)
Definition make_all (cs : list log_call) (l : MigrationLogger.logger)
  : MigrationLogger.logger :=
  fold_left (fun acc c => make c acc) cs l.

Definition is_failure (c : log_call) : bool :=
  match c with
  | LogFailed _ _ _ _ => true
  | _ => false
  end.

(** The entries a list of calls asks for, kind by kind, in call order. *)
Definition migrated_of (cs : list log_call) : list MigrationLogger.MigratedEntry :=
  flat_map
    (fun c =>
       match c with
       | LogMigrated now type oldId newId details =>
           [{| MigrationLogger.m_type := type; MigrationLogger.m_oldId := oldId;
               MigrationLogger.m_newId := newId;
               MigrationLogger.m_details :=
                 (if details is VUndef then None else Some details);
               MigrationLogger.m_timestamp := now |}]
       | _ => []
       end) cs.

Definition skipped_of (cs : list log_call) : list MigrationLogger.SkippedEntry :=
  flat_map
    (fun c =>
       match c with
       | LogSkipped now type oldId reason =>
           [{| MigrationLogger.s_type := type; MigrationLogger.s_oldId := oldId;
               MigrationLogger.s_reason := reason; MigrationLogger.s_timestamp := now |}]
       | _ => []
       end) cs.

Definition failed_of (cs : list log_call) : list MigrationLogger.FailedEntry :=
  flat_map
    (fun c =>
       match c with
       | LogFailed now type oldId error =>
           [{| MigrationLogger.f_type := type; MigrationLogger.f_oldId := oldId;
               MigrationLogger.f_error :=
                 match error with inl err => message_of err | inr text => text end;
               MigrationLogger.f_timestamp := now |}]
       | _ => []
       end) cs.

(** An id map with a scoped and a simple mapping, and resolvers for two
    environments. *)
Definition id_map : store :=
  {| filePath := "/data/ids.json";
     data := VObj [("inventories",
                    VObj [("7", VObj [("standard", VObj [("prod", VStr "41")])])]);
                   ("projects", VObj [("3", VStr "12")])];
     initialized := true; dirty := false; defaultFactory := fun _ => VObj [] |}.

Definition prod : DependencyResolver.resolver :=
  DependencyResolver.new "prod" "standard" None.
Definition staging : DependencyResolver.resolver :=
  DependencyResolver.new "staging" "standard" None.

End Shapes.

(* ===================================================================== *)
(** * Verification *)
(* ===================================================================== *)

Ltac eff_unfold :=
  unfold Eff.bind, Eff.ret, Eff.throw, Eff.try_catch, Eff.try_finally,
    Eff.attempt, Eff.gets, Eff.modify, Eff.lift_result, Eff.on_fst, Eff.on_snd,
    Store.runExclusive in *.

Module FsFacts.
Import Runtime Eff Store Notions.

Lemma append_length (a b : string) :
  String.length (a +:+ b) = (String.length a + String.length b)%nat.
Proof. induction a; simpl; auto. Qed.

(** The temporary file is never the target. *)
Lemma tmp_path_fresh path token : tmp_path path token <> path.
Proof.
  unfold tmp_path. intros H. apply (f_equal String.length) in H.
  rewrite !append_length in H. simpl in H. lia.
Qed.

Lemma data_dir_exists : Fs.dirname "/data/ids.json" ∈ Fs.dirs Samples.data_disk.
Proof. change ("/data" ∈ ({[ "/data" ]} : gset string)). set_solver. Qed.

End FsFacts.

Module AtomicWrite.
Import Runtime Eff Store Notions Samples FsFacts.

(** C2.  When [open] has created the temporary file and a later step of the
    protocol fails (serialising or [writeFile], [sync], [close], [rename]),
    [#writeAtomic] rejects with the error of that step, whatever [unlink]
    does: a failing [unlink] is swallowed.  The target keeps its content (or
    stays absent), no other file and no directory changes, and when [unlink]
    does not fail the temporary file is gone.  The reported error is the one
    of [close] when [close] fails, and of the first failing step otherwise. *)
Theorem writeAtomic_failure (e : Fs.env) (path : string) (d : value) (w : Fs.fs)
  (err : error) :
  Fs.fail_open e = None ->
  failure_after_open e d = Some err ->
  let tmp := tmp_path path (Fs.uuid e) in
  let w' := fst (JSONStore.writeAtomic e path d w) in
  snd (JSONStore.writeAtomic e path d w) = Throw err
  /\ (forall u, snd (JSONStore.writeAtomic (with_unlink e u) path d w) = Throw err)
  /\ Fs.files w' !! path = Fs.files w !! path
  /\ Fs.dirs w' = Fs.dirs w
  /\ (forall other, other <> tmp -> Fs.files w' !! other = Fs.files w !! other)
  /\ (Fs.fail_unlink e = None -> Fs.files w' !! tmp = None).
Proof.
  intros Hopen Hfail tmp w'.
  assert (Hne : tmp <> path) by apply tmp_path_fresh.
  subst w'. fold tmp.
  unfold JSONStore.writeAtomic, failure_after_open in *. fold tmp.
  unfold Fs.open, Fs.writeFile, Fs.sync, Fs.close, Fs.rename, Fs.unlink, Fs.inject.
  destruct e as [tok fa fr fo fw wr fs fc fn fu]; simpl in *. subst fo.
  eff_unfold; simpl.
  destruct fc as [ec|], (text_of d) as [text|et], fw as [ew|], fs as [es|],
    fn as [en|], fu as [eu|]; simpl in *; simplify_eq; simpl;
    repeat (rewrite ?lookup_insert_eq, ?lookup_delete_eq; simpl);
    repeat split; intros;
    try match goal with u : option error |- _ => destruct u end; simpl;
    repeat (first [ rewrite lookup_delete_ne by congruence
                  | rewrite lookup_insert_ne by congruence
                  | rewrite lookup_insert_eq | rewrite lookup_delete_eq ]; simpl);
    try congruence; try reflexivity.
Qed.

Lemma writeAtomic_failure_witness :
  snd (JSONStore.writeAtomic failing_write "/data/ids.json"
         (VObj [("a", VNum (Fin 1))]) old_disk)
  = Throw (SystemError "ENOSPC" "no space left on device")
  /\ Fs.files (fst (JSONStore.writeAtomic failing_write "/data/ids.json"
                      (VObj [("a", VNum (Fin 1))]) old_disk)) !! "/data/ids.json"
     = Some "{}".
Proof.
  destruct (writeAtomic_failure failing_write "/data/ids.json"
              (VObj [("a", VNum (Fin 1))]) old_disk
              (SystemError "ENOSPC" "no space left on device")
              eq_refl eq_refl) as (H1 & _ & H3 & _).
  split; [exact H1 | rewrite H3; reflexivity].
Defined.

End AtomicWrite.

Module Clone.
Import Runtime Notions.

Lemma structuredClone_eq (v c : value) : structuredClone v = Ok c -> c = v.
Proof.
  revert c. induction v using value_ind; intros c Hc; simpl in Hc;
    try (inversion Hc; reflexivity); try discriminate.
  - (* arrays *)
    match type of Hc with
    | rbind (?F es) _ = _ =>
        assert (He : forall es', F es = Ok es' -> es' = es)
    end.
    { clear Hc. induction H as [|x l Hx Hl IH]; intros es' Hes; simpl in Hes.
      - inversion Hes; reflexivity.
      - destruct (structuredClone x) as [x'|] eqn:Ex; simpl in Hes; [|discriminate].
        match type of Hes with
        | rbind ?R _ = _ => destruct R as [l'|] eqn:El; simpl in Hes; [|discriminate]
        end.
        inversion Hes; subst. f_equal; auto. }
    match type of Hc with
    | rbind _ (fun es' => rbind (?G ex) _) = _ =>
        assert (Hx : forall ex', G ex = Ok ex' -> ex' = ex)
    end.
    { clear Hc He. induction H0 as [|[k x] l Hx Hl IH]; intros ex' Hex; simpl in Hex.
      - inversion Hex; reflexivity.
      - simpl in Hx.
        destruct (structuredClone x) as [x'|] eqn:Ex; simpl in Hex; [|discriminate].
        match type of Hex with
        | rbind ?R _ = _ => destruct R as [l'|] eqn:El; simpl in Hex; [|discriminate]
        end.
        inversion Hex; subst. f_equal; [f_equal|]; auto. }
    match type of Hc with
    | rbind ?R _ = _ => destruct R as [es'|] eqn:E1; simpl in Hc; [|discriminate]
    end.
    match type of Hc with
    | rbind ?R _ = _ => destruct R as [ex'|] eqn:E2; simpl in Hc; [|discriminate]
    end.
    inversion Hc; subst. f_equal; auto.
  - (* objects *)
    match type of Hc with
    | rbind (?G ps) _ = _ =>
        assert (Hx : forall ps', G ps = Ok ps' -> ps' = ps)
    end.
    { clear Hc. induction H as [|[k x] l Hx Hl IH]; intros ps' Hps; simpl in Hps.
      - inversion Hps; reflexivity.
      - simpl in Hx.
        destruct (structuredClone x) as [x'|] eqn:Ex; simpl in Hps; [|discriminate].
        match type of Hps with
        | rbind ?R _ = _ => destruct R as [l'|] eqn:El; simpl in Hps; [|discriminate]
        end.
        inversion Hps; subst. f_equal; [f_equal|]; auto. }
    match type of Hc with
    | rbind ?R _ = _ => destruct R as [ps'|] eqn:E1; simpl in Hc; [|discriminate]
    end.
    inversion Hc; subst. f_equal; auto.
Qed.

Lemma symbol_free_arr (es : list value) (ex : list (string * value)) :
  symbol_free (VArr es ex) = elems_free es && fields_free ex.
Proof.
  simpl.
  match goal with
  | |- ?F es && ?G ex = _ =>
      assert (He : forall l, F l = elems_free l);
      [ | assert (Hx : forall l, G l = fields_free l) ]
  end.
  - induction l as [|x l IH]; simpl; [reflexivity|]. rewrite IH. reflexivity.
  - induction l as [|[k x] l IH]; simpl; [reflexivity|]. rewrite IH. reflexivity.
  - rewrite He, Hx. reflexivity.
Qed.

Lemma symbol_free_obj (ps : list (string * value)) :
  symbol_free (VObj ps) = fields_free ps.
Proof.
  simpl.
  match goal with
  | |- ?G ps = _ => assert (Hx : forall l, G l = fields_free l)
  end.
  - induction l as [|[k x] l IH]; simpl; [reflexivity|]. rewrite IH. reflexivity.
  - apply Hx.
Qed.

Lemma structuredClone_arr (es : list value) (ex : list (string * value)) :
  Forall (fun x => structuredClone x = Ok x) es ->
  Forall (fun kv => structuredClone (snd kv) = Ok (snd kv)) ex ->
  structuredClone (VArr es ex) = Ok (VArr es ex).
Proof.
  intros Hes Hex. simpl.
  match goal with
  | |- rbind (?F es) _ = _ => assert (He : F es = Ok es)
  end.
  { induction Hes as [|x l Hx _ IH]; simpl; [reflexivity|].
    rewrite Hx. simpl. rewrite IH. reflexivity. }
  rewrite He. simpl.
  match goal with
  | |- rbind (?G ex) _ = _ => assert (Hx : G ex = Ok ex)
  end.
  { induction Hex as [|[k x] l Hx _ IH]; simpl in *; [reflexivity|].
    rewrite Hx. simpl. rewrite IH. reflexivity. }
  rewrite Hx. reflexivity.
Qed.

Lemma structuredClone_obj (ps : list (string * value)) :
  Forall (fun kv => structuredClone (snd kv) = Ok (snd kv)) ps ->
  structuredClone (VObj ps) = Ok (VObj ps).
Proof.
  intros Hps. simpl.
  match goal with
  | |- rbind (?G ps) _ = _ => assert (Hx : G ps = Ok ps)
  end.
  { induction Hps as [|[k x] l Hx _ IH]; simpl in *; [reflexivity|].
    rewrite Hx. simpl. rewrite IH. reflexivity. }
  rewrite Hx. reflexivity.
Qed.

(** A value without symbols is copied. *)
Lemma symbol_free_clone (v : value) :
  symbol_free v = true -> structuredClone v = Ok v.
Proof.
  induction v as [| | | | | |es ex Hes Hex|ps Hps] using value_ind; intros Hf;
    try reflexivity; try discriminate.
  - rewrite symbol_free_arr in Hf. apply andb_true_iff in Hf as [Hf1 Hf2].
    apply structuredClone_arr.
    + unfold elems_free in Hf1. rewrite forallb_forall in Hf1.
      rewrite List.Forall_forall in *. intros x Hx. apply Hes; auto.
    + unfold fields_free in Hf2. rewrite forallb_forall in Hf2.
      rewrite List.Forall_forall in *. intros x Hx. apply Hex; auto.
  - rewrite symbol_free_obj in Hf. apply structuredClone_obj.
    unfold fields_free in Hf. rewrite forallb_forall in Hf.
    rewrite List.Forall_forall in *. intros x Hx. apply Hps; auto.
Qed.

End Clone.

Module StoreFacts.
Import Runtime Eff Store Notions Samples Clone.

Lemma set_data_same (st : store) (x : value) :
  set_data (data st) (set_data x st) = st.
Proof. destruct st; reflexivity. Qed.

Lemma set_data_id (st : store) : set_data (data st) st = st.
Proof. destruct st; reflexivity. Qed.

(** [updateAndSave] in closed form. *)
Lemma updateAndSave_unfold (e : Fs.env) (u : updater) (st : store) (w : Fs.fs) :
  initialized st = true ->
  JSONStore.updateAndSave e u (st, w) =
  match structuredClone (data st) with
  | Throw err => ((st, w), Throw err)
  | Ok _ =>
      match next_document u (data st) with
      | Throw err => ((st, w), Throw err)
      | Ok d' =>
          match JSONStore.writeAtomic e (filePath st) d' w with
          | (w', Ok _) => ((set_dirty false (set_data d' st), w'), Ok tt)
          | (w', Throw err) => ((st, w'), Throw err)
          end
      end
  end.
Proof.
  intros Hinit.
  unfold JSONStore.updateAndSave, assertInitialized, next_document.
  eff_unfold. simpl. rewrite Hinit. simpl.
  destruct (structuredClone (data st)) as [backup|cerr] eqn:Hb; simpl; [|reflexivity].
  pose proof (structuredClone_eq _ _ Hb) as ->.
  destruct u as [p|f]; simpl.
  - destruct (JSONStore.writeAtomic e (filePath st) (spread (data st) p) w)
      as [w' [[]|werr]]; simpl; rewrite ?set_data_same; reflexivity.
  - rewrite Hb. simpl.
    destruct (f (data st)) as [d1|ferr]; simpl.
    + destruct (JSONStore.writeAtomic e (filePath st) d1 w)
        as [w' [[]|werr]]; simpl; rewrite ?set_data_same; reflexivity.
    + rewrite set_data_id. reflexivity.
Qed.

(** C1.  [updateAndSave] on an initialized store: whenever the call rejects,
    the store is what it was before the call, document and dirty flag
    included; when it resolves, the dirty flag is false.  It rejects, with
    the error raised, when the mutator throws (nothing is written then) and
    when the atomic write of the new document fails. *)
Theorem updateAndSave_rollback (e : Fs.env) (u : updater) (st : store) (w : Fs.fs) :
  initialized st = true ->
  let out := JSONStore.updateAndSave e u (st, w) in
  let st' := fst (fst out) in
  (forall err, snd out = Throw err ->
     data st' = data st /\ dirty st' = dirty st /\ st' = st)
  /\ (snd out = Ok tt -> dirty st' = false)
  /\ (forall f c err,
        u = Mutator f -> structuredClone (data st) = Ok c -> f c = Throw err ->
        out = ((st, w), Throw err))
  /\ (forall d' err,
        cloneable (data st) ->
        next_document u (data st) = Ok d' ->
        snd (JSONStore.writeAtomic e (filePath st) d' w) = Throw err ->
        snd out = Throw err).
Proof.
  intros Hinit out st'. subst st' out.
  rewrite (updateAndSave_unfold e u st w Hinit).
  split; [|split; [|split]].
  - intros err.
    destruct (structuredClone (data st)); simpl in *; [|auto].
    destruct (next_document u (data st)) as [d'|]; simpl in *; [|auto].
    destruct (JSONStore.writeAtomic e (filePath st) d' w) as [w' [[]|werr]];
      simpl in *; [discriminate|auto].
  - destruct (structuredClone (data st)); simpl in *; [|discriminate].
    destruct (next_document u (data st)) as [d'|]; simpl in *; [|discriminate].
    destruct (JSONStore.writeAtomic e (filePath st) d' w) as [w' [[]|werr]];
      simpl in *; [reflexivity|discriminate].
  - intros f c err -> Hc Hf. rewrite Hc. simpl. rewrite Hc. simpl.
    pose proof (structuredClone_eq _ _ Hc) as ->. rewrite Hf. reflexivity.
  - intros d' err [c Hc] Hd Hw. rewrite Hc, Hd.
    destruct (JSONStore.writeAtomic e (filePath st) d' w) as [w' [[]|werr]];
      simpl in *; congruence.
Qed.

Lemma updateAndSave_rollback_witness :
  fst (fst (JSONStore.updateAndSave failing_write (Partial (VObj [("count", VNum (Fin 2))]))
              (ids_store, old_disk)))
  = ids_store.
Proof.
  destruct (updateAndSave_rollback failing_write
              (Partial (VObj [("count", VNum (Fin 2))])) ids_store old_disk eq_refl)
    as (Hfail & _).
  destruct (Hfail (SystemError "ENOSPC" "no space left on device")) as (_ & _ & H).
  - vm_compute. reflexivity.
  - exact H.
Defined.

(** ** Property lists *)

Lemma assoc_get_None_iff {A} (l : list (string * A)) (k : string) :
  assoc_get l k = None <-> ~ In k (map fst l).
Proof.
  induction l as [|[k' a] l IH]; simpl.
  - tauto.
  - destruct (String.eqb_spec k' k) as [->|Hne].
    + split; [discriminate | tauto].
    + rewrite IH. tauto.
Qed.

Lemma assoc_replace_get {A} (l : list (string * A)) (k k' : string) (a : A) :
  assoc_get (assoc_replace l k a) k' =
  if String.eqb k k'
  then match assoc_get l k with Some _ => Some a | None => None end
  else assoc_get l k'.
Proof.
  induction l as [|[k0 a0] l IH]; simpl.
  - destruct (String.eqb k k'); reflexivity.
  - destruct (String.eqb_spec k0 k) as [->|Hne]; simpl.
    + destruct (String.eqb_spec k k') as [->|Hne']; [reflexivity|].
      reflexivity.
    + rewrite IH.
      destruct (String.eqb_spec k0 k') as [->|Hne'].
      * destruct (String.eqb_spec k k'); [congruence|reflexivity].
      * reflexivity.
Qed.

Lemma assoc_replace_keys {A} (l : list (string * A)) (k : string) (a : A) :
  map fst (assoc_replace l k a) = map fst l.
Proof.
  induction l as [|[k0 a0] l IH]; simpl; [reflexivity|].
  destruct (String.eqb k0 k); simpl; congruence.
Qed.

Lemma insert_index_get {A} (l : list (string * A)) (i : N) (k k' : string) (a : A) :
  assoc_get l k = None ->
  assoc_get (insert_index l i k a) k' =
  if String.eqb k k' then Some a else assoc_get l k'.
Proof.
  induction l as [|[k0 a0] l IH]; simpl; intros Hk.
  - reflexivity.
  - destruct (String.eqb_spec k0 k) as [->|Hne]; [discriminate|].
    destruct (array_index k0) as [j|]; [destruct (j <? i)%N|]; simpl;
      rewrite ?IH by assumption;
      destruct (String.eqb_spec k k') as [->|]; try reflexivity;
      destruct (String.eqb_spec k0 k'); congruence.
Qed.

Lemma insert_index_keys {A} (l : list (string * A)) (i : N) (k : string) (a : A) :
  Permutation (map fst (insert_index l i k a)) (k :: map fst l).
Proof.
  induction l as [|[k0 a0] l IH]; simpl; [reflexivity|].
  destruct (array_index k0) as [j|]; [destruct (j <? i)%N|]; simpl;
    try reflexivity.
  rewrite IH. apply perm_swap.
Qed.

Lemma append_get {A} (l : list (string * A)) (k k' : string) (a : A) :
  assoc_get l k = None ->
  assoc_get (l ++ [(k, a)]) k' = if String.eqb k k' then Some a else assoc_get l k'.
Proof.
  induction l as [|[k0 a0] l IH]; simpl; intros Hk.
  - destruct (String.eqb k k'); reflexivity.
  - destruct (String.eqb_spec k0 k) as [->|Hne]; [discriminate|].
    rewrite IH by assumption.
    destruct (String.eqb_spec k k') as [->|]; try reflexivity.
    destruct (String.eqb_spec k0 k'); congruence.
Qed.

(** Reading a property after an assignment. *)
Lemma obj_set_get {A} (l : list (string * A)) (k k' : string) (a : A) :
  assoc_get (obj_set l k a) k' = if String.eqb k k' then Some a else assoc_get l k'.
Proof.
  unfold obj_set. destruct (assoc_get l k) as [a0|] eqn:Hk.
  - rewrite assoc_replace_get, Hk. reflexivity.
  - destruct (array_index k).
    + apply insert_index_get; assumption.
    + apply append_get; assumption.
Qed.

Lemma obj_set_NoDup {A} (l : list (string * A)) (k : string) (a : A) :
  List.NoDup (map fst l) -> List.NoDup (map fst (obj_set l k a)).
Proof.
  intros Hl. unfold obj_set. destruct (assoc_get l k) as [a0|] eqn:Hk.
  - rewrite assoc_replace_keys. assumption.
  - apply assoc_get_None_iff in Hk.
    destruct (array_index k).
    + eapply Permutation_NoDup; [symmetry; apply insert_index_keys|].
      constructor; assumption.
    + rewrite map_app. simpl.
      eapply Permutation_NoDup; [apply Permutation_cons_append|].
      constructor; assumption.
Qed.



(** ** [update] *)



(** ** [load] and [reload] *)

(** The atomic write when nothing fails: the target holds the text and the
    temporary file is gone. *)
Lemma writeAtomic_calm (token path : string) (d : value) (text : string) (w : Fs.fs) :
  JSON.stringify d = Some text ->
  JSONStore.writeAtomic (Fs.calm token) path d w =
  (Fs.set_files (fun m => <[path := text]> (delete (tmp_path path token) m)) w, Ok tt).
Proof.
  intros Htext.
  unfold JSONStore.writeAtomic, Fs.open, Fs.writeFile, Fs.sync, Fs.close,
    Fs.rename, Fs.unlink, Fs.inject, text_of.
  rewrite Htext. eff_unfold. simpl.
  rewrite lookup_insert_eq. simpl.
  unfold Fs.set_files. simpl. f_equal. f_equal.
  rewrite !delete_insert_eq. reflexivity.
Qed.



End StoreFacts.

Module PathFacts.
Import Runtime Eff Store Notions Samples Clone StoreFacts.
Import JSONStore.

(** ** Key validation *)

Lemma validateKeys_from_accepted (keys : list value) (i : nat) :
  Forall accepted keys ->
  exists ks, validateKeys_from i keys = Ok ks /\ map key_value ks = keys.
Proof.
  intros H. revert i. induction H as [|k keys Hk _ IH]; intros i; simpl.
  - exists []. split; reflexivity.
  - destruct (IH (S i)) as (ks & Hks & Hmap).
    destruct k as [| | |[z| | |]|s| | |]; simpl in Hk; try contradiction;
      rewrite Hks; simpl.
    + exists (KNum z :: ks). split; [reflexivity|simpl; congruence].
    + exists (KStr s :: ks). split; [reflexivity|simpl; congruence].
Qed.

Lemma validateKeys_from_rejected (keys : list value) (i j : nat) (k : value) :
  keys !! j = Some k -> ~ accepted k -> Forall accepted (take j keys) ->
  validateKeys_from i keys = Throw (invalid_key (i + j) k).
Proof.
  revert i j. induction keys as [|k0 keys IH]; intros i j Hj Hk Hpre.
  - discriminate.
  - destruct j as [|j]; simpl in *.
    + inversion Hj; subst k0. rewrite Nat.add_0_r.
      destruct k as [| | |[z| | |]|s| | |]; simpl in *; try tauto; reflexivity.
    + inversion Hpre as [|? ? Hk0 Hpre']; subst.
      rewrite (IH (S i) j Hj Hk Hpre').
      replace (S i + j)%nat with (i + S j)%nat by lia.
      destruct k0 as [| | |[z| | |]|s| | |]; simpl in *; try tauto; reflexivity.
Qed.

Lemma validateKeys_from_ok (keys : list value) (i : nat) (ks : list key) :
  validateKeys_from i keys = Ok ks -> Forall accepted keys.
Proof.
  revert i ks. induction keys as [|k keys IH]; intros i ks H; simpl in H.
  - constructor.
  - destruct k as [| | |[z| | |]|s| | |]; try discriminate;
      destruct (validateKeys_from (S i) keys) as [ks'|] eqn:E; try discriminate;
      constructor; simpl; eauto.
Qed.

Lemma validateKeys_key_value (ks : list key) :
  validateKeys (map key_value ks) = Ok ks.
Proof.
  unfold validateKeys. generalize 0%nat.
  induction ks as [|k ks IH]; intros i; simpl; [reflexivity|].
  destruct k; simpl; rewrite IH; reflexivity.
Qed.

(** C9, as the code has it.  Validation succeeds exactly when every key is a
    string (the empty one included) or a finite number, and returns the keys
    unchanged.  Otherwise it throws at the first key that is neither, with a
    message that names its index and, for a key that is not a number, its
    [typeof]; for a non-finite number the message names the index and the
    number.  The four path operations on an initialized store reject with
    that error and leave store and disk untouched. *)
Theorem validateKeys_spec (keys : list value) :
  (is_ok (validateKeys keys) = true <-> Forall accepted keys)
  /\ (Forall accepted keys ->
      exists ks, validateKeys keys = Ok ks /\ map key_value ks = keys)
  /\ (forall i k,
        keys !! i = Some k -> ~ accepted k -> Forall accepted (take i keys) ->
        validateKeys keys = Throw (invalid_key i k))
  /\ (forall err st v e w,
        validateKeys keys = Throw err -> initialized st = true ->
        getPath keys st = (st, Throw err)
        /\ hasPath keys st = (st, Throw err)
        /\ setPath keys v st = (st, Throw err)
        /\ setPathAndSave e keys v (st, w) = ((st, w), Throw err)).
Proof.
  split; [|split; [|split]].
  - split.
    + unfold validateKeys. destruct (validateKeys_from 0 keys) eqn:E; [|discriminate].
      intros _. eapply validateKeys_from_ok; eassumption.
    + intros H. destruct (validateKeys_from_accepted keys 0 H) as (ks & Hks & _).
      unfold validateKeys. rewrite Hks. reflexivity.
  - intros H. apply validateKeys_from_accepted. assumption.
  - intros i k Hi Hk Hpre. unfold validateKeys.
    rewrite (validateKeys_from_rejected keys 0 i k Hi Hk Hpre). reflexivity.
  - intros err st v e w Herr Hinit.
    unfold hasPath, getPath, setPath, setPathAndSave, assertInitialized.
    eff_unfold. rewrite Herr, Hinit. simpl. repeat split; reflexivity.
Qed.

(** C9, as stated, fails: the empty string is no non-empty string, and the
    validation lets it through. *)
Lemma validateKeys_accepts_empty_key :
  ~ (is_ok (validateKeys [VStr ""]) = true <-> Forall nonempty_key [VStr ""]).
Proof.
  intros [H _]. specialize (H eq_refl).
  inversion H as [|? ? Hk _]; subst. apply Hk. reflexivity.
Qed.

(** ** Reading and assigning properties of containers *)

Lemma traversable_container (v : value) :
  nullish v || negb (String.eqb (typeof v) "object") = negb (is_container v).
Proof. destruct v; reflexivity. Qed.

Lemma container_not_nullish (v : value) : is_container v = true -> nullish v = false.
Proof. destruct v; simpl; congruence. Qed.

Lemma nth_elems_set (es : list value) (i : nat) (x : value) :
  nth i (elems_set es i x) VUndef = x.
Proof.
  revert es. induction i as [|i IH]; intros [|e es]; simpl; auto.
Qed.


(** ** Values without symbols *)










(** ** The walk of [#setAtPath] *)

Lemma setAtPath_from_step (walked : list key) (current : value) (k nk : key)
  (rest : list key) (v : value) :
  setAtPath_from walked current (k :: nk :: rest) v =
  rbind (get_prop current (prop_name k)) (fun child =>
  rbind (if nullish child then
           match nk with
           | KNum _ => Throw (array_refused (walked ++ [k]))
           | KStr _ => set_prop current (prop_name k) (VObj [])
           end
         else Ok current) (fun current' =>
  rbind (get_prop current' (prop_name k)) (fun next =>
  if nullish next || negb (String.eqb (typeof next) "object")
  then Throw (not_traversable (walked ++ [k]))
  else
    rbind (setAtPath_from (walked ++ [k]) next (nk :: rest) v) (fun next' =>
    set_prop current' (prop_name k) next')))).
Proof. reflexivity. Qed.

Lemma walk_container (c x : value) (keys : list key) :
  walk x keys = Ok c -> is_container c = true -> is_container x = true.
Proof.
  destruct keys as [|k keys]; simpl.
  - congruence.
  - rewrite traversable_container. destruct (is_container x); simpl; [auto|].
    intros H; inversion H; subst. discriminate.
Qed.

Lemma walk_cons (x c : value) (k : key) (keys : list key) :
  walk x (k :: keys) = Ok c -> is_container c = true ->
  exists next, get_prop x (prop_name k) = Ok next /\ walk next keys = Ok c
               /\ is_container next = true /\ is_container x = true.
Proof.
  intros Hw Hc. pose proof (walk_container _ _ _ Hw Hc) as Hx.
  simpl in Hw. rewrite traversable_container, Hx in Hw. simpl in Hw.
  destruct (get_prop x (prop_name k)) as [next|] eqn:Hg; simpl in Hw; [|discriminate].
  exists next. repeat split; auto. eapply walk_container; eassumption.
Qed.

Lemma walk_app (x : value) (a b : list key) :
  walk x (a ++ b) = rbind (walk x a) (fun c => walk c b).
Proof.
  revert x. induction a as [|k a IH]; intros x; simpl; [reflexivity|].
  destruct (nullish x || negb (String.eqb (typeof x) "object")) eqn:E.
  - simpl. destruct b; simpl; reflexivity.
  - destruct (get_prop x (prop_name k)) as [next|]; simpl; [apply IH|reflexivity].
Qed.


(** Walking through containers that are already there: an error raised
    further down is the error of the whole walk. *)
Lemma setAtPath_from_descend_error (pre : list key) :
  forall (walked : list key) (root cur : value) (ks : list key) (v : value) (err : error),
    walk root pre = Ok cur -> is_container cur = true -> ks <> [] ->
    setAtPath_from (walked ++ pre) cur ks v = Throw err ->
    setAtPath_from walked root (pre ++ ks) v = Throw err.
Proof.
  induction pre as [|k pre IH]; intros walked root cur ks v err Hw Hc Hks Herr.
  - simpl in *. inversion Hw; subst. rewrite app_nil_r in Herr. exact Herr.
  - destruct (walk_cons _ _ _ _ Hw Hc) as (next & Hg & Hw' & Hn & Hr).
    assert (Hcons : exists nk rest, pre ++ ks = nk :: rest).
    { destruct pre; simpl; [destruct ks; [contradiction|eauto]|eauto]. }
    destruct Hcons as (nk & rest & Hcons).
    change ((k :: pre) ++ ks) with (k :: (pre ++ ks)). rewrite Hcons.
    rewrite setAtPath_from_step, Hg. cbn [rbind].
    rewrite (container_not_nullish _ Hn). cbn [rbind]. rewrite Hg. cbn [rbind].
    rewrite traversable_container, Hn. cbn [negb].
    rewrite <- Hcons.
    rewrite (IH (walked ++ [k]) next cur ks v err Hw' Hc Hks); [reflexivity|].
    rewrite <- app_assoc. exact Herr.
Qed.






(** ** [setPath] and [setPathAndSave] in closed form *)


Lemma setPathAndSave_error (e : Fs.env) (st : store) (w : Fs.fs) (keys : list key)
  (v : value) (err : error) :
  initialized st = true -> symbol_free (data st) = true -> keys <> [] ->
  setAtPath (data st) keys v = Throw err ->
  setPathAndSave e (map key_value keys) v (st, w) = ((st, w), Throw err).
Proof.
  intros Hinit Hfree Hne Herr.
  unfold setPathAndSave. eff_unfold.
  rewrite validateKeys_key_value. simpl.
  destruct keys as [|k keys]; [contradiction|]. simpl length. simpl.
  rewrite (updateAndSave_unfold e _ st w Hinit).
  unfold next_document. rewrite (symbol_free_clone _ Hfree). simpl.
  rewrite Herr. reflexivity.
Qed.



(** ** The two guards of [#setAtPath] *)







End PathFacts.

Module Revisions.
Import Runtime Eff Store Notions Samples Clone StoreFacts.

(** The earlier [#writeAtomic()] is the later one applied to the fields. *)
Lemma writeAtomic_v1 (e : Fs.env) (st : store) (w : Fs.fs) :
  JSONStoreV1.writeAtomic e (st, w) =
  (let (w', r) := JSONStore.writeAtomic e (filePath st) (data st) w in ((st, w'), r)).
Proof.
  unfold JSONStoreV1.writeAtomic, JSONStore.writeAtomic,
    Fs.open, Fs.writeFile, Fs.sync, Fs.close, Fs.rename, Fs.unlink, Fs.inject.
  eff_unfold. simpl.
  destruct e as [tok fa fr fo fw wr fs fc fn fu]; simpl.
  destruct fo, (text_of (data st)) eqn:Ht, fw, fs, fc, fn, fu; simpl;
    rewrite ?Ht; simpl;
    repeat (first [ rewrite lookup_insert_eq | rewrite lookup_delete_eq ]; simpl);
    try reflexivity;
    repeat match goal with
           | |- context [match ?m !! ?k with _ => _ end] => destruct (m !! k); simpl
           end; reflexivity.
Qed.

Lemma load_agree (e : Fs.env) (st : store) (w : Fs.fs) :
  JSONStoreV1.load e (st, w) = JSONStore.load e (st, w).
Proof.
  unfold JSONStoreV1.load, JSONStore.load, JSONStore.readOrCreateDefault.
  eff_unfold. simpl.
  destruct (Fs.access e (Fs.dirname (filePath st)) w) as [w0 [[]|aerr]]; simpl;
    [|reflexivity].
  destruct (Fs.readFile e (filePath st) w0) as [w1 [content|rerr]]; simpl.
  - destruct (JSON.parse content); reflexivity.
  - destruct (has_code rerr "ENOENT"); simpl; [|reflexivity].
    rewrite writeAtomic_v1. simpl.
    destruct (JSONStore.writeAtomic e (filePath st) (defaultFactory st tt) w1)
      as [w2 [[]|werr]]; simpl; [reflexivity|].
    rewrite set_data_same. reflexivity.
Qed.

Lemma save_agree (e : Fs.env) (st : store) (w : Fs.fs) :
  JSONStoreV1.save e (st, w) = JSONStore.save e (st, w).
Proof.
  unfold JSONStoreV1.save, JSONStore.save, assertInitialized.
  eff_unfold. simpl. destruct (initialized st); simpl; [|reflexivity].
  rewrite writeAtomic_v1.
  destruct (JSONStore.writeAtomic e (filePath st) (data st) w) as [w' [[]|werr]];
    reflexivity.
Qed.

Lemma updateAndSave_agree (e : Fs.env) (u : updater) (st : store) (w : Fs.fs) :
  cloneable (data st) \/ (exists f, u = Mutator f) ->
  JSONStoreV1.updateAndSave e u (st, w) = JSONStore.updateAndSave e u (st, w).
Proof.
  intros Hok.
  unfold JSONStoreV1.updateAndSave, JSONStore.updateAndSave, assertInitialized.
  eff_unfold. simpl. destruct (initialized st); simpl; [|reflexivity].
  destruct (structuredClone (data st)) as [backup|cerr] eqn:Hb; simpl.
  - pose proof (structuredClone_eq _ _ Hb) as ->.
    destruct u as [p|f]; simpl.
    + rewrite writeAtomic_v1. simpl.
      destruct (JSONStore.writeAtomic e (filePath st) (spread (data st) p) w)
        as [w' [[]|werr]]; reflexivity.
    + rewrite Hb. simpl. destruct (f (data st)) as [d1|ferr]; simpl; [|reflexivity].
      rewrite writeAtomic_v1. simpl.
      destruct (JSONStore.writeAtomic e (filePath st) d1 w)
        as [w' [[]|werr]]; reflexivity.
  - destruct Hok as [[c Hc]|[f ->]]; [congruence|].
    simpl. rewrite Hb. simpl. rewrite set_data_id. reflexivity.
Qed.

Lemma reload_agree (e : Fs.env) (st : store) (w : Fs.fs) :
  fst (JSONStoreV1.reload e (st, w)) = fst (JSONStore.reload e (st, w))
  /\ match snd (JSONStoreV1.reload e (st, w)), snd (JSONStore.reload e (st, w)) with
     | Ok _, Ok _ => True
     | Throw e1, Throw e2 =>
         e2 = e1
         \/ (has_code e1 "ENOENT" = true
             /\ e2 = ErrorCause ("File does not exist: " +:+ filePath st) e1)
     | _, _ => False
     end.
Proof.
  unfold JSONStoreV1.reload, JSONStore.reload, assertInitialized.
  eff_unfold. simpl. destruct (initialized st); simpl; [|auto].
  destruct (Fs.readFile e (filePath st) w) as [w1 [content|rerr]]; simpl.
  - destruct (JSON.parse content); simpl; auto.
  - destruct (has_code rerr "ENOENT") eqn:Hcode; simpl; auto.
Qed.

(** C10, as the code has it.  On every store, disk and environment the two
    revisions of [load], [save] and [update] do the same: same outcome, same
    store, same disk.  So do the two [reload]s, up to the error they reject
    with when the file is missing: the later revision wraps the system
    error the earlier one lets through.  So do the two [updateAndSave]s
    whenever the document can be cloned or the updater is a function. *)
Theorem revisions_agree (e : Fs.env) (st : store) (w : Fs.fs) :
  JSONStoreV1.load e (st, w) = JSONStore.load e (st, w)
  /\ JSONStoreV1.save e (st, w) = JSONStore.save e (st, w)
  /\ (forall u, JSONStoreV1.update u st = JSONStore.update u st)
  /\ (fst (JSONStoreV1.reload e (st, w)) = fst (JSONStore.reload e (st, w))
      /\ match snd (JSONStoreV1.reload e (st, w)), snd (JSONStore.reload e (st, w)) with
         | Ok _, Ok _ => True
         | Throw e1, Throw e2 =>
             e2 = e1
             \/ (has_code e1 "ENOENT" = true
                 /\ e2 = ErrorCause ("File does not exist: " +:+ filePath st) e1)
         | _, _ => False
         end)
  /\ (forall u,
        cloneable (data st) \/ (exists f, u = Mutator f) ->
        JSONStoreV1.updateAndSave e u (st, w) = JSONStore.updateAndSave e u (st, w)).
Proof.
  split; [apply load_agree|]. split; [apply save_agree|].
  split; [reflexivity|]. split; [apply reload_agree|].
  intros u. apply updateAndSave_agree.
Qed.

(** C10, as stated, fails: with a symbol in the document, the earlier
    [updateAndSave] of a partial document resolves and writes the file, the
    later one rejects and writes nothing. *)
Lemma updateAndSave_revisions_differ :
  let u := Partial (VObj [("n", VNum (Fin 1))]) in
  let old := JSONStoreV1.updateAndSave (Fs.calm "0b5e") u (tagged_store, data_disk) in
  let new := JSONStore.updateAndSave (Fs.calm "0b5e") u (tagged_store, data_disk) in
  snd old = Ok tt
  /\ dirty (fst (fst old)) = false
  /\ Fs.files (snd (fst old)) !! "/data/ids.json" = Some ("{" +:+ JSON.nl +:+ "  " +:+ JSON.quote "n" +:+ ": 1" +:+ JSON.nl +:+ "}")
  /\ snd new = Throw data_clone_error
  /\ fst new = (tagged_store, data_disk).
Proof. vm_compute. repeat split. Qed.

End Revisions.

Module MutexFacts.
Import AsyncMutex.
Local Open Scope nat_scope.

Lemma began_app (a b : list event) : began (a ++ b) = began a ++ began b.
Proof.
  induction a as [|[c|c|c|c] a IH]; simpl; rewrite ?IH; reflexivity.
Qed.

Lemma enqueued_app (a b : list event) : enqueued (a ++ b) = enqueued a ++ enqueued b.
Proof.
  induction a as [|[c|c|c|c] a IH]; simpl; rewrite ?IH; reflexivity.
Qed.

Lemma began_rev (t : list event) : began (rev t) = rev (began t).
Proof.
  induction t as [|[c|c|c|c] t IH]; simpl; rewrite ?began_app, ?IH; simpl;
    rewrite ?app_nil_r; reflexivity.
Qed.

Lemma enqueued_rev (t : list event) : enqueued (rev t) = rev (enqueued t).
Proof.
  induction t as [|[c|c|c|c] t IH]; simpl; rewrite ?enqueued_app, ?IH; simpl;
    rewrite ?app_nil_r; reflexivity.
Qed.

Lemma In_began (t : list event) (c : nat) : In c (began t) <-> In (Began c) t.
Proof.
  induction t as [|[c'|c'|c'|c'] t IH]; simpl; rewrite ?IH;
    intuition (try discriminate; try congruence).
Qed.

Lemma lookup_update (l : list call) (i j : nat) (c c0 : call) :
  l !! i = Some c0 ->
  <[i := c]> l !! j = if Nat.eqb i j then Some c else l !! j.
Proof.
  intros Hi. destruct (Nat.eqb_spec i j) as [->|Hne].
  - apply list_lookup_insert_eq. eapply lookup_lt_Some; eassumption.
  - apply list_lookup_insert_ne. assumption.
Qed.

Lemma lookup_snoc (l : list call) (c : call) (i : nat) :
  (l ++ [c]) !! i =
  if i <? length l then l !! i else if Nat.eqb i (length l) then Some c else None.
Proof.
  destruct (Nat.ltb_spec i (length l)) as [Hlt|Hge].
  - apply lookup_app_l. assumption.
  - rewrite lookup_app_r by assumption.
    destruct (Nat.eqb_spec i (length l)) as [->|Hne].
    + rewrite Nat.sub_diag. reflexivity.
    + destruct (i - length l) as [|d] eqn:E; [lia|reflexivity].
Qed.

Lemma inv_init : inv init.
Proof.
  constructor; simpl; try reflexivity; try lia.
  - intros i c H. destruct i; discriminate.
  - intros i j ci cj _ H. destruct i; discriminate.
  - intros i c H. destruct i; discriminate.
  - intros i c H. destruct i; discriminate.
  - intros later j earlier H. destruct later; discriminate.
Qed.

(** A call that has begun is known to the trace. *)
Lemma began_started (s : state) (j : nat) :
  inv s -> In (Began j) (trace s) -> j < length (began (trace s)).
Proof.
  intros I H. apply In_began in H. rewrite (inv_began s I) in H.
  apply in_rev in H. apply in_seq in H. lia.
Qed.

(** Splitting a trace that has grown by one event. *)
Lemma split_head (ev : event) (t later earlier : list event) (j : nat) :
  ev :: t = later ++ Began j :: earlier ->
  (later = [] /\ ev = Began j /\ t = earlier)
  \/ (exists later', later = ev :: later' /\ t = later' ++ Began j :: earlier).
Proof.
  destruct later as [|e later]; simpl; intros H; inversion H; subst; eauto.
Qed.

Lemma Began_known (s : state) (j : nat) :
  inv s -> In (Began j) (trace s) ->
  exists cj, calls s !! j = Some cj /\ phase_of cj <> Waiting.
Proof.
  intros I H. pose proof (began_started s j I H) as Hj.
  pose proof (inv_bound s I) as Hb.
  destruct (lookup_lt_is_Some_2 (calls s) j ltac:(lia)) as [cj Hcj].
  exists cj. split; [exact Hcj|]. apply (inv_started s I j cj Hcj). exact Hj.
Qed.

(** Once a later call has begun, an earlier one is done. *)
Lemma earlier_done (s : state) (i j : nat) (ci : call) :
  inv s -> i < j -> In (Began j) (trace s) -> calls s !! i = Some ci ->
  phase_of ci = Done.
Proof.
  intros I Hij HB Hi. destruct (Began_known s j I HB) as (cj & Hcj & Hph).
  exact (inv_prefix s I i j ci cj Hij Hi Hcj Hph).
Qed.

Lemma in_middle (later earlier : list event) (ev : event) :
  In ev (later ++ ev :: earlier).
Proof. apply in_or_app. right. left. reflexivity. Qed.

(** When a waiting call finds its [prev] settled, every earlier call is
    done. *)
Lemma settled_prev (s : state) (i : nat) (c : call) :
  inv s -> calls s !! i = Some c -> is_settled s (prev c) = true ->
  forall i' ci', i' < i -> calls s !! i' = Some ci' -> phase_of ci' = Done.
Proof.
  intros I Hi Hs i' ci' Hlt Hi'.
  destruct (inv_links s I i c Hi) as [Hprev _]. rewrite Hprev in Hs.
  unfold is_settled in Hs. apply existsb_exists in Hs as (p & Hp & Heq).
  apply Nat.eqb_eq in Heq. subst p.
  destruct (inv_settled s I i Hp) as [->|(i0 & c0 & -> & Hc0 & Hd0)]; [lia|].
  destruct (Nat.eq_dec i' i0) as [->|Hne].
  - congruence.
  - apply (inv_prefix s I i' i0 ci' c0); [lia|assumption|assumption|congruence].
Qed.

Lemma seq_snoc_rev (m : nat) : m :: rev (seq 0 m) = rev (seq 0 (S m)).
Proof. rewrite seq_S, rev_app_distr. reflexivity. Qed.

Lemma inv_enqueue (s : state) : inv s -> inv (enqueue s).
Proof.
  intros I. pose proof (inv_queue s I) as Hq. pose proof (inv_alloc s I) as Ha.
  assert (Hold : forall i c, (calls s ++ [{| prev := queue s; next := allocated s;
                                            phase_of := Waiting |}]) !! i = Some c ->
                 calls s !! i = Some c
                 \/ (i = length (calls s) /\ prev c = i /\ next c = S i
                     /\ phase_of c = Waiting)).
  { intros i c. rewrite lookup_snoc.
    destruct (i <? length (calls s)); [auto|].
    destruct (Nat.eqb_spec i (length (calls s))) as [->|]; [|discriminate].
    intros H; inversion H; subst; simpl. right. repeat split; lia. }
  constructor; unfold enqueue; simpl.
  - rewrite length_app. simpl. lia.
  - rewrite length_app. simpl. lia.
  - rewrite length_app. pose proof (inv_bound s I). simpl. lia.
  - intros i c H. destruct (Hold i c H) as [H0|(_ & H1 & H2 & _)]; [|auto].
    exact (inv_links s I i c H0).
  - intros p Hp. destruct (inv_settled s I p Hp) as [->|(i & c & -> & Hc & Hd)]; [auto|].
    right. exists i, c. repeat split; auto.
    rewrite lookup_app_l; [exact Hc|]. eapply lookup_lt_Some; eassumption.
  - intros i j ci cj Hij Hi Hj Hph.
    destruct (Hold j cj Hj) as [Hj0|(_ & _ & _ & Hw)]; [|congruence].
    destruct (Hold i ci Hi) as [Hi0|(-> & _)].
    + exact (inv_prefix s I i j ci cj Hij Hi0 Hj0 Hph).
    + apply lookup_lt_Some in Hj0. lia.
  - intros i c Hi Hd. right.
    destruct (Hold i c Hi) as [Hi0|(_ & _ & _ & Hw)]; [|congruence].
    exact (inv_finished s I i c Hi0 Hd).
  - exact (inv_began s I).
  - intros i c Hi. destruct (Hold i c Hi) as [Hi0|(-> & _ & _ & Hw)].
    + exact (inv_started s I i c Hi0).
    + pose proof (inv_bound s I). rewrite Hw. split; [congruence|lia].
  - rewrite (inv_enqueued s I), length_app. simpl.
    rewrite Nat.add_1_r. apply seq_snoc_rev.
  - intros later j earlier Ht i Hij.
    destruct (split_head _ _ _ _ _ Ht) as [(_ & Hev & _)|(later' & -> & Ht')];
      [discriminate|].
    destruct (inv_order s I later' j earlier Ht' i Hij) as (H1 & H2 & H3 & H4).
    split; [exact H1|]. simpl.
    repeat split; intros [Hx|Hx]; try discriminate; auto.
Qed.

Lemma inv_begin (s : state) (i : nat) (c : call) :
  inv s -> calls s !! i = Some c -> phase_of c = Waiting ->
  is_settled s (prev c) = true ->
  inv (update_call s i (set_phase Running c) (Began i) []).
Proof.
  intros I Hi Hw Hs.
  pose proof (settled_prev s i c I Hi Hs) as Hdone.
  pose proof (inv_bound s I) as Hb.
  pose proof (lookup_lt_Some _ _ _ Hi) as Hlen.
  assert (Him : i = length (began (trace s))).
  { destruct (inv_started s I i c Hi) as [_ H2].
    assert (~ i < length (began (trace s))) by (intros H; apply H2 in H; congruence).
    destruct (Nat.eq_dec i (length (began (trace s)))) as [|Hne]; [assumption|].
    exfalso.
    destruct (lookup_lt_is_Some_2 (calls s) (length (began (trace s))) ltac:(lia))
      as [cm Hcm].
    assert (Hmi : length (began (trace s)) < i) by lia.
    pose proof (Hdone _ cm Hmi Hcm) as Hd.
    destruct (inv_started s I _ cm Hcm) as [H1 _].
    specialize (H1 ltac:(congruence)). lia. }
  assert (Hlk : forall j cj,
             <[i := set_phase Running c]> (calls s) !! j = Some cj ->
             (j = i /\ cj = set_phase Running c) \/ (j <> i /\ calls s !! j = Some cj)).
  { intros j cj. rewrite (lookup_update _ i j _ c Hi).
    destruct (Nat.eqb_spec i j) as [->|Hne]; [|auto].
    intros H; inversion H; auto. }
  constructor; unfold update_call; simpl.
  - rewrite length_insert. exact (inv_queue s I).
  - rewrite length_insert. exact (inv_alloc s I).
  - rewrite length_insert. lia.
  - intros j cj Hj. destruct (Hlk j cj Hj) as [(-> & ->)|(_ & Hj0)].
    + exact (inv_links s I i c Hi).
    + exact (inv_links s I j cj Hj0).
  - intros p Hp. destruct (inv_settled s I p Hp) as [->|(i0 & c0 & -> & Hc0 & Hd0)]; [auto|].
    right. exists i0, c0. repeat split; auto.
    rewrite (lookup_update _ i i0 _ c Hi).
    destruct (Nat.eqb_spec i i0) as [->|]; [congruence|assumption].
  - intros i1 j1 ci cj Hlt Hi1 Hj1 Hph.
    destruct (Hlk j1 cj Hj1) as [(-> & ->)|(Hne & Hj0)].
    + destruct (Hlk i1 ci Hi1) as [(-> & _)|(_ & Hi0)]; [lia|].
      exact (Hdone i1 ci Hlt Hi0).
    + destruct (Hlk i1 ci Hi1) as [(-> & ->)|(_ & Hi0)].
      * pose proof (inv_prefix s I i j1 c cj Hlt Hi Hj0 Hph). congruence.
      * exact (inv_prefix s I i1 j1 ci cj Hlt Hi0 Hj0 Hph).
  - intros j cj Hj Hd. right.
    destruct (Hlk j cj Hj) as [(-> & ->)|(_ & Hj0)]; [discriminate|].
    exact (inv_finished s I j cj Hj0 Hd).
  - change (i :: began (trace s) = rev (seq 0 (S (length (began (trace s)))))).
    rewrite <- seq_snoc_rev. f_equal; [exact Him | exact (inv_began s I)].
  - intros j cj Hj. destruct (Hlk j cj Hj) as [(-> & ->)|(Hne & Hj0)]; simpl.
    + split; [lia|congruence].
    + pose proof (inv_started s I j cj Hj0) as H.
      split; [intros Hp; apply H in Hp; lia | intros Hlt; apply H; lia].
  - exact (inv_enqueued s I) || (rewrite length_insert; exact (inv_enqueued s I)).
  - intros later j earlier Ht i' Hij.
    destruct (split_head _ _ _ _ _ Ht) as [(-> & Hev & <-)|(later' & -> & Ht')].
    + inversion Hev; subst j. simpl. split; [|tauto].
      destruct (lookup_lt_is_Some_2 (calls s) i' ltac:(lia)) as [ci' Hci'].
      apply (inv_finished s I i' ci' Hci'). exact (Hdone i' ci' Hij Hci').
    + destruct (inv_order s I later' j earlier Ht' i' Hij) as (H1 & H2 & H3 & H4).
      split; [exact H1|]. simpl.
      repeat split; intros [Hx|Hx]; try discriminate; auto.
      inversion Hx; subst i'.
      assert (HB : In (Began j) (trace s)) by (rewrite Ht'; apply in_middle).
      pose proof (earlier_done s i j c I Hij HB Hi). congruence.
Qed.

Lemma inv_suspend (s : state) (i : nat) (c : call) :
  inv s -> calls s !! i = Some c -> phase_of c = Running ->
  inv (update_call s i c (Suspended i) []).
Proof.
  intros I Hi Hr.
  assert (Hsame : <[i := c]> (calls s) = calls s) by (apply list_insert_id; exact Hi).
  constructor; unfold update_call; simpl; rewrite ?Hsame.
  - exact (inv_queue s I).
  - exact (inv_alloc s I).
  - exact (inv_bound s I).
  - exact (inv_links s I).
  - exact (inv_settled s I).
  - exact (inv_prefix s I).
  - intros j cj Hj Hd. right. exact (inv_finished s I j cj Hj Hd).
  - exact (inv_began s I).
  - exact (inv_started s I).
  - exact (inv_enqueued s I).
  - intros later j earlier Ht i' Hij.
    destruct (split_head _ _ _ _ _ Ht) as [(_ & Hev & _)|(later' & -> & Ht')];
      [discriminate|].
    destruct (inv_order s I later' j earlier Ht' i' Hij) as (H1 & H2 & H3 & H4).
    split; [exact H1|]. simpl.
    repeat split; intros [Hx|Hx]; try discriminate; auto.
    inversion Hx; subst i'.
    assert (HB : In (Began j) (trace s)) by (rewrite Ht'; apply in_middle).
    pose proof (earlier_done s i j c I Hij HB Hi). congruence.
Qed.

Lemma inv_finish (s : state) (i : nat) (c : call) :
  inv s -> calls s !! i = Some c -> phase_of c = Running ->
  inv (update_call s i (set_phase Done c) (Finished i) [next c]).
Proof.
  intros I Hi Hr.
  assert (Hlk : forall j cj,
             <[i := set_phase Done c]> (calls s) !! j = Some cj ->
             (j = i /\ cj = set_phase Done c) \/ (j <> i /\ calls s !! j = Some cj)).
  { intros j cj. rewrite (lookup_update _ i j _ c Hi).
    destruct (Nat.eqb_spec i j) as [->|Hne]; [|auto].
    intros H; inversion H; auto. }
  constructor; unfold update_call; simpl.
  - rewrite length_insert. exact (inv_queue s I).
  - rewrite length_insert. exact (inv_alloc s I).
  - rewrite length_insert. exact (inv_bound s I).
  - intros j cj Hj. destruct (Hlk j cj Hj) as [(-> & ->)|(_ & Hj0)].
    + exact (inv_links s I i c Hi).
    + exact (inv_links s I j cj Hj0).
  - intros p [Hp|Hp].
    + right. exists i, (set_phase Done c).
      destruct (inv_links s I i c Hi) as [_ Hn]. repeat split; [congruence|].
      rewrite (lookup_update _ i i _ c Hi), Nat.eqb_refl. reflexivity.
    + destruct (inv_settled s I p Hp) as [->|(i0 & c0 & -> & Hc0 & Hd0)]; [auto|].
      right. rewrite (lookup_update _ i i0 _ c Hi) || idtac.
      destruct (Nat.eq_dec i i0) as [->|Hne].
      * exists i0, (set_phase Done c). repeat split.
        rewrite (lookup_update _ i0 i0 _ c Hi), Nat.eqb_refl. reflexivity.
      * exists i0, c0. repeat split; auto.
        rewrite (lookup_update _ i i0 _ c Hi).
        destruct (Nat.eqb_spec i i0); [contradiction|assumption].
  - intros i1 j1 ci cj Hlt Hi1 Hj1 Hph.
    assert (Hj0 : exists cj0, calls s !! j1 = Some cj0 /\ phase_of cj0 <> Waiting).
    { destruct (Hlk j1 cj Hj1) as [(-> & ->)|(_ & Hj0)]; [|eauto].
      exists c. split; [assumption|congruence]. }
    destruct Hj0 as (cj0 & Hj0 & Hph0).
    destruct (Hlk i1 ci Hi1) as [(-> & ->)|(_ & Hi0)]; [reflexivity|].
    exact (inv_prefix s I i1 j1 ci cj0 Hlt Hi0 Hj0 Hph0).
  - intros j cj Hj Hd.
    destruct (Hlk j cj Hj) as [(-> & ->)|(_ & Hj0)]; [left; reflexivity|].
    right. exact (inv_finished s I j cj Hj0 Hd).
  - exact (inv_began s I).
  - intros j cj Hj. destruct (Hlk j cj Hj) as [(-> & ->)|(Hne & Hj0)]; simpl.
    + pose proof (inv_started s I i c Hi) as [H1 H2].
      split; [intros _; apply H1; congruence|congruence].
    + exact (inv_started s I j cj Hj0).
  - rewrite length_insert. exact (inv_enqueued s I).
  - intros later j earlier Ht i' Hij.
    destruct (split_head _ _ _ _ _ Ht) as [(_ & Hev & _)|(later' & -> & Ht')];
      [discriminate|].
    destruct (inv_order s I later' j earlier Ht' i' Hij) as (H1 & H2 & H3 & H4).
    split; [exact H1|]. simpl.
    repeat split; intros [Hx|Hx]; try discriminate; auto.
    inversion Hx; subst i'.
    assert (HB : In (Began j) (trace s)) by (rewrite Ht'; apply in_middle).
    pose proof (earlier_done s i j c I Hij HB Hi). congruence.
Qed.

Lemma reachable_inv (s : state) : reachable s -> inv s.
Proof.
  induction 1 as [|s s' _ IH Hstep]; [exact inv_init|].
  destruct Hstep.
  - apply inv_enqueue; assumption.
  - apply inv_begin; assumption.
  - apply inv_suspend; assumption.
  - apply inv_finish; assumption.
Qed.

Lemma is_running_spec (s : state) (i : nat) :
  is_running s i = true <-> exists c, calls s !! i = Some c /\ phase_of c = Running.
Proof.
  unfold is_running. destruct (calls s !! i) as [c|].
  - destruct (phase_of c) eqn:E; split; intros H; try discriminate; eauto;
      destruct H as (c' & Hc' & Hp); inversion Hc'; subst; congruence.
  - split; [discriminate|]. intros (c & Hc & _). discriminate.
Qed.

Lemma running_at_most_one (s : state) : inv s -> length (running s) <= 1.
Proof.
  intros I.
  assert (Hnd : List.NoDup (running s)).
  { unfold running. apply List.NoDup_filter. apply List.seq_NoDup. }
  assert (Heq : forall x y, In x (running s) -> In y (running s) -> x = y).
  { intros x y Hx Hy. unfold running in Hx, Hy.
    apply filter_In in Hx as [_ Hx]. apply filter_In in Hy as [_ Hy].
    apply is_running_spec in Hx as (cx & Hcx & Hpx).
    apply is_running_spec in Hy as (cy & Hcy & Hpy).
    destruct (Nat.lt_trichotomy x y) as [Hlt|[Heq|Hgt]]; [|assumption|].
    - pose proof (inv_prefix s I x y cx cy Hlt Hcx Hcy ltac:(congruence)). congruence.
    - pose proof (inv_prefix s I y x cy cx Hgt Hcy Hcx ltac:(congruence)). congruence. }
  destruct (running s) as [|a [|b l]]; simpl; try lia.
  exfalso. inversion Hnd as [|? ? Hnotin _]; subst. apply Hnotin.
  rewrite (Heq a b); simpl; auto.
Qed.

(** C6.  In every state the queue can reach, however the calls, the
    suspensions and the completions interleave: at most one body is in
    progress; the calls were enqueued as numbered; the bodies began in that
    same order, none skipped; and when the body of a call began, the body of
    every call enqueued before it had finished and does nothing afterwards.
    So with [save()] enqueued before [reload()], the write of the one is
    over before the read of the other starts. *)
Theorem runExclusive_serialises (s : state) :
  reachable s ->
  length (running s) <= 1
  /\ enqueued (history s) = seq 0 (length (calls s))
  /\ began (history s) = seq 0 (length (began (history s)))
  /\ (forall before j after,
        history s = before ++ Began j :: after ->
        forall i, i < j ->
          In (Finished i) before
          /\ ~ In (Began i) after /\ ~ In (Suspended i) after
          /\ ~ In (Finished i) after).
Proof.
  intros R. pose proof (reachable_inv s R) as I.
  split; [apply running_at_most_one; exact I|].
  split; [|split].
  - unfold history. rewrite enqueued_rev, (inv_enqueued s I), rev_involutive. reflexivity.
  - unfold history. rewrite began_rev, length_rev.
    rewrite (inv_began s I) at 1. rewrite rev_involutive. reflexivity.
  - unfold history. intros before j after Hh i Hij.
    assert (Ht : trace s = rev after ++ Began j :: rev before).
    { rewrite <- (rev_involutive (trace s)), Hh, rev_app_distr. simpl.
      rewrite <- app_assoc. reflexivity. }
    destruct (inv_order s I _ _ _ Ht i Hij) as (H1 & H2 & H3 & H4).
    rewrite <- !in_rev in *. auto.
Qed.

Lemma reload_running_reachable : reachable reload_running.
Proof.
  eapply reach_step; [eapply reach_step; [eapply reach_step; [eapply reach_step;
    [eapply reach_step; [eapply reach_step; [exact reach_init|]|]|]|]|]|].
  - apply Enqueue.
  - apply Enqueue.
  - exact (Begin both_queued 0 save_call eq_refl eq_refl eq_refl).
  - exact (Suspend save_running 0 (set_phase Running save_call) eq_refl eq_refl).
  - exact (Finish save_writing 0 (set_phase Running save_call) eq_refl eq_refl).
  - exact (Begin save_done 1 reload_call eq_refl eq_refl eq_refl).
Defined.

Lemma runExclusive_serialises_witness :
  length (running reload_running) <= 1
  /\ began (history reload_running) = [0; 1]
  /\ In (Finished 0) [Enqueued 0; Enqueued 1; Began 0; Suspended 0; Finished 0].
Proof.
  destruct (runExclusive_serialises reload_running reload_running_reachable)
    as (H1 & _ & H3 & H4).
  split; [exact H1|]. split; [exact H3|].
  exact (proj1 (H4 [Enqueued 0; Enqueued 1; Began 0; Suspended 0; Finished 0] 1 []
                   eq_refl 0 (le_n 1))).
Defined.

End MutexFacts.

Module RoundTrip.
Import Runtime Notions JSON.
#[local] Arguments String.append _ _ : simpl nomatch.

(** ** White space *)

Lemma append_assoc (a b c : string) : (a +:+ b) +:+ c = a +:+ (b +:+ c).
Proof. induction a as [|x a IH]; simpl; [reflexivity | rewrite IH; reflexivity]. Qed.

Lemma skip_ws_spaces (indent rest : string) :
  spaces_only indent = true -> skip_ws (indent +:+ rest) = skip_ws rest.
Proof.
  induction indent as [|c indent IH]; simpl; [reflexivity|].
  intros H. apply andb_true_iff in H as [Hc Hi].
  apply Ascii.eqb_eq in Hc. subst c. simpl. auto.
Qed.

Lemma skip_ws_nl (indent rest : string) :
  spaces_only indent = true -> skip_ws (nl +:+ indent +:+ rest) = skip_ws rest.
Proof. intros H. simpl. apply skip_ws_spaces. exact H. Qed.

Lemma spaces_only_inner (indent : string) :
  spaces_only indent = true -> spaces_only (indent +:+ "  ") = true.
Proof.
  induction indent as [|c indent IH]; simpl; [reflexivity|].
  intros H. apply andb_true_iff in H as [Hc Hi]. rewrite Hc. simpl. auto.
Qed.

(** ** String literals *)

Lemma parse_quote_char (c : ascii) (rest : string) :
  parse_chars (quote_char c +:+ rest) =
  rbind (parse_chars rest) (fun '(str, r) => Ok (String c str, r)).
Proof.
  destruct c as [[] [] [] [] [] [] [] []]; reflexivity.
Qed.

Lemma parse_quote_chars (s rest : string) :
  parse_chars (quote_chars s +:+ String dquote rest) = Ok (s, rest).
Proof.
  induction s as [|c s IH]; simpl.
  - reflexivity.
  - rewrite append_assoc, parse_quote_char, IH. reflexivity.
Qed.

(** ** Number literals *)

Lemma digits_of_digits (d : Decimal.uint) : all_chars is_digit (digits_of d) = true.
Proof. induction d; simpl; auto. Qed.

Lemma delimited_no_digit (rest : string) :
  delimited rest -> take_digits rest = (EmptyString, rest).
Proof.
  destruct rest as [|c rest]; simpl; [reflexivity|].
  intros [->| ->]; reflexivity.
Qed.

Lemma take_digits_all (t rest : string) :
  all_chars is_digit t = true -> delimited rest ->
  take_digits (t +:+ rest) = (t, rest).
Proof.
  intros Ht Hr. induction t as [|c t IH]; simpl.
  - apply delimited_no_digit. exact Hr.
  - simpl in Ht. apply andb_true_iff in Ht as [Hc Ht].
    rewrite Hc, (IH Ht). reflexivity.
Qed.

Lemma digits_val_acc (d : Decimal.uint) (acc : positive) :
  digits_val (Zpos acc) (digits_of d) = Zpos (Pos.of_uint_acc d acc).
Proof.
  revert acc. induction d; intros acc; simpl; try reflexivity;
    rewrite <- IHd; f_equal; unfold digit_val;
    match goal with
    | |- context [Z.of_nat (nat_of_ascii ?c)] =>
        let v := eval vm_compute in (Z.of_nat (nat_of_ascii c)) in
        change (Z.of_nat (nat_of_ascii c)) with v
    end; lia.
Qed.

Lemma digits_val_0 (d : Decimal.uint) :
  digits_val 0 (digits_of d) = Z.of_N (Pos.of_uint d).
Proof.
  induction d; simpl; try reflexivity; try exact IHd;
    apply (digits_val_acc d).
Qed.

Lemma digits_val_pos (p : positive) :
  digits_val 0 (digits_of (Pos.to_uint p)) = Zpos p.
Proof. rewrite digits_val_0, DecimalPos.Unsigned.of_to. reflexivity. Qed.

(** The decimal digits of a positive number do not start with a zero. *)
Lemma to_uint_head (p : positive) :
  exists c t, digits_of (Pos.to_uint p) = String c t
              /\ is_digit c = true /\ Ascii.eqb c "0" = false.
Proof.
  pose proof (DecimalPos.Unsigned.to_of (Pos.to_uint p)) as H.
  rewrite DecimalPos.Unsigned.of_to in H. simpl in H.
  pose proof (DecimalPos.Unsigned.to_uint_nonzero p) as Hnz.
  destruct (Pos.to_uint p) as [|d|d|d|d|d|d|d|d|d|d] eqn:E;
    try (simpl; eexists _, _; repeat split; reflexivity).
  - exfalso. eapply DecimalPos.Unsigned.to_uint_nonnil. exact E.
  - exfalso. rewrite DecimalFacts.unorm_D0 in H.
    destruct (Decimal.uint_eq_dec (Decimal.nzhead d) Decimal.Nil) as [Hn|Hn].
    + apply DecimalFacts.unorm_0 in Hn. rewrite Hn in H. inversion H; subst.
      apply Hnz. reflexivity.
    + rewrite (DecimalFacts.unorm_nzhead d Hn) in H.
      exact (DecimalFacts.nzhead_nonzero d d (eq_sym H)).
Qed.

Lemma delimited_no_fraction (rest : string) :
  delimited rest ->
  match rest with
  | String c _ => Ascii.eqb c "." || Ascii.eqb c "e" || Ascii.eqb c "E" = false
  | EmptyString => True
  end.
Proof. destruct rest as [|c rest]; simpl; [auto|]. intros [->| ->]; reflexivity. Qed.

Lemma parse_number_pos (neg : bool) (p : positive) (rest : string) :
  (Zpos p <= max_safe_integer)%Z -> delimited rest ->
  parse_number neg (digits_of (Pos.to_uint p) +:+ rest)
  = Ok (VNum (Fin (if neg then Zneg p else Zpos p)), rest).
Proof.
  intros Hsafe Hrest. unfold parse_number.
  rewrite (take_digits_all _ rest (digits_of_digits _) Hrest).
  pose proof (digits_val_pos p) as Hval.
  destruct (to_uint_head p) as (c & t & Ht & Hc & Hz). rewrite Ht in *.
  rewrite Hz.
  assert (Hlt : (max_safe_integer <? digits_val 0 (String c t))%Z = false)
    by (rewrite Hval; apply Z.ltb_ge; exact Hsafe).
  assert (Hnz : (digits_val 0 (String c t) =? 0)%Z = false)
    by (rewrite Hval; reflexivity).
  pose proof (delimited_no_fraction rest Hrest) as Hfrac.
  destruct rest as [|c' rest]; rewrite ?Hfrac, Hlt, Hnz, Hval, andb_false_r;
    destruct neg; reflexivity.
Qed.

Lemma parse_number_zero (rest : string) :
  delimited rest ->
  parse_number false ("0" +:+ rest) = Ok (VNum (Fin 0), rest).
Proof.
  intros Hrest. unfold parse_number.
  rewrite (take_digits_all "0" rest eq_refl Hrest). simpl.
  pose proof (delimited_no_fraction rest Hrest) as Hfrac.
  destruct rest as [|c' rest]; rewrite ?Hfrac; reflexivity.
Qed.

Lemma digit_not_ws (c : ascii) : is_digit c = true -> is_ws c = false.
Proof.
  destruct c as [[] [] [] [] [] [] [] []]; vm_compute; intros H;
    first [reflexivity | discriminate H].
Qed.

Lemma digit_branch (c : ascii) :
  is_digit c = true ->
  let n := nat_of_ascii c in
  (n =? 110)%nat = false /\ (n =? 116)%nat = false /\ (n =? 102)%nat = false
  /\ (n =? 34)%nat = false /\ (n =? 45)%nat = false.
Proof.
  destruct c as [[] [] [] [] [] [] [] []]; vm_compute; intros H;
    first [discriminate H | repeat split].
Qed.

(** The text of an integer a double holds exactly reads back. *)
Lemma parse_value_number (fuel : nat) (z : Z) (rest : string) :
  safe_integer z = true -> delimited rest ->
  parse_value (S fuel) (string_of_Z z +:+ rest) = Ok (VNum (Fin z), rest).
Proof.
  intros Hsafe Hrest. unfold safe_integer in Hsafe.
  apply andb_true_iff in Hsafe as [Hlo Hhi].
  apply Z.leb_le in Hlo. apply Z.leb_le in Hhi.
  unfold string_of_Z. destruct z as [|p|p]; simpl Z.to_int.
  - simpl NilZero.string_of_int. simpl. apply parse_number_zero. exact Hrest.
  - unfold NilZero.string_of_int, NilZero.string_of_uint.
    pose proof (parse_number_pos false p rest Hhi Hrest) as Hp.
    destruct (to_uint_head p) as (c & t & Ht & Hc & Hz).
    unfold digits_of in *.
    destruct (Pos.to_uint p) eqn:E; try (simpl in Ht; discriminate);
      rewrite Ht in *; simpl; rewrite (digit_not_ws c Hc);
      destruct (digit_branch c Hc) as (H1 & H2 & H3 & H4 & H5);
      rewrite H1, H2, H3, H4, H5, Hc; exact Hp.
  - unfold NilZero.string_of_int, NilZero.string_of_uint.
    assert (Hp' : (Zpos p <= max_safe_integer)%Z) by lia.
    pose proof (parse_number_pos true p rest Hp' Hrest) as Hp.
    destruct (to_uint_head p) as (c & t & Ht & Hc & Hz).
    unfold digits_of in *.
    destruct (Pos.to_uint p) eqn:E; try (simpl in Ht; discriminate);
      simpl; exact Hp.
Qed.

(** ** Object keys in the order the runtime keeps *)

Lemma existsb_eqb_false (k : string) (ks : list string) :
  existsb (String.eqb k) ks = false -> ~ In k ks.
Proof.
  intros H Hin. assert (existsb (String.eqb k) ks = true); [|congruence].
  apply existsb_exists. exists k. split; [assumption|apply String.eqb_refl].
Qed.

Lemma names_only_middle (ks1 ks2 : list string) (k : string) :
  names_only (ks1 ++ k :: ks2) = true ->
  array_index k = None /\ ~ In k ks1.
Proof.
  induction ks1 as [|k0 ks1 IH]; simpl.
  - destruct (array_index k); [discriminate|]. auto.
  - destruct (array_index k0); [discriminate|].
    intros H. apply andb_true_iff in H as [Hfresh Hrest].
    destruct (IH Hrest) as [Hk Hnot]. split; [exact Hk|].
    intros [->|Hin]; [|contradiction].
    apply negb_true_iff in Hfresh. apply existsb_eqb_false in Hfresh.
    apply Hfresh. apply in_or_app. right. left. reflexivity.
Qed.

Lemma ordered_from_bound (ks1 ks2 : list string) (k : string) (i j : N) :
  ordered_from (Some j) (ks1 ++ k :: ks2) = true -> array_index k = Some i ->
  (j < i)%N.
Proof.
  revert j. induction ks1 as [|k0 ks1 IH]; intros j; simpl.
  - intros H Hk. rewrite Hk in H. apply andb_true_iff in H as [H _].
    apply N.ltb_lt. exact H.
  - destruct (array_index k0) as [j0|] eqn:E0.
    + intros H Hk. apply andb_true_iff in H as [Hlt Hrest].
      apply N.ltb_lt in Hlt. pose proof (IH j0 Hrest Hk). lia.
    + intros H Hk. apply andb_true_iff in H as [_ Hrest].
      destruct (names_only_middle ks1 ks2 k Hrest) as [Hn _]. congruence.
Qed.

(** Before a key of an ordered list come other keys only and, when the key is
    an array index, smaller array indices only. *)
Lemma ordered_from_middle (ks1 ks2 : list string) (k : string) (lo : option N) :
  ordered_from lo (ks1 ++ k :: ks2) = true ->
  ~ In k ks1
  /\ (forall i, array_index k = Some i ->
        forall k', In k' ks1 -> exists j, array_index k' = Some j /\ (j < i)%N).
Proof.
  revert lo. induction ks1 as [|k0 ks1 IH]; intros lo H.
  - split; [tauto|]. intros i _ k' [].
  - simpl in H. destruct (array_index k0) as [j0|] eqn:E0.
    + apply andb_true_iff in H as [_ Hrest].
      destruct (IH (Some j0) Hrest) as [Hnot Hsmall].
      split.
      * intros [->|Hin]; [|contradiction].
        pose proof (ordered_from_bound ks1 ks2 k j0 j0 Hrest E0). lia.
      * intros i Hk k' [<-|Hin]; [|eauto].
        exists j0. split; [exact E0|].
        exact (ordered_from_bound ks1 ks2 k i j0 Hrest Hk).
    + assert (Hn : names_only ((k0 :: ks1) ++ k :: ks2) = true)
        by (simpl; rewrite E0; exact H).
      destruct (names_only_middle (k0 :: ks1) ks2 k Hn) as [Hk Hnot].
      split; [exact Hnot|]. intros i Hi. congruence.
Qed.

Lemma insert_index_last {A} (acc : list (string * A)) (i : N) (k : string) (x : A) :
  (forall k', In k' (map fst acc) -> exists j, array_index k' = Some j /\ (j < i)%N) ->
  insert_index acc i k x = acc ++ [(k, x)].
Proof.
  induction acc as [|[k0 x0] acc IH]; simpl; intros H; [reflexivity|].
  destruct (H k0 (or_introl eq_refl)) as (j & Hj & Hlt). rewrite Hj.
  apply N.ltb_lt in Hlt. rewrite Hlt. f_equal. apply IH. intros k' Hin. apply H. auto.
Qed.

(** Defining the next property of an ordered list puts it last. *)
Lemma obj_set_last {A} (acc rem : list (string * A)) (k : string) (x : A) :
  ordered_from None (map fst (acc ++ (k, x) :: rem)) = true ->
  obj_set acc k x = acc ++ [(k, x)].
Proof.
  intros H. rewrite map_app in H. simpl in H.
  destruct (ordered_from_middle _ _ _ _ H) as [Hnot Hsmall].
  unfold obj_set.
  assert (Hget : assoc_get acc k = None).
  { clear -Hnot. induction acc as [|[k0 x0] acc IH]; simpl in *; [reflexivity|].
    destruct (String.eqb_spec k0 k) as [->|]; [tauto|]. apply IH. tauto. }
  rewrite Hget. destruct (array_index k) as [i|] eqn:Hi; [|reflexivity].
  apply insert_index_last. exact (Hsmall i eq_refl).
Qed.

(** ** The serializer and the document predicate, by cases *)

Lemma serialize_arr (indent : string) (es : list value) (ex : list (string * value)) :
  serialize indent (VArr es ex)
  = Some (wrap "[" "]" indent (indent +:+ "  ") (element_texts (indent +:+ "  ") es)).
Proof.
  cbn [serialize].
  match goal with
  | |- Some (wrap _ _ _ _ (?F es)) = _ =>
      assert (He : forall l, F l = element_texts (indent +:+ "  ") l)
  end.
  { induction l as [|x l IH]; [reflexivity|].
    unfold element_texts in *. cbn [map]. rewrite <- IH. reflexivity. }
  rewrite He. reflexivity.
Qed.

Lemma serialize_obj (indent : string) (ps : list (string * value)) :
  serialize indent (VObj ps)
  = Some (wrap "{" "}" indent (indent +:+ "  ") (member_texts (indent +:+ "  ") ps)).
Proof.
  cbn [serialize].
  match goal with
  | |- Some (wrap _ _ _ _ (?F ps)) = _ =>
      assert (He : forall l, F l = member_texts (indent +:+ "  ") l)
  end.
  { induction l as [|[k x] l IH]; [reflexivity|].
    cbn [member_texts]. rewrite <- IH. reflexivity. }
  rewrite He. reflexivity.
Qed.

Lemma json_arr (es : list value) (ex : list (string * value)) :
  json_document (VArr es ex) = true -> forallb json_document es = true /\ ex = [].
Proof.
  simpl. intros H. apply andb_true_iff in H as [He Hx]. split.
  - clear Hx. induction es as [|x es IH]; simpl in *; [reflexivity|].
    apply andb_true_iff in He as [H1 H2]. rewrite H1. simpl. auto.
  - destruct ex; [reflexivity|discriminate].
Qed.

Lemma json_obj (ps : list (string * value)) :
  json_document (VObj ps) = true ->
  forallb (fun kv => json_document (snd kv)) ps = true
  /\ ordered_from None (map fst ps) = true.
Proof.
  simpl. intros H. apply andb_true_iff in H as [Hf Ho]. split; [|exact Ho].
  clear Ho. induction ps as [|[k x] ps IH]; simpl in *; [reflexivity|].
  apply andb_true_iff in Hf as [H1 H2]. rewrite H1. simpl. auto.
Qed.

Lemma cost_arr (es : list value) (ex : list (string * value)) :
  cost (VArr es ex) = S (cost_elems es).
Proof.
  simpl. f_equal. unfold cost_elems.
  induction es as [|x es IH]; simpl; [reflexivity|]. rewrite IH. reflexivity.
Qed.

Lemma cost_obj (ps : list (string * value)) : cost (VObj ps) = S (cost_fields ps).
Proof.
  simpl. f_equal. unfold cost_fields.
  induction ps as [|[k x] ps IH]; simpl; [reflexivity|]. rewrite IH. reflexivity.
Qed.

Lemma cost_pos (v : value) : (1 <= cost v)%nat.
Proof. destruct v; simpl; lia. Qed.

(** ** The parser, by cases *)

Lemma parse_value_skip (fuel : nat) (s s' : string) :
  skip_ws s = skip_ws s' -> parse_value fuel s = parse_value fuel s'.
Proof. intros H. destruct fuel; simpl; [reflexivity|]. rewrite H. reflexivity. Qed.

Lemma parse_value_array (fuel : nat) (r : string) (c : ascii) (r' : string) :
  skip_ws r = String c r' -> (nat_of_ascii c =? 93)%nat = false ->
  parse_value (S fuel) (String "[" r)
  = rbind (parse_elements fuel r) (fun '(es, r'') => Ok (VArr es [], r'')).
Proof. intros H Hc. simpl. rewrite H, Hc. reflexivity. Qed.

Lemma parse_value_object (fuel : nat) (r : string) (c : ascii) (r' : string) :
  skip_ws r = String c r' -> (nat_of_ascii c =? 125)%nat = false ->
  parse_value (S fuel) (String "{" r)
  = rbind (parse_members fuel r []) (fun '(ps, r'') => Ok (VObj ps, r'')).
Proof. intros H Hc. simpl. rewrite H, Hc. reflexivity. Qed.

Lemma parse_elements_step (fuel : nat) (s : string) :
  parse_elements (S fuel) s =
  rbind (parse_value fuel s) (fun '(v, r) =>
  match skip_ws r with
  | String c r' =>
      if (nat_of_ascii c =? 44)%nat then
        rbind (parse_elements fuel r') (fun '(vs, r'') => Ok (v :: vs, r''))
      else if (nat_of_ascii c =? 93)%nat then Ok ([v], r')
      else Throw unexpected
  | EmptyString => Throw (syntax_error "Unexpected end of JSON input")
  end).
Proof. reflexivity. Qed.

Lemma parse_members_step (fuel : nat) (s : string) (acc : list (string * value)) :
  parse_members (S fuel) s acc =
  match skip_ws s with
  | String q r =>
      if (nat_of_ascii q =? 34)%nat then
        rbind (parse_chars r) (fun '(k, r1) =>
        match skip_ws r1 with
        | String colon r2 =>
            if (nat_of_ascii colon =? 58)%nat then
              rbind (parse_value fuel r2) (fun '(v, r3) =>
              let acc' := obj_set acc k v in
              match skip_ws r3 with
              | String c r4 =>
                  if (nat_of_ascii c =? 44)%nat then parse_members fuel r4 acc'
                  else if (nat_of_ascii c =? 125)%nat then Ok (acc', r4)
                  else Throw unexpected
              | EmptyString => Throw (syntax_error "Unexpected end of JSON input")
              end)
            else Throw unexpected
        | EmptyString => Throw (syntax_error "Unexpected end of JSON input")
        end)
      else Throw unexpected
  | EmptyString => Throw (syntax_error "Unexpected end of JSON input")
  end.
Proof. reflexivity. Qed.

(** The first character of the text of a document is no white space and
    closes no container. *)
Lemma serialize_head (indent : string) (v : value) :
  json_document v = true ->
  exists c t, serialize indent v = Some (String c t)
              /\ is_ws c = false
              /\ (nat_of_ascii c =? 93)%nat = false
              /\ (nat_of_ascii c =? 125)%nat = false.
Proof.
  destruct v as [| |[]|[z| | |]|s| |es ex|ps]; intros H; try discriminate.
  - eexists _, _. repeat split; reflexivity.
  - eexists _, _. repeat split; reflexivity.
  - eexists _, _. repeat split; reflexivity.
  - simpl serialize. unfold string_of_Z.
    destruct z as [|p|p]; simpl Z.to_int.
    + eexists _, _. repeat split; reflexivity.
    + destruct (to_uint_head p) as (c & t & Ht & Hc & Hz).
      unfold NilZero.string_of_int, NilZero.string_of_uint, digits_of in *.
      exists c, t. rewrite <- Ht. split.
      * destruct (Pos.to_uint p); try reflexivity. simpl in Ht. discriminate.
      * split; [apply digit_not_ws; exact Hc|].
        clear -Hc. destruct c as [[] [] [] [] [] [] [] []]; vm_compute in Hc |- *;
          first [discriminate Hc | split; reflexivity].
    + eexists _, _. repeat split; reflexivity.
  - eexists _, _. repeat split; reflexivity.
  - rewrite serialize_arr. unfold wrap.
    destruct (element_texts _ es); eexists _, _; repeat split; reflexivity.
  - rewrite serialize_obj. unfold wrap.
    destruct (member_texts _ ps); eexists _, _; repeat split; reflexivity.
Qed.

(** ** Reading back what was written *)

Lemma nl_append (s : string) : nl +:+ s = String newline s.
Proof. reflexivity. Qed.

Lemma skip_line (indent s : string) :
  spaces_only indent = true ->
  skip_ws (String newline (indent +:+ s)) = skip_ws s.
Proof. intros H. simpl. apply skip_ws_spaces. exact H. Qed.

Lemma delimited_newline (s : string) : delimited (String newline s).
Proof. right. reflexivity. Qed.

Lemma delimited_comma (s : string) : delimited (String "," s).
Proof. left. reflexivity. Qed.

(** The elements of a non-empty array, from the line break after the
    opening bracket to the closing bracket. *)
Lemma elements_read_back (es : list value) :
  Forall reads_back es -> forallb json_document es = true -> es <> [] ->
  forall indent fuel rest,
    spaces_only indent = true -> (cost_elems es <= fuel)%nat ->
    let inner := indent +:+ "  " in
    parse_elements fuel
      (String newline
         (inner +:+ (join ("," +:+ nl +:+ inner) (element_texts inner es)
            +:+ String newline (indent +:+ String "]" rest))))
    = Ok (es, rest).
Proof.
  induction 1 as [|x es Hx Hes IH]; intros Hj Hne indent fuel rest Hsp Hfuel inner;
    [contradiction|].
  simpl in Hj. apply andb_true_iff in Hj as [Hjx Hjes].
  assert (Hin : spaces_only inner = true) by (apply spaces_only_inner; exact Hsp).
  unfold cost_elems in Hfuel. simpl in Hfuel. fold (cost_elems es) in Hfuel.
  destruct fuel as [|fuel]; [lia|].
  rewrite parse_elements_step.
  destruct es as [|y es].
  - (* the last element *)
    destruct (Hx Hjx inner fuel (String newline (indent +:+ String "]" rest)) Hin
                ltac:(lia) (delimited_newline _)) as (tx & Htx & Hpx).
    unfold element_texts. simpl map. rewrite Htx. simpl default. simpl join.
    rewrite (parse_value_skip fuel _ (tx +:+ String newline (indent +:+ String "]" rest)))
      by (apply skip_line; exact Hin).
    rewrite Hpx. cbn [rbind]. rewrite (skip_line indent _ Hsp). reflexivity.
  - (* an element followed by others *)
    set (more := join ("," +:+ nl +:+ inner) (element_texts inner (y :: es))).
    set (tail := String newline (indent +:+ String "]" rest)).
    destruct (Hx Hjx inner fuel (String "," (String newline (inner +:+ (more +:+ tail))))
                Hin ltac:(lia) (delimited_comma _)) as (tx & Htx & Hpx).
    assert (Hjoin : join ("," +:+ nl +:+ inner) (element_texts inner (x :: y :: es))
                    = tx +:+ ("," +:+ nl +:+ inner) +:+ more).
    { unfold element_texts, more. simpl map. rewrite Htx. reflexivity. }
    rewrite Hjoin.
    replace ((tx +:+ ("," +:+ nl +:+ inner) +:+ more) +:+ tail)
      with (tx +:+ String "," (String newline (inner +:+ (more +:+ tail))))
      by (rewrite !append_assoc; reflexivity).
    rewrite (parse_value_skip fuel _
               (tx +:+ String "," (String newline (inner +:+ (more +:+ tail)))))
      by (apply skip_line; exact Hin).
    rewrite Hpx. cbn [rbind].
    change (skip_ws (String "," (String newline (inner +:+ (more +:+ tail)))))
      with (String "," (String newline (inner +:+ (more +:+ tail)))).
    cbv iota. change ((nat_of_ascii "," =? 44)%nat) with true. cbv iota.
    subst more tail inner.
    rewrite (IH Hjes ltac:(discriminate) indent fuel rest Hsp); [reflexivity|].
    unfold cost_elems in *. simpl in *. lia.
Qed.

Lemma quote_append (k rest : string) :
  quote k +:+ rest = String dquote (quote_chars k +:+ String dquote rest).
Proof. unfold quote. simpl. rewrite append_assoc. reflexivity. Qed.

(** The members of a non-empty object, from the line break after the
    opening brace to the closing brace. *)
Lemma members_read_back (rem : list (string * value)) :
  Forall (fun kv => reads_back (snd kv)) rem ->
  forallb (fun kv => json_document (snd kv)) rem = true -> rem <> [] ->
  forall acc indent fuel rest,
    spaces_only indent = true -> (cost_fields rem <= fuel)%nat ->
    ordered_from None (map fst (acc ++ rem)) = true ->
    let inner := indent +:+ "  " in
    parse_members fuel
      (String newline
         (inner +:+ (join ("," +:+ nl +:+ inner) (member_texts inner rem)
            +:+ String newline (indent +:+ String "}" rest))))
      acc
    = Ok (acc ++ rem, rest).
Proof.
  induction 1 as [|[k x] rem Hx Hrem IH];
    intros Hj Hne acc indent fuel rest Hsp Hfuel Hord inner; [contradiction|].
  simpl in Hj. apply andb_true_iff in Hj as [Hjx Hjrem]. simpl in Hx, Hjx.
  assert (Hin : spaces_only inner = true) by (apply spaces_only_inner; exact Hsp).
  unfold cost_fields in Hfuel. simpl in Hfuel. fold (cost_fields rem) in Hfuel.
  destruct fuel as [|fuel]; [lia|].
  pose proof (obj_set_last acc rem k x Hord) as Hset.
  rewrite parse_members_step.
  destruct rem as [|[k' y] rem].
  - (* the last member *)
    set (tail := String newline (indent +:+ String "}" rest)).
    destruct (Hx Hjx inner fuel tail Hin ltac:(lia) (delimited_newline _))
      as (tx & Htx & Hpx).
    cbn [member_texts]. rewrite Htx. cbn [join].
    replace ((quote k +:+ ": " +:+ tx) +:+ tail)
      with (String dquote (quote_chars k +:+ String dquote
                             (String ":" (String " " (tx +:+ tail)))))
      by (rewrite append_assoc, quote_append, append_assoc; reflexivity).
    rewrite (skip_line inner _ Hin).
    change (skip_ws (String dquote ?s)) with (String dquote s).
    cbv iota. change ((nat_of_ascii dquote =? 34)%nat) with true. cbv iota.
    rewrite parse_quote_chars. cbn [rbind].
    change (skip_ws (String ":" ?s)) with (String ":" s).
    cbv iota. change ((nat_of_ascii ":" =? 58)%nat) with true. cbv iota.
    rewrite (parse_value_skip fuel _ (tx +:+ tail)) by reflexivity.
    rewrite Hpx. cbn [rbind]. cbv zeta. rewrite Hset.
    unfold tail. rewrite (skip_line indent _ Hsp). reflexivity.
  - (* a member followed by others *)
    set (more := join ("," +:+ nl +:+ inner) (member_texts inner ((k', y) :: rem))).
    set (tail := String newline (indent +:+ String "}" rest)).
    destruct (Hx Hjx inner fuel (String "," (String newline (inner +:+ (more +:+ tail))))
                Hin ltac:(lia) (delimited_comma _)) as (tx & Htx & Hpx).
    assert (Hmore : exists m ms, member_texts inner ((k', y) :: rem) = m :: ms).
    { simpl in Hjrem. apply andb_true_iff in Hjrem as [Hjy _].
      destruct (serialize_head inner y Hjy) as (c & t & Hy & _).
      cbn [member_texts]. rewrite Hy. eauto. }
    destruct Hmore as (m & ms & Hmore).
    assert (Hjoin : join ("," +:+ nl +:+ inner) (member_texts inner ((k, x) :: (k', y) :: rem))
                    = (quote k +:+ ": " +:+ tx) +:+ ("," +:+ nl +:+ inner) +:+ more).
    { unfold more. cbn [member_texts] in *. rewrite Htx. rewrite Hmore. reflexivity. }
    rewrite Hjoin.
    replace (((quote k +:+ ": " +:+ tx) +:+ ("," +:+ nl +:+ inner) +:+ more) +:+ tail)
      with (String dquote (quote_chars k +:+ String dquote
              (String ":" (String " "
                 (tx +:+ String "," (String newline (inner +:+ (more +:+ tail))))))))
      by (rewrite !append_assoc, quote_append; reflexivity).
    rewrite (skip_line inner _ Hin).
    change (skip_ws (String dquote ?s)) with (String dquote s).
    cbv iota. change ((nat_of_ascii dquote =? 34)%nat) with true. cbv iota.
    rewrite parse_quote_chars. cbn [rbind].
    change (skip_ws (String ":" ?s)) with (String ":" s).
    cbv iota. change ((nat_of_ascii ":" =? 58)%nat) with true. cbv iota.
    rewrite (parse_value_skip fuel _
               (tx +:+ String "," (String newline (inner +:+ (more +:+ tail)))))
      by reflexivity.
    rewrite Hpx. cbn [rbind]. cbv zeta. rewrite Hset.
    change (skip_ws (String "," ?s)) with (String "," s).
    cbv iota. change ((nat_of_ascii "," =? 44)%nat) with true. cbv iota.
    subst more tail inner.
    rewrite (IH Hjrem ltac:(discriminate) (acc ++ [(k, x)]) indent fuel rest Hsp).
    + rewrite <- app_assoc. reflexivity.
    + unfold cost_fields in *. simpl in *. lia.
    + rewrite <- app_assoc. exact Hord.
Qed.

Lemma forallb_Forall {A} (f : A -> bool) (l : list A) :
  forallb f l = true -> Forall (fun x => f x = true) l.
Proof.
  induction l as [|x l IH]; simpl; intros H; constructor;
    apply andb_true_iff in H as [H1 H2]; auto.
Qed.

Lemma wrap_nonempty (opening closing stepback indent : string) (l : list string) :
  l <> [] ->
  wrap opening closing stepback indent l
  = opening +:+ nl +:+ indent +:+ join ("," +:+ nl +:+ indent) l
    +:+ nl +:+ stepback +:+ closing.
Proof. destruct l; [contradiction|reflexivity]. Qed.

(** Every document reads back from its text, whatever follows, at any
    indentation. *)
Lemma value_reads_back (v : value) : reads_back v.
Proof.
  induction v as [| |b|n|s| |es ex Hes Hex|ps Hps] using value_ind;
    intros Hj indent fuel rest Hsp Hfuel Hrest; try discriminate.
  - destruct fuel; [simpl in Hfuel; lia|]. exists "null". split; reflexivity.
  - destruct fuel; [simpl in Hfuel; lia|].
    destruct b; eexists; split; reflexivity.
  - destruct fuel; [simpl in Hfuel; lia|].
    destruct n as [z| | |]; try discriminate.
    exists (string_of_Z z). split; [reflexivity|].
    apply parse_value_number; assumption.
  - destruct fuel; [simpl in Hfuel; lia|].
    exists (quote s). split; [reflexivity|].
    rewrite quote_append.
    change (parse_value (S fuel) (String dquote ?r))
      with (rbind (parse_chars r) (fun '(str, r') => Ok (VStr str, r'))).
    rewrite parse_quote_chars. reflexivity.
  - (* arrays *)
    destruct (json_arr es ex Hj) as [Hjes ->].
    rewrite cost_arr in Hfuel. destruct fuel as [|fuel]; [lia|].
    rewrite serialize_arr. eexists. split; [reflexivity|].
    destruct es as [|x es]; [reflexivity|].
    rewrite wrap_nonempty by discriminate.
    set (texts := element_texts (indent +:+ "  ") (x :: es)).
    replace (("[" +:+ nl +:+ (indent +:+ "  ")
                +:+ join ("," +:+ nl +:+ indent +:+ "  ") texts
                +:+ nl +:+ indent +:+ "]") +:+ rest)
      with (String "[" (String newline
              ((indent +:+ "  ") +:+ (join ("," +:+ nl +:+ indent +:+ "  ") texts
                 +:+ String newline (indent +:+ String "]" rest)))))
      by (rewrite !append_assoc; reflexivity).
    assert (Hhead : exists c r', skip_ws (String newline
              ((indent +:+ "  ") +:+ (join ("," +:+ nl +:+ indent +:+ "  ") texts
                 +:+ String newline (indent +:+ String "]" rest)))) = String c r'
              /\ (nat_of_ascii c =? 93)%nat = false).
    { rewrite (skip_line _ _ (spaces_only_inner _ Hsp)).
      simpl in Hjes. apply andb_true_iff in Hjes as [Hjx _].
      destruct (serialize_head (indent +:+ "  ") x Hjx) as (c & t & Hx & Hws & Hb & _).
      subst texts. unfold element_texts. cbn [map]. rewrite Hx. simpl default.
      destruct (map _ es); simpl; rewrite Hws; eauto. }
    destruct Hhead as (c & r' & Hskip & Hc).
    rewrite (parse_value_array fuel _ c r' Hskip Hc).
    subst texts.
    rewrite (elements_read_back (x :: es) Hes Hjes ltac:(discriminate) indent fuel rest Hsp
               ltac:(lia)).
    reflexivity.
  - (* objects *)
    destruct (json_obj ps Hj) as [Hjps Hord].
    rewrite cost_obj in Hfuel. destruct fuel as [|fuel]; [lia|].
    rewrite serialize_obj. eexists. split; [reflexivity|].
    destruct ps as [|[k x] ps]; [reflexivity|].
    assert (Hm : exists m ms, member_texts (indent +:+ "  ") ((k, x) :: ps) = m :: ms
                              /\ exists t, m = quote k +:+ t).
    { simpl in Hjps. apply andb_true_iff in Hjps as [Hjx _].
      destruct (serialize_head (indent +:+ "  ") x Hjx) as (c & t & Hx & _).
      cbn [member_texts]. rewrite Hx. eauto. }
    destruct Hm as (m & ms & Hm & t & Hmt).
    rewrite wrap_nonempty by (rewrite Hm; discriminate).
    set (texts := member_texts (indent +:+ "  ") ((k, x) :: ps)).
    replace (("{" +:+ nl +:+ (indent +:+ "  ")
                +:+ join ("," +:+ nl +:+ indent +:+ "  ") texts
                +:+ nl +:+ indent +:+ "}") +:+ rest)
      with (String "{" (String newline
              ((indent +:+ "  ") +:+ (join ("," +:+ nl +:+ indent +:+ "  ") texts
                 +:+ String newline (indent +:+ String "}" rest)))))
      by (rewrite !append_assoc; reflexivity).
    assert (Hhead : exists c r', skip_ws (String newline
              ((indent +:+ "  ") +:+ (join ("," +:+ nl +:+ indent +:+ "  ") texts
                 +:+ String newline (indent +:+ String "}" rest)))) = String c r'
              /\ (nat_of_ascii c =? 125)%nat = false).
    { rewrite (skip_line _ _ (spaces_only_inner _ Hsp)).
      subst texts. rewrite Hm, Hmt.
      destruct ms; simpl; rewrite ?append_assoc, ?quote_append; simpl; eauto. }
    destruct Hhead as (c & r' & Hskip & Hc).
    rewrite (parse_value_object fuel _ c r' Hskip Hc).
    subst texts.
    rewrite (members_read_back ((k, x) :: ps) Hps Hjps ltac:(discriminate) [] indent fuel
               rest Hsp ltac:(lia) Hord).
    reflexivity.
Qed.

(** ** The fuel [JSON.parse] gives itself is enough *)

Lemma join_length (sep : string) (l : list string) :
  (1 <= String.length sep)%nat ->
  (sum_len l <= S (String.length (join sep l)))%nat.
Proof.
  intros Hsep. unfold sum_len.
  induction l as [|x [|y l] IH]; simpl in *; try lia.
  rewrite !FsFacts.append_length. lia.
Qed.

Lemma cost_le_length (v : value) :
  json_document v = true ->
  forall indent text, serialize indent v = Some text ->
  (cost v <= String.length text)%nat.
Proof.
  induction v as [| |b|n|s| |es ex Hes Hex|ps Hps] using value_ind;
    intros Hj indent text Htext; try discriminate;
    try (destruct (serialize_head indent _ Hj) as (c & t & Hh & _);
         rewrite Hh in Htext; inversion Htext; subst; simpl; lia).
  - destruct (json_arr es ex Hj) as [Hjes ->].
    rewrite cost_arr. rewrite serialize_arr in Htext. inversion Htext; subst. clear Htext.
    assert (Hsum : (cost_elems es <= sum_len (element_texts (indent +:+ "  ") es))%nat).
    { clear Hj. unfold cost_elems, sum_len, element_texts.
      induction Hes as [|x es Hx _ IH]; simpl in *; [lia|].
      apply andb_true_iff in Hjes as [Hjx Hjes].
      destruct (serialize_head (indent +:+ "  ") x Hjx) as (c & t & Hh & _).
      pose proof (Hx Hjx _ _ Hh) as Hc. rewrite Hh. simpl default.
      specialize (IH Hjes). lia. }
    destruct es as [|x es]; [cbv; lia|].
    rewrite wrap_nonempty by discriminate.
    pose proof (join_length ("," +:+ nl +:+ indent +:+ "  ")
                  (element_texts (indent +:+ "  ") (x :: es)) ltac:(simpl; lia)).
    set (j := join _ _) in *.
    rewrite !FsFacts.append_length. simpl String.length. lia.
  - destruct (json_obj ps Hj) as [Hjps _].
    rewrite cost_obj. rewrite serialize_obj in Htext. inversion Htext; subst. clear Htext.
    assert (Hsum : (cost_fields ps <= sum_len (member_texts (indent +:+ "  ") ps))%nat).
    { clear Hj. unfold cost_fields, sum_len.
      induction Hps as [|[k x] ps Hx _ IH]; [simpl; lia|].
      cbn [forallb snd] in Hjps. apply andb_true_iff in Hjps as [Hjx Hjps].
      destruct (serialize_head (indent +:+ "  ") x Hjx) as (c & t & Hh & _).
      pose proof (Hx Hjx _ _ Hh) as Hc. cbn [snd] in Hc.
      cbn [member_texts map list_sum snd]. rewrite Hh. cbn [map list_sum].
      rewrite !FsFacts.append_length. specialize (IH Hjps).
      change (list_sum (?a :: ?l)) with (a + list_sum l)%nat. lia. }
    destruct ps as [|[k x] ps]; [cbv; lia|].
    assert (Hne : member_texts (indent +:+ "  ") ((k, x) :: ps) <> []).
    { simpl in Hjps. apply andb_true_iff in Hjps as [Hjx _].
      destruct (serialize_head (indent +:+ "  ") x Hjx) as (c & t & Hh & _).
      cbn [member_texts]. rewrite Hh. discriminate. }
    rewrite (wrap_nonempty _ _ _ _ _ Hne).
    pose proof (join_length ("," +:+ nl +:+ indent +:+ "  ")
                  (member_texts (indent +:+ "  ") ((k, x) :: ps)) ltac:(simpl; lia)).
    set (j := join _ _) in *.
    rewrite !FsFacts.append_length. simpl String.length. lia.
Qed.

Lemma append_empty (s : string) : s +:+ "" = s.
Proof. induction s as [|c s IH]; simpl; [reflexivity|]. rewrite IH. reflexivity. Qed.

(** [JSON.parse (JSON.stringify (v, null, 2))] is [v] for every document. *)
Lemma parse_stringify (v : value) :
  json_document v = true ->
  exists text, stringify v = Some text /\ parse text = Ok v.
Proof.
  intros Hj. unfold stringify.
  destruct (serialize_head "" v Hj) as (c & t & Hh & _).
  exists (String c t). split; [exact Hh|].
  pose proof (cost_le_length v Hj "" _ Hh) as Hcost.
  destruct (value_reads_back v Hj "" (S (String.length (String c t))) "" eq_refl
              ltac:(lia) I) as (text & Htext & Hparse).
  rewrite Hh in Htext. inversion Htext; subst text.
  rewrite append_empty in Hparse. unfold parse. rewrite Hparse. reflexivity.
Qed.

End RoundTrip.

Module Persistence.
Import Runtime Eff Store Notions Samples RoundTrip.

(** X26.  The round trip on the documents this development describes: those
    built of [null], booleans, strings, integers within 2^53, arrays
    without named properties and objects.  Save a store that holds such a
    document, then load a new store on the same path: when no call fails,
    the save resolves and the new store holds the same document, is
    initialized and clean.  (Equal as values: same members in the same
    order.)  Documents with fractional numbers or [-0] are not covered. *)
Theorem save_then_load (st : store) (w : Fs.fs) (token token' : string)
  (factory : option (unit -> value)) :
  initialized st = true ->
  json_document (data st) = true ->
  Fs.dirname (filePath st) ∈ Fs.dirs w ->
  exists w1 loaded,
    JSONStore.save (Fs.calm token) (st, w) = ((set_dirty false st, w1), Ok tt)
    /\ JSONStore.load (Fs.calm token') (Store.new (filePath st) factory, w1)
       = ((loaded, w1), Ok tt)
    /\ data loaded = data st
    /\ initialized loaded = true
    /\ dirty loaded = false.
Proof.
  intros Hinit Hjson Hdir.
  destruct (parse_stringify (data st) Hjson) as (text & Htext & Hparse).
  exists (Fs.set_files
            (fun m => <[filePath st := text]> (delete (tmp_path (filePath st) token) m)) w).
  eexists. split; [|split].
  - unfold JSONStore.save, assertInitialized. eff_unfold. simpl.
    rewrite Hinit. simpl.
    rewrite (StoreFacts.writeAtomic_calm token (filePath st) (data st) text w Htext).
    reflexivity.
  - unfold JSONStore.load, JSONStore.readOrCreateDefault, Fs.access, Fs.readFile,
      Fs.inject, Store.new.
    eff_unfold. simpl.
    rewrite bool_decide_eq_true_2 by assumption. simpl.
    rewrite lookup_insert_eq. simpl. rewrite Hparse. simpl. reflexivity.
  - simpl. auto.
Qed.

Lemma save_then_load_witness :
  exists w1 loaded,
    JSONStore.load (Fs.calm "71c2") (Store.new "/data/ids.json" None, w1)
    = ((loaded, w1), Ok tt)
    /\ data loaded = data ids_store.
Proof.
  destruct (save_then_load ids_store data_disk "0b5e" "71c2" None eq_refl eq_refl
              FsFacts.data_dir_exists)
    as (w1 & loaded & _ & Hload & Hdata & _).
  exists w1, loaded. split; assumption.
Defined.

End Persistence.

(* ===================================================================== *)
(** * Writing, loading and reloading: further properties *)
(* ===================================================================== *)

Module WriteFacts.
Import Runtime Eff Store Notions Samples FsFacts.

(** A write that resolved has put the whole text under the target. *)
Lemma writeAtomic_resolved (e : Fs.env) (path : string) (d : value) (w w' : Fs.fs) :
  JSONStore.writeAtomic e path d w = (w', Ok tt) ->
  exists text, JSON.stringify d = Some text /\ Fs.files w' !! path = Some text.
Proof.
  assert (Hne : tmp_path path (Fs.uuid e) <> path) by apply tmp_path_fresh.
  unfold JSONStore.writeAtomic, text_of.
  unfold Fs.open, Fs.writeFile, Fs.sync, Fs.close, Fs.rename, Fs.unlink, Fs.inject.
  destruct e as [tok fa fr fo fw wr fs fc fn fu]; simpl in *.
  eff_unfold; simpl.
  destruct fo as [eo|], fc as [ec|], (JSON.stringify d) as [text|], fw as [ew|],
    fs as [es|], fn as [en|], fu as [eu|]; simpl in *;
    try destruct (Fs.files w !! tmp_path path tok) eqn:Htmp; simpl;
    repeat (rewrite ?lookup_insert_eq, ?lookup_delete_eq; simpl);
    intros H; try discriminate H.
  all: injection H as <-; eexists; (split; [reflexivity|]); apply lookup_insert_eq.
Qed.

(** X1.  [#writeAtomic] is all or nothing, whatever fails.  It touches no
    file but the target and its temporary file, and no directory.  When it
    resolves, no step has failed, the target holds the whole JSON text of
    the document and the temporary file is gone.  When it rejects, the
    target is as it was (never a partial text), and the error is the one of
    [open] or of the step that failed after it. *)
Theorem writeAtomic_all_or_nothing (e : Fs.env) (path : string) (d : value) (w : Fs.fs) :
  let tmp := tmp_path path (Fs.uuid e) in
  let out := JSONStore.writeAtomic e path d w in
  (forall other, other <> path -> other <> tmp ->
     Fs.files (fst out) !! other = Fs.files w !! other)
  /\ Fs.dirs (fst out) = Fs.dirs w
  /\ match snd out with
     | Ok _ =>
         Fs.fail_open e = None /\ failure_after_open e d = None
         /\ exists text, JSON.stringify d = Some text
                         /\ Fs.files (fst out) !! path = Some text
                         /\ Fs.files (fst out) !! tmp = None
     | Throw err =>
         Fs.files (fst out) !! path = Fs.files w !! path
         /\ (Fs.fail_open e = Some err
             \/ (Fs.fail_open e = None /\ failure_after_open e d = Some err))
     end.
Proof.
  intros tmp out.
  assert (Hne : tmp <> path) by apply tmp_path_fresh.
  subst out.
  unfold JSONStore.writeAtomic, failure_after_open, text_of in *. fold tmp.
  unfold Fs.open, Fs.writeFile, Fs.sync, Fs.close, Fs.rename, Fs.unlink, Fs.inject.
  destruct e as [tok fa fr fo fw wr fs fc fn fu]; simpl in *.
  eff_unfold; simpl.
  destruct fo as [eo|], fc as [ec|], (JSON.stringify d) as [text|], fw as [ew|],
    fs as [es|], fn as [en|], fu as [eu|]; simpl in *;
    try destruct (Fs.files w !! tmp) eqn:Htmp; simpl;
    repeat (rewrite ?lookup_insert_eq, ?lookup_delete_eq; simpl);
    repeat split; intros;
    repeat (first [ rewrite lookup_delete_ne by congruence
                  | rewrite lookup_insert_ne by congruence
                  | rewrite lookup_insert_eq | rewrite lookup_delete_eq ]; simpl);
    eauto.
Qed.

(** X2.  [save] on an initialized store writes the current document with
    [#writeAtomic] and nothing else.  It never changes the document; it
    clears the dirty flag when the write succeeded and only then: a save
    that rejects leaves the whole store as it was, with the error of the
    write. *)
Theorem save_outcome (e : Fs.env) (st : store) (w : Fs.fs) :
  let out := JSONStore.save e (st, w) in
  let written := JSONStore.writeAtomic e (filePath st) (data st) w in
  (initialized st = false -> out = ((st, w), Throw not_initialized))
  /\ (initialized st = true ->
      snd (fst out) = fst written
      /\ snd out = snd written
      /\ data (fst (fst out)) = data st
      /\ match snd out with
         | Ok _ => fst (fst out) = set_dirty false st
         | Throw _ => fst (fst out) = st
         end).
Proof.
  intros out written. subst out written.
  unfold JSONStore.save, assertInitialized. eff_unfold. simpl.
  split; intros Hinit; rewrite Hinit; simpl; [reflexivity|].
  destruct (JSONStore.writeAtomic e (filePath st) (data st) w) as [w' [[]|err]];
    simpl; repeat split; reflexivity.
Qed.





(** X6.  Before [load] has succeeded, every other operation of the store
    rejects with the not-initialized error and touches neither the store nor
    the disk; the path setters do so once their keys have passed the
    validation.  A store is in that state when it is constructed. *)
Theorem uninitialized_rejects (st : store) :
  initialized st = false ->
  (forall e w, JSONStore.reload e (st, w) = ((st, w), Throw not_initialized))
  /\ (forall e w, JSONStore.save e (st, w) = ((st, w), Throw not_initialized))
  /\ (forall u, JSONStore.update u st = (st, Throw not_initialized))
  /\ (forall e u w, JSONStore.updateAndSave e u (st, w) = ((st, w), Throw not_initialized))
  /\ (forall keys, JSONStore.getPath keys st = (st, Throw not_initialized))
  /\ (forall keys, JSONStore.hasPath keys st = (st, Throw not_initialized))
  /\ JSONStore.get_data st = (st, Throw not_initialized)
  /\ JSONStore._getDataSnapshot st = (st, Throw not_initialized)
  /\ (forall d, JSONStore._setData d st = (st, Throw not_initialized))
  /\ (forall keys v e w,
        Forall accepted keys -> keys <> [] ->
        JSONStore.setPath keys v st = (st, Throw not_initialized)
        /\ JSONStore.setPathAndSave e keys v (st, w) = ((st, w), Throw not_initialized))
  /\ (forall path factory, initialized (Store.new path factory) = false).
Proof.
  intros Hinit.
  assert (Hguard : assertInitialized st = (st, Throw not_initialized)).
  { unfold assertInitialized. rewrite Hinit. reflexivity. }
  repeat match goal with
  | |- _ /\ _ => split
  end; intros;
    unfold JSONStore.hasPath, JSONStore.getPath, JSONStore.reload, JSONStore.save,
      JSONStore.setPath, JSONStore.setPathAndSave, JSONStore.updateAndSave,
      JSONStore.update, JSONStore.get_data, JSONStore._getDataSnapshot,
      JSONStore._setData;
    eff_unfold; simpl; rewrite ?Hguard; try reflexivity.
  match goal with
  | Hk : Forall accepted ?keys |- _ =>
      destruct (PathFacts.validateKeys_from_accepted keys 0 Hk) as (ks & Hks & Hmap)
  end.
  unfold JSONStore.validateKeys. rewrite Hks.
  destruct ks; [subst; contradiction|]. simpl. rewrite Hguard. split; reflexivity.
Qed.

Lemma uninitialized_rejects_witness :
  JSONStore.save (Fs.calm "0b5e") (Store.new "/data/ids.json" None, data_disk)
  = ((Store.new "/data/ids.json" None, data_disk), Throw not_initialized).
Proof.
  exact (proj1 (proj2 (uninitialized_rejects (Store.new "/data/ids.json" None) eq_refl))
           (Fs.calm "0b5e") data_disk).
Defined.

(** [structuredClone] either returns its argument or fails on a symbol. *)
Lemma structuredClone_cases (v : value) :
  (structuredClone v = Ok v /\ symbol_free v = true)
  \/ (structuredClone v = Throw data_clone_error /\ symbol_free v = false).
Proof.
  induction v as [| | | | | |es ex Hes Hex|ps Hps] using value_ind;
    try (left; split; reflexivity); try (right; split; reflexivity).
  - rewrite Clone.symbol_free_arr. simpl.
    match goal with
    | |- (rbind (?F es) _ = _ /\ _) \/ _ =>
        assert (He : (F es = Ok es /\ elems_free es = true)
                     \/ (F es = Throw data_clone_error /\ elems_free es = false))
    end.
    { clear Hex. induction Hes as [|x l Hx _ IH]; simpl; [left; split; reflexivity|].
      destruct Hx as [[-> ->]|[-> ->]]; simpl; [|right; split; reflexivity].
      destruct IH as [[-> ->]|[-> ->]]; simpl; [left|right]; split; reflexivity. }
    destruct He as [[-> ->]|[-> ->]]; simpl; [|right; split; reflexivity].
    match goal with
    | |- (rbind (?G ex) _ = _ /\ _) \/ _ =>
        assert (Hx : (G ex = Ok ex /\ fields_free ex = true)
                     \/ (G ex = Throw data_clone_error /\ fields_free ex = false))
    end.
    { clear Hes. induction Hex as [|[k x] l Hx _ IH]; simpl in *;
        [left; split; reflexivity|].
      destruct Hx as [[-> ->]|[-> ->]]; simpl; [|right; split; reflexivity].
      destruct IH as [[-> ->]|[-> ->]]; simpl; [left|right]; split; reflexivity. }
    destruct Hx as [[-> ->]|[-> ->]]; simpl; [left|right]; split; reflexivity.
  - rewrite Clone.symbol_free_obj. simpl.
    match goal with
    | |- (rbind (?G ps) _ = _ /\ _) \/ _ =>
        assert (Hx : (G ps = Ok ps /\ fields_free ps = true)
                     \/ (G ps = Throw data_clone_error /\ fields_free ps = false))
    end.
    { induction Hps as [|[k x] l Hx _ IH]; simpl in *; [left; split; reflexivity|].
      destruct Hx as [[-> ->]|[-> ->]]; simpl; [|right; split; reflexivity].
      destruct IH as [[-> ->]|[-> ->]]; simpl; [left|right]; split; reflexivity. }
    destruct Hx as [[-> ->]|[-> ->]]; simpl; [left|right]; split; reflexivity.
Qed.

(** X7.  The [data] getter and [_getDataSnapshot] return the same thing: a
    copy equal to the document, leaving the store as it is; when a symbol
    sits anywhere in the document they throw the clone error instead.
    [_setData] replaces the document by its argument as given and marks the
    store dirty, and a snapshot taken next returns that argument. *)
Theorem snapshot_spec (st : store) :
  initialized st = true ->
  JSONStore.get_data st = JSONStore._getDataSnapshot st
  /\ JSONStore.get_data st
     = (st, if symbol_free (data st) then Ok (data st) else Throw data_clone_error)
  /\ (forall d,
        JSONStore._setData d st = (set_dirty true (set_data d st), Ok tt)
        /\ (symbol_free d = true ->
            JSONStore._getDataSnapshot (set_dirty true (set_data d st))
            = (set_dirty true (set_data d st), Ok d))).
Proof.
  intros Hinit.
  unfold JSONStore.get_data, JSONStore._getDataSnapshot, JSONStore._setData,
    assertInitialized.
  eff_unfold. simpl. rewrite Hinit. simpl.
  split; [reflexivity|]. split.
  - destruct (structuredClone_cases (data st)) as [[-> ->]|[-> ->]]; reflexivity.
  - intros d. split; [reflexivity|]. intros Hd.
    rewrite (Clone.symbol_free_clone d Hd). reflexivity.
Qed.

Lemma snapshot_spec_witness :
  JSONStore.get_data ids_store = (ids_store, Ok (data ids_store))
  /\ JSONStore.get_data tagged_store = (tagged_store, Throw data_clone_error).
Proof.
  split.
  - exact (proj1 (proj2 (snapshot_spec ids_store eq_refl))).
  - exact (proj1 (proj2 (snapshot_spec tagged_store eq_refl))).
Defined.

(** X8.  [updateAndSave] is [update] followed by [save], made atomic: on an
    initialized store whose document can be cloned, it resolves exactly when
    both do, with the store and the disk they leave; when [update] throws it
    rejects with that error and nothing changes; when [save] rejects it
    rejects with that error and takes the document and the dirty flag back
    to what they were before the call.  [setPathAndSave] relates to
    [setPath] in the same way. *)
Theorem updateAndSave_composes (e : Fs.env) (u : updater) (st : store) (w : Fs.fs) :
  initialized st = true -> cloneable (data st) ->
  JSONStore.updateAndSave e u (st, w) =
  match JSONStore.update u st with
  | (st1, Ok _) =>
      match JSONStore.save e (st1, w) with
      | (saved, Ok _) => (saved, Ok tt)
      | ((_, w2), Throw err) => ((st, w2), Throw err)
      end
  | (_, Throw err) => ((st, w), Throw err)
  end.
Proof.
  intros Hinit [c Hc].
  rewrite (StoreFacts.updateAndSave_unfold e u st w Hinit), Hc.
  pose proof (Clone.structuredClone_eq _ _ Hc) as ->.
  unfold JSONStore.update, JSONStore.save, assertInitialized, next_document.
  eff_unfold. simpl. rewrite Hinit. simpl.
  destruct u as [p|f]; simpl.
  - rewrite Hinit. simpl.
    destruct (JSONStore.writeAtomic e (filePath st) (spread (data st) p) w)
      as [w' [[]|werr]]; reflexivity.
  - rewrite Hc. simpl. destruct (f (data st)) as [d1|ferr]; simpl; [|reflexivity].
    rewrite Hinit. simpl.
    destruct (JSONStore.writeAtomic e (filePath st) d1 w) as [w' [[]|werr]]; reflexivity.
Qed.

Lemma updateAndSave_composes_witness :
  snd (JSONStore.updateAndSave failing_write (Partial (VObj [("count", VNum (Fin 2))]))
         (ids_store, old_disk))
  = Throw (SystemError "ENOSPC" "no space left on device").
Proof.
  rewrite (updateAndSave_composes failing_write
             (Partial (VObj [("count", VNum (Fin 2))])) ids_store old_disk eq_refl
             (ex_intro _ (data ids_store) eq_refl)).
  vm_compute. reflexivity.
Defined.

End WriteFacts.

(* ===================================================================== *)
(** * Paths: reading back and leaving alone *)
(* ===================================================================== *)

Module PathMore.
Import Runtime Eff Store Notions Samples Shapes Clone StoreFacts PathFacts.
Import JSONStore.

(** ** Reading back what was assigned *)

Lemma length_elems_resize (es : list value) (n : nat) :
  length (elems_resize es n) = n.
Proof.
  revert es. induction n as [|n IH]; intros [|e es]; simpl; auto.
Qed.

(** A successful assignment is to a container, and the property then reads
    as assigned. *)
Lemma set_prop_get (c c' : value) (k : string) (y : value) :
  set_prop c k y = Ok c' ->
  is_container c = true /\ is_container c' = true /\ get_prop c' k = Ok y.
Proof.
  destruct c as [| | | | | |es ex|ps]; simpl; try discriminate.
  - destruct (array_index k) as [i|] eqn:Hi.
    + intros [= <-]. simpl. rewrite Hi, nth_elems_set. auto.
    + destruct (String.eqb k "length") eqn:Hl.
      * destruct y as [| | |[z| | |]| | | |]; try discriminate.
        destruct ((0 <=? z)%Z && (z <=? max_array_index)%Z) eqn:Hz; [|discriminate].
        intros [= <-]. simpl. rewrite Hi, Hl, length_elems_resize.
        apply andb_true_iff in Hz as [Hz _]. apply Z.leb_le in Hz.
        rewrite Z2Nat.id by assumption. auto.
      * intros [= <-]. simpl. rewrite Hi, Hl, obj_set_get, String.eqb_refl. auto.
  - intros [= <-]. simpl. rewrite obj_set_get, String.eqb_refl. auto.
Qed.

Lemma walk_step (c : value) (k : key) (rest : list key) :
  is_container c = true ->
  walk c (k :: rest) = rbind (get_prop c (prop_name k)) (fun next => walk next rest).
Proof.
  intros Hc. simpl. rewrite traversable_container, Hc. reflexivity.
Qed.

Lemma walk_off (c : value) (k : key) (rest : list key) :
  is_container c = false -> walk c (k :: rest) = Ok VUndef.
Proof.
  intros Hc. simpl. rewrite traversable_container, Hc. reflexivity.
Qed.

(** [#setAtPath], when it returns, leaves the value at the end of the path. *)
Lemma setAtPath_from_walk (keys : list key) :
  forall (walked : list key) (cur cur' v : value),
    keys <> [] ->
    setAtPath_from walked cur keys v = Ok cur' ->
    is_container cur = true /\ is_container cur' = true /\ walk cur' keys = Ok v.
Proof.
  induction keys as [|k keys IH]; intros walked cur cur' v Hne Hset; [contradiction|].
  destruct keys as [|nk rest].
  - simpl in Hset. destruct (set_prop_get _ _ _ _ Hset) as (Hc & Hc' & Hg).
    split; [exact Hc|]. split; [exact Hc'|].
    rewrite (walk_step _ _ _ Hc'), Hg. reflexivity.
  - rewrite setAtPath_from_step in Hset.
    destruct (get_prop cur (prop_name k)) as [child|] eqn:Hg; [|discriminate].
    cbn [rbind] in Hset.
    match type of Hset with
    | rbind ?R _ = _ => destruct R as [current'|] eqn:Hcur; [|discriminate]
    end.
    cbn [rbind] in Hset.
    destruct (get_prop current' (prop_name k)) as [next|] eqn:Hg'; [|discriminate].
    cbn [rbind] in Hset.
    rewrite traversable_container in Hset.
    destruct (is_container next) eqn:Hn; [|discriminate]. cbn [negb] in Hset.
    destruct (setAtPath_from (walked ++ [k]) next (nk :: rest) v) as [next'|] eqn:Hrec;
      [|discriminate].
    cbn [rbind] in Hset.
    destruct (IH _ _ _ _ ltac:(discriminate) Hrec) as (_ & Hn' & Hw).
    destruct (set_prop_get _ _ _ _ Hset) as (Hc1 & Hc' & Hgk).
    assert (Hc : is_container cur = true).
    { destruct (nullish child) eqn:Hnull.
      - destruct nk; [|discriminate].
        destruct (set_prop_get _ _ _ _ Hcur) as (Hc & _). exact Hc.
      - inversion Hcur; subst. exact Hc1. }
    split; [exact Hc|]. split; [exact Hc'|].
    rewrite (walk_step _ _ _ Hc'), Hgk. exact Hw.
Qed.

(** What a successful [setPath] has done. *)
Lemma setPath_inv (st st' : store) (keys : list value) (v : value) :
  setPath keys v st = (st', Ok tt) ->
  exists ks d',
    validateKeys keys = Ok ks /\ map key_value ks = keys /\ ks <> []
    /\ initialized st = true
    /\ cloneable (data st)
    /\ setAtPath (data st) ks v = Ok d'
    /\ st' = set_dirty true (set_data d' st).
Proof.
  unfold setPath, update, assertInitialized. eff_unfold.
  destruct (validateKeys keys) as [ks|] eqn:Hv; simpl; [|discriminate].
  assert (Hmap : map key_value ks = keys).
  { unfold validateKeys in Hv.
    destruct (validateKeys_from_accepted keys 0 (validateKeys_from_ok _ _ _ Hv))
      as (ks' & Hks' & Hmap).
    congruence. }
  destruct ks as [|k ks]; simpl; [discriminate|].
  destruct (initialized st) eqn:Hinit; simpl; [|discriminate].
  destruct (structuredClone (data st)) as [c|] eqn:Hc; simpl; [|discriminate].
  pose proof (structuredClone_eq _ _ Hc) as ->.
  destruct (setAtPath (data st) (k :: ks) v) as [d'|] eqn:Hs; simpl; [|intros [=]].
  intros [= <-]. exists (k :: ks), d'.
  repeat (split; [first [reflexivity | assumption | discriminate | eexists; eassumption]|]).
  reflexivity.
Qed.

(** What a successful [setPathAndSave] has done. *)
Lemma setPathAndSave_inv (e : Fs.env) (st st' : store) (w w' : Fs.fs)
  (keys : list value) (v : value) :
  setPathAndSave e keys v (st, w) = ((st', w'), Ok tt) ->
  exists ks d',
    map key_value ks = keys /\ ks <> []
    /\ initialized st = true
    /\ setAtPath (data st) ks v = Ok d'
    /\ st' = set_dirty false (set_data d' st)
    /\ writeAtomic e (filePath st) d' w = (w', Ok tt).
Proof.
  unfold setPathAndSave. eff_unfold.
  destruct (validateKeys keys) as [ks|] eqn:Hv; simpl; [|discriminate].
  assert (Hmap : map key_value ks = keys).
  { unfold validateKeys in Hv.
    destruct (validateKeys_from_accepted keys 0 (validateKeys_from_ok _ _ _ Hv))
      as (ks' & Hks' & Hmap).
    congruence. }
  destruct ks as [|k ks]; simpl; [discriminate|].
  destruct (initialized st) eqn:Hinit.
  2:{ unfold updateAndSave, assertInitialized. eff_unfold. simpl. rewrite Hinit.
      simpl. discriminate. }
  rewrite (updateAndSave_unfold e _ st w Hinit). unfold next_document.
  destruct (structuredClone (data st)) as [c|] eqn:Hc; [|discriminate].
  pose proof (structuredClone_eq _ _ Hc) as ->. simpl.
  destruct (setAtPath (data st) (k :: ks) v) as [d'|] eqn:Hs; [|discriminate].
  destruct (writeAtomic e (filePath st) d' w) as [w2 [[]|werr]] eqn:Hw; [|discriminate].
  intros [= <- <-]. exists (k :: ks), d'.
  repeat (split; [first [reflexivity | assumption | discriminate]|]). assumption.
Qed.

Lemma getPath_unfold (st : store) (ks : list key) :
  initialized st = true ->
  getPath (map key_value ks) st = (st, walk (data st) ks).
Proof.
  intros Hinit. unfold getPath, assertInitialized. eff_unfold.
  rewrite Hinit, validateKeys_key_value. reflexivity.
Qed.

Lemma hasPath_unfold (st : store) (ks : list key) (v : value) :
  initialized st = true -> walk (data st) ks = Ok v ->
  hasPath (map key_value ks) st = (st, Ok (if v is VUndef then false else true)).
Proof.
  intros Hinit Hw. unfold hasPath. eff_unfold.
  rewrite (getPath_unfold st ks Hinit), Hw. reflexivity.
Qed.

(** X9.  What [setPath] has stored, [getPath] returns.  For keys that
    address own properties (no string among them is a name that objects or
    arrays inherit, the numbers are integers within 2^53), and unless the
    path ends in [length] and the value is no number: after a successful
    [setPath (keys, value)] the same keys read that value, and [hasPath]
    says the path exists unless the value is [undefined]; the store is
    dirty.  The same holds after a successful [setPathAndSave], which
    leaves the same document and a clean store. *)
Theorem setPath_then_getPath (st st' : store) (path : list key) (v : value) :
  setPath (map key_value path) v st = (st', Ok tt) ->
  own_keys path = true ->
  ends_in_length path = false \/ (exists n, v = VNum n) ->
  getPath (map key_value path) st' = (st', Ok v)
  /\ hasPath (map key_value path) st' = (st', Ok (if v is VUndef then false else true))
  /\ dirty st' = true
  /\ (forall e w saved w',
        setPathAndSave e (map key_value path) v (st, w) = ((saved, w'), Ok tt) ->
        saved = set_dirty false st'
        /\ getPath (map key_value path) saved = (saved, Ok v)).
Proof.
  intros Hset _ _. remember (map key_value path) as keys eqn:Hkeys. clear Hkeys path.
  destruct (setPath_inv _ _ _ _ Hset) as (ks & d' & Hv & Hmap & Hne & Hinit & Hcl & Hs & ->).
  destruct (setAtPath_from_walk ks [] (data st) d' v Hne Hs) as (_ & _ & Hw).
  subst keys.
  split; [rewrite getPath_unfold by exact Hinit; simpl; rewrite Hw; reflexivity|].
  split; [apply hasPath_unfold; [exact Hinit|exact Hw]|].
  split; [reflexivity|].
  intros e w saved w' Hsave.
  unfold setPathAndSave in Hsave. eff_unfold. rewrite Hv in Hsave. simpl in Hsave.
  destruct ks as [|k ks]; [contradiction|]. simpl in Hsave.
  rewrite (updateAndSave_unfold e _ st w Hinit) in Hsave.
  destruct Hcl as [c Hc]. rewrite Hc in Hsave. unfold next_document in Hsave.
  rewrite Hc in Hsave. pose proof (structuredClone_eq _ _ Hc) as ->.
  simpl in Hsave. rewrite Hs in Hsave.
  destruct (writeAtomic e (filePath st) d' w) as [w2 [[]|werr]]; [|discriminate].
  inversion Hsave; subst. split; [reflexivity|].
  rewrite getPath_unfold by exact Hinit.
  change (data (set_dirty false (set_data d' st))) with d'. rewrite Hw. reflexivity.
Qed.

Lemma setPath_then_getPath_witness :
  getPath [VStr "a"; VStr "b"]
    (set_dirty true (set_data (VObj [("a", VObj [("b", VNum (Fin 1))])]) (store_of (VObj []))))
  = (set_dirty true (set_data (VObj [("a", VObj [("b", VNum (Fin 1))])]) (store_of (VObj []))),
     Ok (VNum (Fin 1))).
Proof.
  exact (proj1 (setPath_then_getPath (store_of (VObj [])) _ [KStr "a"; KStr "b"]
                  (VNum (Fin 1)) eq_refl eq_refl (or_introl eq_refl))).
Defined.

(** ** Reading never fails *)

Lemma get_prop_container (c : value) (k : string) :
  is_container c = true -> exists x, get_prop c k = Ok x.
Proof.
  destruct c as [| | | | | |es ex|ps]; try discriminate; intros _; simpl.
  - destruct (array_index k); [eauto|]. destruct (String.eqb k "length"); eauto.
  - eauto.
Qed.

Lemma walk_total (ks : list key) : forall c, exists v, walk c ks = Ok v.
Proof.
  induction ks as [|k ks IH]; intros c; [simpl; eauto|].
  destruct (is_container c) eqn:Hc.
  - rewrite (walk_step _ _ _ Hc).
    destruct (get_prop_container c (prop_name k) Hc) as (x & ->). simpl. apply IH.
  - rewrite (walk_off _ _ _ Hc). eauto.
Qed.




(** ** Array indices are canonical *)

Lemma digit_cases (c : ascii) :
  is_digit c = true ->
  In c ["0"; "1"; "2"; "3"; "4"; "5"; "6"; "7"; "8"; "9"]%char.
Proof.
  destruct c as [[] [] [] [] [] [] [] []]; vm_compute; intros H;
    first [discriminate | tauto].
Qed.

Lemma digits_uint (s : string) :
  all_chars is_digit s = true -> exists d, digits_of d = s.
Proof.
  induction s as [|c s IH]; simpl; [exists Decimal.Nil; reflexivity|].
  intros H. apply andb_true_iff in H as [Hc Hs].
  destruct (IH Hs) as (d & <-).
  destruct (digit_cases c Hc) as [<-|[<-|[<-|[<-|[<-|[<-|[<-|[<-|[<-|[<-|[]]]]]]]]]]].
  - exists (Decimal.D0 d). reflexivity.
  - exists (Decimal.D1 d). reflexivity.
  - exists (Decimal.D2 d). reflexivity.
  - exists (Decimal.D3 d). reflexivity.
  - exists (Decimal.D4 d). reflexivity.
  - exists (Decimal.D5 d). reflexivity.
  - exists (Decimal.D6 d). reflexivity.
  - exists (Decimal.D7 d). reflexivity.
  - exists (Decimal.D8 d). reflexivity.
  - exists (Decimal.D9 d). reflexivity.
Qed.

Lemma digits_of_nil (d : Decimal.uint) : digits_of d = "" -> d = Decimal.Nil.
Proof. destruct d; simpl; [reflexivity|discriminate..]. Qed.

(** An array index is the canonical rendering of its number. *)
Lemma array_index_canonical (k : string) (i : N) :
  array_index k = Some i ->
  exists d, digits_of d = k /\ Decimal.unorm d = d /\ i = N.of_uint d.
Proof.
  unfold array_index. destruct k as [|c rest]; [discriminate|].
  destruct (all_chars is_digit (String c rest)) eqn:Hd; [|discriminate].
  destruct (negb (Ascii.eqb c "0") || String.eqb rest "") eqn:Hz; [|discriminate].
  simpl andb.
  match goal with
  | |- (if ?b then _ else _) = _ -> _ => destruct b; [|discriminate]
  end.
  intros [= <-].
  destruct (digits_uint _ Hd) as (d & Hk). exists d. split; [exact Hk|].
  split.
  - apply orb_true_iff in Hz as [Hz|Hz].
    + apply negb_true_iff in Hz.
      destruct d; simpl in Hk; try reflexivity; try discriminate.
      inversion Hk; subst. discriminate.
    + apply String.eqb_eq in Hz. subst rest.
      destruct d; simpl in Hk; try discriminate; inversion Hk as [[Hc Hr]];
        apply digits_of_nil in Hr; subst; reflexivity.
  - change (digits_val (10 * 0 + digit_val c) rest) with (digits_val 0 (String c rest)).
    rewrite <- Hk, RoundTrip.digits_val_0, N2Z.id. reflexivity.
Qed.

Lemma array_index_inj (k k' : string) (i : N) :
  array_index k = Some i -> array_index k' = Some i -> k = k'.
Proof.
  intros H H'.
  destruct (array_index_canonical _ _ H) as (d & <- & Hn & Hi).
  destruct (array_index_canonical _ _ H') as (d' & <- & Hn' & Hi').
  assert (Hd : Decimal.unorm d = Decimal.unorm d').
  { apply DecimalN.Unsigned.of_inj. congruence. }
  congruence.
Qed.

(** ** Assigning one property leaves the others *)

Lemma nth_elems_set_other (es : list value) (i j : nat) (x : value) :
  i <> j -> nth j (elems_set es i x) VUndef = nth j es VUndef.
Proof.
  revert es j. induction i as [|i IH]; intros [|e es] [|j] Hne; simpl; auto;
    try contradiction.
  - destruct j; reflexivity.
  - rewrite IH by congruence. destruct j; reflexivity.
Qed.

(** The length of an array depends on its indices, and its indices on its
    length; any other two properties of a container are independent. *)
Lemma set_prop_other (c c' : value) (k k' : string) (y : value) :
  set_prop c k y = Ok c' -> k' <> k ->
  (forall es ex, c <> VArr es ex) \/ (k <> "length" /\ k' <> "length") ->
  get_prop c' k' = get_prop c k'.
Proof.
  intros Hset Hne Hside.
  assert (Hkk : String.eqb k k' = false) by (apply String.eqb_neq; congruence).
  destruct c as [| | | | | |es ex|ps]; simpl in Hset; try discriminate.
  - destruct Hside as [Hno|[Hk Hk']]; [destruct (Hno es ex eq_refl)|].
    apply String.eqb_neq in Hk, Hk'.
    destruct (array_index k) as [i|] eqn:Hi.
    + inversion Hset; subst. simpl.
      destruct (array_index k') as [j|] eqn:Hj; [|rewrite Hk'; reflexivity].
      rewrite nth_elems_set_other; [reflexivity|].
      intros Heq. apply N2Nat.inj in Heq. subst j.
      apply Hne. symmetry. eapply array_index_inj; eassumption.
    + rewrite Hk in Hset. inversion Hset; subst. simpl.
      destruct (array_index k'); [reflexivity|].
      rewrite Hk', obj_set_get, Hkk. reflexivity.
  - inversion Hset; subst. simpl. rewrite obj_set_get, Hkk. reflexivity.
Qed.

Lemma set_prop_object (c c' : value) (k : string) (y : value) :
  set_prop c k y = Ok c' -> (forall es ex, c <> VArr es ex) ->
  forall es ex, c' <> VArr es ex.
Proof.
  destruct c as [| | | | | |es0 ex0|ps]; simpl; try discriminate.
  - intros _ Hno. destruct (Hno es0 ex0 eq_refl).
  - intros [= <-] _ es ex. discriminate.
Qed.

Lemma walk_undefined (ks : list key) : walk VUndef ks = Ok VUndef.
Proof. destruct ks; reflexivity. Qed.

Lemma walk_empty_object (ks : list key) : ks <> [] -> walk (VObj []) ks = Ok VUndef.
Proof.
  destruct ks as [|k ks]; [contradiction|]. intros _.
  rewrite walk_step by reflexivity. simpl get_prop. cbn [rbind default].
  apply walk_undefined.
Qed.

(** [#setAtPath] changes nothing off the path it walks. *)
Lemma setAtPath_from_frame (pre : list key) :
  forall (walked : list key) (cur cur' : value) (k k' : key) (rest rest' : list key)
         (v : value),
    setAtPath_from walked cur (pre ++ k :: rest) v = Ok cur' ->
    prop_name k' <> prop_name k ->
    (forall es ex, walk cur pre <> Ok (VArr es ex))
    \/ (prop_name k <> "length" /\ prop_name k' <> "length") ->
    walk cur' (pre ++ k' :: rest') = walk cur (pre ++ k' :: rest').
Proof.
  induction pre as [|kp pre IH]; intros walked cur cur' k k' rest rest' v Hset Hne Hside.
  - simpl app in *.
    destruct (setAtPath_from_walk (k :: rest) walked cur cur' v ltac:(discriminate) Hset)
      as (Hc & Hc' & _).
    rewrite (walk_step _ _ _ Hc), (walk_step _ _ _ Hc'). f_equal.
    assert (Hside' : (forall es ex, cur <> VArr es ex)
                     \/ (prop_name k <> "length" /\ prop_name k' <> "length")).
    { destruct Hside as [Hno|Hl]; [left|right; exact Hl].
      intros es ex ->. exact (Hno es ex eq_refl). }
    destruct rest as [|nk rest].
    + simpl in Hset. eapply set_prop_other; eassumption.
    + rewrite setAtPath_from_step in Hset.
      destruct (get_prop cur (prop_name k)) as [child|] eqn:Hg; [|discriminate].
      cbn [rbind] in Hset.
      match type of Hset with
      | rbind ?R _ = _ => destruct R as [current'|] eqn:Hcur; [|discriminate]
      end.
      cbn [rbind] in Hset.
      destruct (get_prop current' (prop_name k)) as [next|] eqn:Hg'; [|discriminate].
      cbn [rbind] in Hset.
      rewrite traversable_container in Hset.
      destruct (is_container next) eqn:Hn; [|discriminate]. cbn [negb] in Hset.
      destruct (setAtPath_from (walked ++ [k]) next (nk :: rest) v) as [next'|];
        [|discriminate].
      cbn [rbind] in Hset.
      destruct (nullish child).
      * destruct nk; [|discriminate].
        rewrite (set_prop_other _ _ _ _ _ Hset Hne).
        -- eapply set_prop_other; eassumption.
        -- destruct Hside' as [Hno|Hl]; [left|right; exact Hl].
           eapply set_prop_object; eassumption.
      * inversion Hcur; subst. eapply set_prop_other; eassumption.
  - assert (Hcons : exists nk more, pre ++ k :: rest = nk :: more).
    { destruct pre; simpl; eauto. }
    destruct Hcons as (nk & more & Hcons).
    change ((kp :: pre) ++ k :: rest) with (kp :: (pre ++ k :: rest)) in Hset.
    destruct (setAtPath_from_walk (kp :: (pre ++ k :: rest)) walked cur cur' v
                ltac:(discriminate) Hset)
      as (Hc & Hc' & _).
    rewrite Hcons in Hset. rewrite setAtPath_from_step in Hset. rewrite <- Hcons in Hset.
    change ((kp :: pre) ++ k' :: rest') with (kp :: (pre ++ k' :: rest')).
    rewrite (walk_step _ _ _ Hc), (walk_step _ _ _ Hc').
    rewrite (walk_step _ _ _ Hc) in Hside.
    destruct (get_prop cur (prop_name kp)) as [child|] eqn:Hg; [|discriminate].
    cbn [rbind] in Hset, Hside |- *.
    match type of Hset with
    | rbind ?R _ = _ => destruct R as [current'|] eqn:Hcur; [|discriminate]
    end.
    cbn [rbind] in Hset.
    destruct (get_prop current' (prop_name kp)) as [next|] eqn:Hg'; [|discriminate].
    cbn [rbind] in Hset.
    rewrite traversable_container in Hset.
    destruct (is_container next) eqn:Hn; [|discriminate]. cbn [negb] in Hset.
    destruct (setAtPath_from (walked ++ [kp]) next (pre ++ k :: rest) v) as [next'|] eqn:Hrec;
      [|discriminate].
    cbn [rbind] in Hset.
    destruct (set_prop_get _ _ _ _ Hset) as (_ & _ & Hgk). rewrite Hgk. cbn [rbind].
    destruct (nullish child) eqn:Hnull.
    + destruct nk; [|discriminate].
      destruct (set_prop_get _ _ _ _ Hcur) as (_ & _ & Hgc).
      rewrite Hgc in Hg'. inversion Hg'; subst next.
      rewrite (IH _ _ _ _ _ _ rest' _ Hrec Hne).
      * rewrite walk_empty_object by (destruct pre; discriminate).
        assert (Hoff : is_container child = false)
          by (destruct child; simpl in *; congruence).
        destruct (pre ++ k' :: rest') as [|a l] eqn:E; [destruct pre; discriminate|].
        rewrite (walk_off _ _ _ Hoff). reflexivity.
      * left. intros es ex. destruct pre as [|a l]; [discriminate|].
        rewrite walk_empty_object by discriminate. discriminate.
    + inversion Hcur; subst current'.
      assert (next = child) by congruence. subst next.
      exact (IH _ _ _ _ _ _ rest' _ Hrec Hne Hside).
Qed.

(** X11.  [setPath] changes nothing beside the path it writes: a path that
    shares the first keys with the written one and then goes on with another
    property reads after a successful [setPath] what it read before.  This
    is for paths, the written one and the one read, whose keys address own
    properties: no string among them is a name that objects or arrays
    inherit, and the numbers are integers within 2^53.  (The two properties
    where the paths part must not be [length]: the length of an array and
    its indices depend on each other.) *)
Theorem setPath_keeps_other_paths (st st' : store) (pre rest rest' : list key)
  (k k' : key) (v : value) :
  setPath (map key_value (pre ++ k :: rest)) v st = (st', Ok tt) ->
  own_keys (pre ++ k :: rest) = true ->
  own_keys (pre ++ k' :: rest') = true ->
  prop_name k' <> prop_name k ->
  prop_name k <> "length" -> prop_name k' <> "length" ->
  snd (getPath (map key_value (pre ++ k' :: rest')) st')
  = snd (getPath (map key_value (pre ++ k' :: rest')) st).
Proof.
  intros Hset _ _ Hne Hk Hk'.
  destruct (setPath_inv _ _ _ _ Hset) as (ks & d' & Hv & Hmap & _ & Hinit & _ & Hs & ->).
  rewrite validateKeys_key_value in Hv. inversion Hv; subst ks.
  rewrite !getPath_unfold by exact Hinit. simpl snd.
  change (data (set_dirty true (set_data d' st))) with d'.
  exact (setAtPath_from_frame pre [] (data st) d' k k' rest rest' v Hs Hne
           (or_intror (conj Hk Hk'))).
Qed.

Lemma setPath_keeps_other_paths_witness :
  snd (getPath [VStr "projects"; VStr "P-1"]
         (set_dirty true
            (set_data
               (VObj [("projects", VObj [("P-1", VStr "N-7"); ("P-2", VStr "N-8")]);
                      ("count", VNum (Fin 1))])
               ids_store)))
  = snd (getPath [VStr "projects"; VStr "P-1"] ids_store).
Proof.
  apply (setPath_keeps_other_paths ids_store _ [KStr "projects"] [] []
           (KStr "P-2") (KStr "P-1") (VStr "N-8") eq_refl eq_refl eq_refl); discriminate.
Defined.

(** ** Documents without arrays *)

Lemma no_arrays_obj (ps : list (string * value)) :
  no_arrays (VObj ps) = fields_plain ps.
Proof.
  simpl.
  match goal with
  | |- ?G ps = _ => assert (Hx : forall l, G l = fields_plain l)
  end.
  - induction l as [|[k x] l IH]; simpl; [reflexivity|]. rewrite IH. reflexivity.
  - apply Hx.
Qed.

Lemma no_arrays_get (c x : value) (k : string) :
  no_arrays c = true -> get_prop c k = Ok x -> no_arrays x = true.
Proof.
  intros Hc. destruct c as [| | | | | |es ex|ps]; simpl; try discriminate;
    try (intros [= <-]; reflexivity).
  - destruct (array_index k).
    + unfold char_at. destruct (String.get (N.to_nat n) s); intros [= <-]; reflexivity.
    + destruct (String.eqb k "length"); intros [= <-]; reflexivity.
  - rewrite no_arrays_obj in Hc. intros [= <-].
    unfold fields_plain in Hc. rewrite forallb_forall in Hc.
    induction ps as [|[k' y] ps IH]; simpl; [reflexivity|].
    destruct (String.eqb k' k).
    + exact (Hc (k', y) (or_introl eq_refl)).
    + apply IH. intros kv Hin. apply Hc. right. exact Hin.
Qed.

Lemma no_arrays_walk (ks : list key) :
  forall c x, no_arrays c = true -> walk c ks = Ok x -> no_arrays x = true.
Proof.
  induction ks as [|k ks IH]; intros c x Hc; simpl.
  - intros [= <-]. exact Hc.
  - destruct (nullish c || negb (String.eqb (typeof c) "object")); [intros [= <-]; reflexivity|].
    destruct (get_prop c (prop_name k)) as [next|] eqn:Hg; simpl; [|discriminate].
    apply IH. eapply no_arrays_get; eassumption.
Qed.

Lemma no_arrays_on_path (c : value) (ks : list key) :
  no_arrays c = true -> forall es ex, walk c ks <> Ok (VArr es ex).
Proof.
  intros Hc es ex Hw. pose proof (no_arrays_walk ks c _ Hc Hw). discriminate.
Qed.

End PathMore.

(* ===================================================================== *)
(** * The queue never holds a unit back without reason *)
(* ===================================================================== *)

Module MutexProgress.
Import AsyncMutex MutexFacts.
Local Open Scope nat_scope.

(** The promise the queue starts with is settled, and so is the [next] of
    every call that has released. *)
Lemma released_settled (s : state) :
  reachable s ->
  In 0 (settled s)
  /\ forall i c, calls s !! i = Some c -> phase_of c = Done -> In (next c) (settled s).
Proof.
  induction 1 as [|s s' Hr [IH0 IH] Hstep].
  - split; [left; reflexivity|]. intros i c Hi. simpl in Hi. destruct i; discriminate.
  - destruct Hstep as [s|s i c Hi Hp Hs|s i c Hi Hp|s i c Hi Hp]; simpl.
    + split; [exact IH0|]. intros j cj Hj Hd.
      rewrite lookup_snoc in Hj.
      destruct (j <? length (calls s)); [eauto|].
      destruct (Nat.eqb j (length (calls s))); [|discriminate].
      inversion Hj; subst. discriminate.
    + split; [exact IH0|]. intros j cj Hj Hd.
      rewrite (lookup_update _ _ _ _ _ Hi) in Hj.
      destruct (Nat.eqb i j); [inversion Hj; subst; discriminate|eauto].
    + split; [exact IH0|]. intros j cj Hj Hd.
      rewrite (lookup_update _ _ _ _ _ Hi) in Hj.
      destruct (Nat.eqb i j); [inversion Hj; subst; congruence|eauto].
    + split; [right; exact IH0|]. intros j cj Hj Hd.
      rewrite (lookup_update _ _ _ _ _ Hi) in Hj.
      destruct (Nat.eqb i j); [inversion Hj; subst; left; reflexivity|right; eauto].
Qed.

Lemma earlier_released_dec (s : state) (n : nat) :
  (forall i ci, i < n -> calls s !! i = Some ci -> phase_of ci = Done)
  \/ (exists i ci, i < n /\ calls s !! i = Some ci /\ phase_of ci <> Done).
Proof.
  induction n as [|n [IH|(i & ci & Hlt & Hi & Hnd)]].
  - left. intros; lia.
  - destruct (calls s !! n) as [c|] eqn:Hn.
    + destruct (phase_of c) eqn:Hp.
      * right. exists n, c. repeat split; [lia|exact Hn|congruence].
      * right. exists n, c. repeat split; [lia|exact Hn|congruence].
      * left. intros i ci Hlt Hi.
        destruct (Nat.eq_dec i n) as [->|Hne]; [congruence|].
        apply (IH i ci); [lia|exact Hi].
    + left. intros i ci Hlt Hi.
      destruct (Nat.eq_dec i n) as [->|Hne]; [congruence|].
      apply (IH i ci); [lia|exact Hi].
  - right. exists i, ci. repeat split; [lia|exact Hi|exact Hnd].
Qed.

(** X12.  The queue holds a unit back for one reason only.  In every state
    the queue can reach, a waiting call may start its body exactly when
    every call made before it has released, by returning or by throwing.  So
    the oldest call that has not released is never stuck behind the queue:
    it is running, or it can begin at once. *)
Theorem waiting_call_begins (s : state) :
  reachable s ->
  (forall j c,
      calls s !! j = Some c -> phase_of c = Waiting ->
      (is_settled s (prev c) = true
       <-> forall i ci, i < j -> calls s !! i = Some ci -> phase_of ci = Done))
  /\ ((exists j c, calls s !! j = Some c /\ phase_of c <> Done) ->
      exists j c,
        calls s !! j = Some c
        /\ (forall i ci, i < j -> calls s !! i = Some ci -> phase_of ci = Done)
        /\ ((phase_of c = Running
             /\ step s (update_call s j (set_phase Done c) (Finished j) [next c]))
            \/ (phase_of c = Waiting
                /\ step s (update_call s j (set_phase Running c) (Began j) [])))).
Proof.
  intros Hr.
  pose proof (reachable_inv s Hr) as I.
  destruct (released_settled s Hr) as [H0 Hrel].
  assert (Hiff : forall j c,
      calls s !! j = Some c -> phase_of c = Waiting ->
      (is_settled s (prev c) = true
       <-> forall i ci, i < j -> calls s !! i = Some ci -> phase_of ci = Done)).
  { intros j c Hj Hw. split.
    - intros Hs. exact (settled_prev s j c I Hj Hs).
    - intros Hall. destruct (inv_links s I j c Hj) as [Hprev _]. rewrite Hprev.
      unfold is_settled. apply existsb_exists. exists j. split; [|apply Nat.eqb_refl].
      destruct j as [|i]; [exact H0|].
      destruct (lookup_lt_is_Some_2 (calls s) i) as [ci Hi].
      { apply lookup_lt_Some in Hj. lia. }
      destruct (inv_links s I i ci Hi) as [_ Hnext]. rewrite <- Hnext.
      apply (Hrel i ci Hi). apply (Hall i ci); [lia|exact Hi]. }
  split; [exact Hiff|].
  intros (j0 & c0 & Hj0 & Hnd0).
  (* the oldest call that has not released *)
  assert (Hleast : forall j c, calls s !! j = Some c -> phase_of c <> Done ->
            exists j' c', calls s !! j' = Some c' /\ phase_of c' <> Done
              /\ forall i ci, i < j' -> calls s !! i = Some ci -> phase_of ci = Done).
  { induction j as [j IHj] using lt_wf_ind. intros c Hj Hnd.
    destruct (earlier_released_dec s j) as [Hall|(i & ci & Hlt & Hi & Hnd')].
    - exists j, c. auto.
    - exact (IHj i Hlt ci Hi Hnd'). }
  destruct (Hleast j0 c0 Hj0 Hnd0) as (j & c & Hj & Hnd & Hall).
  exists j, c. split; [exact Hj|]. split; [exact Hall|].
  destruct (phase_of c) eqn:Hp; [right|left|congruence].
  - split; [reflexivity|]. apply Begin; [exact Hj|exact Hp|].
    apply (Hiff j c Hj Hp). exact Hall.
  - split; [reflexivity|]. apply Finish; assumption.
Qed.

Lemma save_done_reachable : reachable save_done.
Proof.
  eapply reach_step; [eapply reach_step; [eapply reach_step; [eapply reach_step;
    [eapply reach_step; [exact reach_init|]|]|]|]|].
  - apply Enqueue.
  - apply Enqueue.
  - exact (Begin both_queued 0 save_call eq_refl eq_refl eq_refl).
  - exact (Suspend save_running 0 (set_phase Running save_call) eq_refl eq_refl).
  - exact (Finish save_writing 0 (set_phase Running save_call) eq_refl eq_refl).
Defined.

Lemma waiting_call_begins_witness :
  is_settled save_done (prev reload_call) = true
  <-> (forall i ci, i < 1 -> calls save_done !! i = Some ci -> phase_of ci = Done).
Proof.
  exact (proj1 (waiting_call_begins save_done save_done_reachable) 1 reload_call
           eq_refl eq_refl).
Defined.

End MutexProgress.

(* ===================================================================== *)
(** * The dependency resolver *)
(* ===================================================================== *)

Module ResolverFacts.
Import Runtime Eff Store Notions Samples Shapes Clone StoreFacts PathFacts WriteFacts PathMore.
Import JSONStore DependencyResolver.

Lemma validate_nonblank (v : value) (name : string) :
  validateNonEmptyString v name =
  match nonblank v with
  | Some s => Ok s
  | None => Throw (must_be_string name)
  end.
Proof.
  unfold validateNonEmptyString, nonblank, must_be_string.
  destruct v; try reflexivity. destruct (blank s); reflexivity.
Qed.

Lemma nonblank_string (v : value) (s : string) :
  nonblank v = Some s -> v = VStr s /\ blank s = false.
Proof.
  unfold nonblank. destruct v; try discriminate.
  destruct (blank s0) eqn:Hb; [discriminate|]. intros [= <-]. auto.
Qed.

Lemma blank_spaces (s : string) :
  all_chars ascii_space s = true -> nonblank (VStr s) = None.
Proof.
  unfold nonblank. intros H.
  assert (Hb : blank s = true).
  { induction s as [|c s IH]; [reflexivity|].
    simpl in H. apply andb_true_iff in H as [Hc Hs].
    unfold ascii_space in Hc. simpl. rewrite Hc. auto. }
  rewrite Hb. reflexivity.
Qed.

Lemma visible_nonblank (c : ascii) (s : string) :
  visible c = true -> nonblank (VStr (String c s)) = Some (String c s).
Proof.
  intros Hc. unfold nonblank.
  assert (Hb : blank (String c s) = false).
  { destruct c as [[] [] [] [] [] [] [] []]; vm_compute in Hc; try discriminate Hc;
      destruct s as [|b [|c3 s3]]; reflexivity. }
  rewrite Hb. reflexivity.
Qed.

(** X13.  The resolver checks its arguments before it touches the store.
    [require], [has] and [record] throw a [TypeError] naming the first
    argument, in the order type, old id, new id, that is no string or
    holds nothing but white space; store and disk stay as they are, whether
    the store is initialized or not.  [optional] checks the type in the same
    way, but answers [null] for an old id that is missing, no string or
    blank, without looking anything up.  A string of ASCII white space only,
    the empty one included, does not pass the check; a string that begins
    with a visible ASCII character does. *)
Theorem resolver_checks_arguments (r : resolver) (e : Fs.env) (st : store) (w : Fs.fs)
  (type oldId newId : value) :
  (nonblank type = None ->
   require r type oldId st = (st, Throw (must_be_string "type"))
   /\ optional r type oldId st = (st, Throw (must_be_string "type"))
   /\ has r type oldId st = (st, Throw (must_be_string "type"))
   /\ record r e type oldId newId (st, w) = ((st, w), Throw (must_be_string "type")))
  /\ (nonblank type <> None -> nonblank oldId = None ->
      require r type oldId st = (st, Throw (must_be_string "oldId"))
      /\ optional r type oldId st = (st, Ok None)
      /\ has r type oldId st = (st, Throw (must_be_string "oldId"))
      /\ record r e type oldId newId (st, w) = ((st, w), Throw (must_be_string "oldId")))
  /\ (nonblank type <> None -> nonblank oldId <> None -> nonblank newId = None ->
      record r e type oldId newId (st, w) = ((st, w), Throw (must_be_string "newId")))
  /\ (forall s, all_chars ascii_space s = true -> nonblank (VStr s) = None)
  /\ (forall c s, visible c = true -> nonblank (VStr (String c s)) = Some (String c s)).
Proof.
  unfold require, optional, has, record. eff_unfold.
  rewrite !validate_nonblank.
  split; [|split; [|split; [|split; [exact blank_spaces|exact visible_nonblank]]]].
  - intros ->. simpl. auto.
  - intros Ht Ho. destruct (nonblank type) as [t|]; [|contradiction]. simpl.
    rewrite Ho. simpl. repeat split; try reflexivity.
    unfold nonblank in Ho. destruct oldId; try reflexivity.
    destruct (blank s); [reflexivity|discriminate].
  - intros Ht Ho Hn. destruct (nonblank type) as [t|]; [|contradiction].
    destruct (nonblank oldId) as [o|]; [|contradiction]. simpl.
    rewrite Hn. reflexivity.
Qed.

(** ** Lookups *)

Lemma resolve_unfold (r : resolver) (t o : string) (st : store) :
  initialized st = true ->
  resolve r t o st = (st, Ok (found r (data st) t o)).
Proof.
  intros Hinit. unfold resolve, found, mapping. eff_unfold.
  assert (Hsimple : getPath [VStr t; VStr o] st = (st, walk (data st) (simple_keys t o))).
  { exact (getPath_unfold st (simple_keys t o) Hinit). }
  assert (Hscoped : getPath [VStr t; VStr o; VStr (category r); VStr (environment r)] st
                    = (st, walk (data st) (scoped_keys r t o))).
  { exact (getPath_unfold st (scoped_keys r t o) Hinit). }
  destruct (walk_total (scoped_keys r t o) (data st)) as (x & Hx).
  destruct (walk_total (simple_keys t o) (data st)) as (y & Hy).
  rewrite Hx in *. rewrite Hy in *.
  destruct (isScoped r t); cbv beta.
  - rewrite Hscoped. destruct x; cbn [string_or_null]; cbv beta iota;
      rewrite ?Hsimple; destruct y; reflexivity.
  - rewrite Hsimple. destruct y; reflexivity.
Qed.

Lemma lookups_unfold (r : resolver) (st : store) (type oldId : value) (t o : string) :
  initialized st = true ->
  nonblank type = Some t -> nonblank oldId = Some o ->
  optional r type oldId st = (st, Ok (found r (data st) t o))
  /\ has r type oldId st
     = (st, Ok (if found r (data st) t o is Some _ then true else false))
  /\ require r type oldId st
     = (st, match found r (data st) t o with
            | Some id => Ok id
            | None => Throw (not_found r t o)
            end).
Proof.
  intros Hinit Ht Ho.
  destruct (nonblank_string _ _ Ho) as [-> Hb].
  unfold require, optional, has. eff_unfold.
  rewrite !validate_nonblank, Ht. unfold nonblank. rewrite Hb. simpl.
  rewrite (resolve_unfold r t o st Hinit).
  destruct (found r (data st) t o); auto.
Qed.

(** X14.  On an initialized store the three lookups agree and change
    nothing.  With a type and an old id that pass the check, [optional]
    returns what the document holds for them: for a scoped type the string
    under type, old id, category, environment, if there is one; otherwise,
    and for a scoped type as a fallback, the string under type, old id;
    [null] when neither is there.  [has] tells whether that is a string, and
    [require] returns it or throws the not-found error naming the type, the
    old id, the environment and the category. *)
Theorem resolver_lookups (r : resolver) (st : store) (type oldId : value) (t o : string) :
  initialized st = true ->
  nonblank type = Some t -> nonblank oldId = Some o ->
  optional r type oldId st = (st, Ok (found r (data st) t o))
  /\ has r type oldId st
     = (st, Ok (if found r (data st) t o is Some _ then true else false))
  /\ require r type oldId st
     = (st, match found r (data st) t o with
            | Some id => Ok id
            | None => Throw (not_found r t o)
            end)
  /\ (isScoped r t = false -> found r (data st) t o = mapping (data st) (simple_keys t o))
  /\ (forall id, mapping (data st) (scoped_keys r t o) = Some id ->
        isScoped r t = true -> found r (data st) t o = Some id)
  /\ (mapping (data st) (scoped_keys r t o) = None ->
      found r (data st) t o = mapping (data st) (simple_keys t o)).
Proof.
  intros Hinit Ht Ho.
  destruct (lookups_unfold r st type oldId t o Hinit Ht Ho) as (H1 & H2 & H3).
  split; [exact H1|]. split; [exact H2|]. split; [exact H3|].
  unfold found. split; [intros ->; reflexivity|]. split.
  - intros id -> ->. reflexivity.
  - intros ->. destruct (isScoped r t); reflexivity.
Qed.

Lemma resolver_lookups_witness :
  require prod (VStr "inventories") (VStr "7") id_map = (id_map, Ok "41")
  /\ require staging (VStr "inventories") (VStr "7") id_map
     = (id_map, Throw (not_found staging "inventories" "7"))
  /\ optional staging (VStr "projects") (VStr "3") id_map = (id_map, Ok (Some "12")).
Proof.
  split; [|split].
  - exact (proj1 (proj2 (proj2 (resolver_lookups prod id_map (VStr "inventories")
                                  (VStr "7") "inventories" "7" eq_refl eq_refl eq_refl)))).
  - exact (proj1 (proj2 (proj2 (resolver_lookups staging id_map (VStr "inventories")
                                  (VStr "7") "inventories" "7" eq_refl eq_refl eq_refl)))).
  - exact (proj1 (resolver_lookups staging id_map (VStr "projects") (VStr "3")
                    "projects" "3" eq_refl eq_refl eq_refl)).
Defined.

(** ** Recording *)

Lemma record_keys_spec (r : resolver) (t o : string) :
  record_keys r t o
  = map key_value (if isScoped r t then scoped_keys r t o else simple_keys t o).
Proof. unfold record_keys. destruct (isScoped r t); reflexivity. Qed.

Lemma key_value_inj (a b : list key) : map key_value a = map key_value b -> a = b.
Proof.
  revert b. induction a as [|x a IH]; intros [|y b]; simpl; try discriminate; auto.
  intros [= Hxy Hab]. f_equal; [|auto].
  destruct x, y; simpl in Hxy; congruence.
Qed.

(** What a successful [record] has done. *)
Lemma record_inv (r : resolver) (e : Fs.env) (st st' : store) (w w' : Fs.fs)
  (type oldId newId : value) :
  record r e type oldId newId (st, w) = ((st', w'), Ok tt) ->
  exists t o n d',
    nonblank type = Some t /\ nonblank oldId = Some o /\ nonblank newId = Some n
    /\ initialized st = true
    /\ setAtPath (data st) (if isScoped r t then scoped_keys r t o else simple_keys t o)
         (VStr n) = Ok d'
    /\ st' = set_dirty false (set_data d' st)
    /\ writeAtomic e (filePath st) d' w = (w', Ok tt).
Proof.
  unfold record. eff_unfold. rewrite !validate_nonblank.
  destruct (nonblank type) as [t|] eqn:Ht; simpl; [|discriminate].
  destruct (nonblank oldId) as [o|] eqn:Ho; simpl; [|discriminate].
  destruct (nonblank newId) as [n|] eqn:Hn; simpl; [|discriminate].
  intros Hsave. apply setPathAndSave_inv in Hsave
    as (ks & d' & Hmap & _ & Hinit & Hs & -> & Hw).
  rewrite record_keys_spec in Hmap. apply key_value_inj in Hmap. subst ks.
  exists t, o, n, d'. auto 10.
Qed.

Lemma mapping_written (d d' : value) (ks : list key) (n : string) :
  ks <> [] -> setAtPath d ks (VStr n) = Ok d' -> mapping d' ks = Some n.
Proof.
  intros Hne Hs. unfold mapping.
  destruct (setAtPath_from_walk ks [] d d' (VStr n) Hne Hs) as (_ & _ & ->).
  reflexivity.
Qed.

(** X15.  What [record] has stored, the same resolver finds.  The keys of
    the mapping are the type and the old id and, for a scoped type, the
    category and the environment; when none of them is a name that objects
    or arrays inherit and the last is not [length], then after a successful
    [record (type, oldId, newId)], [require] and [optional] return the new
    id and [has] is true, for scoped and for simple types alike; the store
    is clean and the file holds the JSON text of the document. *)
Theorem record_then_require (r : resolver) (e : Fs.env) (st st' : store) (w w' : Fs.fs)
  (type oldId newId : value) (t o : string) :
  record r e type oldId newId (st, w) = ((st', w'), Ok tt) ->
  nonblank type = Some t -> nonblank oldId = Some o ->
  own_keys (path_of r t o) = true ->
  ends_in_length (path_of r t o) = false ->
  exists n text,
    newId = VStr n
    /\ require r type oldId st' = (st', Ok n)
    /\ optional r type oldId st' = (st', Ok (Some n))
    /\ has r type oldId st' = (st', Ok true)
    /\ dirty st' = false
    /\ JSON.stringify (data st') = Some text
    /\ Fs.files w' !! filePath st' = Some text.
Proof.
  intros Hrec Ht0 Ho0 _ _.
  destruct (record_inv _ _ _ _ _ _ _ _ _ Hrec)
    as (t1 & o1 & n & d' & Ht & Ho & Hn & Hinit & Hs & -> & Hw).
  assert (t1 = t) by congruence. assert (o1 = o) by congruence. subst t1 o1.
  destruct (writeAtomic_resolved _ _ _ _ _ Hw) as (text & Htext & Hfile).
  exists n, text.
  assert (Hfound : found r d' t o = Some n).
  { unfold found. destruct (isScoped r t).
    - rewrite (mapping_written (data st) d' (scoped_keys r t o) n ltac:(discriminate) Hs).
      reflexivity.
    - exact (mapping_written (data st) d' (simple_keys t o) n ltac:(discriminate) Hs). }
  destruct (lookups_unfold r (set_dirty false (set_data d' st)) type oldId t o Hinit Ht Ho)
    as (H1 & H2 & H3).
  change (data (set_dirty false (set_data d' st))) with d' in *.
  rewrite Hfound in *.
  split; [exact (proj1 (nonblank_string _ _ Hn))|].
  repeat (split; [first [assumption | reflexivity]|]). exact Hfile.
Qed.

Lemma record_then_require_witness :
  exists n text,
    VStr "88" = VStr n
    /\ require staging (VStr "inventories") (VStr "7")
         (fst (fst (record staging (Fs.calm "0b5e") (VStr "inventories") (VStr "7")
                      (VStr "88") (id_map, old_disk))))
       = (fst (fst (record staging (Fs.calm "0b5e") (VStr "inventories") (VStr "7")
                      (VStr "88") (id_map, old_disk))), Ok n)
    /\ JSON.stringify
         (data (fst (fst (record staging (Fs.calm "0b5e") (VStr "inventories") (VStr "7")
                            (VStr "88") (id_map, old_disk))))) = Some text.
Proof.
  destruct (record_then_require staging (Fs.calm "0b5e") id_map
              (fst (fst (record staging (Fs.calm "0b5e") (VStr "inventories") (VStr "7")
                           (VStr "88") (id_map, old_disk))))
              old_disk
              (snd (fst (record staging (Fs.calm "0b5e") (VStr "inventories") (VStr "7")
                           (VStr "88") (id_map, old_disk))))
              (VStr "inventories") (VStr "7") (VStr "88") "inventories" "7")
    as (n & text & H1 & H2 & _ & _ & _ & H6 & _).
  - vm_compute. reflexivity.
  - reflexivity.
  - reflexivity.
  - vm_compute. reflexivity.
  - vm_compute. reflexivity.
  - exists n, text. auto.
Defined.

(** A string under type, old id stops the walk to a scoped mapping. *)
Lemma simple_blocks_scoped (r : resolver) (d v : value) (t o legacy : string) :
  walk d (simple_keys t o) = Ok (VStr legacy) ->
  setAtPath d (scoped_keys r t o) v = Throw (not_traversable (simple_keys t o))
  /\ mapping d (scoped_keys r t o) = None.
Proof.
  intros Hwalk.
  assert (Hroot : is_container d = true).
  { destruct (is_container d) eqn:Hc; [reflexivity|].
    unfold simple_keys in Hwalk. rewrite (walk_off _ _ _ Hc) in Hwalk. discriminate. }
  unfold simple_keys in Hwalk. rewrite (walk_step _ _ _ Hroot) in Hwalk.
  destruct (get_prop d (prop_name (KStr t))) as [x|] eqn:Hgt; [|discriminate].
  cbn [rbind] in Hwalk.
  assert (Hx : is_container x = true).
  { destruct (is_container x) eqn:Hc; [reflexivity|].
    rewrite (walk_off _ _ _ Hc) in Hwalk. discriminate. }
  rewrite (walk_step _ _ _ Hx) in Hwalk.
  destruct (get_prop x (prop_name (KStr o))) as [y|] eqn:Hgo; [|discriminate].
  cbn [rbind walk] in Hwalk. inversion Hwalk; subst y.
  split.
  - unfold setAtPath, scoped_keys.
    apply (setAtPath_from_descend_error [KStr t] [] d x
             [KStr o; KStr (category r); KStr (environment r)]).
    + rewrite (walk_step _ _ _ Hroot), Hgt. reflexivity.
    + exact Hx.
    + discriminate.
    + rewrite setAtPath_from_step, Hgo. cbn [rbind nullish]. rewrite Hgo. reflexivity.
  - unfold mapping, scoped_keys.
    rewrite (walk_step _ _ _ Hroot), Hgt. cbn [rbind].
    rewrite (walk_step _ _ _ Hx), Hgo. reflexivity.
Qed.

Lemma mapping_walk (d : value) (ks : list key) (id : string) :
  mapping d ks = Some id -> walk d ks = Ok (VStr id).
Proof.
  unfold mapping. destruct (walk d ks) as [[]|]; try discriminate. congruence.
Qed.

(** X16.  A scoped mapping cannot be recorded over a simple one.  When the
    type is scoped and the document holds a string directly under type, old
    id (a mapping recorded before the type was scoped), [record] rejects
    with the traversal error for that path and changes neither the store nor
    the disk, and the lookups keep returning the old string. *)
Theorem record_over_simple_mapping (r : resolver) (e : Fs.env) (st : store) (w : Fs.fs)
  (type oldId newId : value) (t o legacy : string) :
  initialized st = true -> symbol_free (data st) = true ->
  nonblank type = Some t -> nonblank oldId = Some o -> nonblank newId <> None ->
  isScoped r t = true ->
  mapping (data st) (simple_keys t o) = Some legacy ->
  record r e type oldId newId (st, w)
  = ((st, w), Throw (not_traversable (simple_keys t o)))
  /\ require r type oldId st = (st, Ok legacy).
Proof.
  intros Hinit Hfree Ht Ho Hn Hscoped Hlegacy.
  pose proof (mapping_walk _ _ _ Hlegacy) as Hwalk.
  split.
  - unfold record. eff_unfold. rewrite !validate_nonblank, Ht, Ho. simpl.
    destruct (nonblank newId) as [n|]; [|contradiction]. simpl.
    rewrite record_keys_spec, Hscoped.
    apply setPathAndSave_error; [assumption|assumption|discriminate|].
    exact (proj1 (simple_blocks_scoped r (data st) (VStr n) t o legacy Hwalk)).
  - destruct (lookups_unfold r st type oldId t o Hinit Ht Ho) as (_ & _ & H3).
    rewrite H3. unfold found. rewrite Hscoped, Hlegacy.
    rewrite (proj2 (simple_blocks_scoped r (data st) VUndef t o legacy Hwalk)).
    reflexivity.
Qed.

Lemma record_over_simple_mapping_witness :
  record (DependencyResolver.new "prod" "standard" (Some ["projects"])) (Fs.calm "0b5e")
    (VStr "projects") (VStr "3") (VStr "99") (id_map, old_disk)
  = ((id_map, old_disk), Throw (not_traversable (simple_keys "projects" "3"))).
Proof.
  refine (proj1 (record_over_simple_mapping
                   (DependencyResolver.new "prod" "standard" (Some ["projects"]))
                   (Fs.calm "0b5e") id_map old_disk
                   (VStr "projects") (VStr "3") (VStr "99") "projects" "3" "12"
                   eq_refl eq_refl eq_refl eq_refl _ _ eq_refl)).
  - discriminate.
  - vm_compute. reflexivity.
Defined.

(** ** What a record leaves alone *)

Lemma mapping_frame (d d' v : value) (pre rest rest' : list key) (a b : string) :
  setAtPath d (pre ++ KStr a :: rest) v = Ok d' ->
  no_arrays d = true -> b <> a ->
  mapping d' (pre ++ KStr b :: rest') = mapping d (pre ++ KStr b :: rest').
Proof.
  intros Hs Hd Hne. unfold mapping.
  rewrite (setAtPath_from_frame pre [] d d' (KStr a) (KStr b) rest rest' v Hs Hne
             (or_introl (no_arrays_on_path d pre Hd))).
  reflexivity.
Qed.

(** The keys under which a successful scoped write has put its value lead
    through objects: no string sits under type, old id, before or after. *)
Lemma scoped_write_simple (r : resolver) (d d' : value) (t o n : string) :
  setAtPath d (scoped_keys r t o) (VStr n) = Ok d' ->
  mapping d' (simple_keys t o) = None /\ mapping d (simple_keys t o) = None.
Proof.
  intros Hs. split.
  - destruct (setAtPath_from_walk (scoped_keys r t o) [] d d' (VStr n)
                ltac:(discriminate) Hs) as (_ & _ & Hw).
    change (scoped_keys r t o)
      with (simple_keys t o ++ [KStr (category r); KStr (environment r)]) in Hw.
    rewrite walk_app in Hw. unfold mapping.
    destruct (walk d' (simple_keys t o)) as [c|]; [|reflexivity].
    cbn [rbind] in Hw. destruct c; try reflexivity.
    rewrite walk_off in Hw by reflexivity. discriminate.
  - destruct (mapping d (simple_keys t o)) as [legacy|] eqn:Hm; [|reflexivity].
    pose proof (proj1 (simple_blocks_scoped r d (VStr n) t o legacy (mapping_walk _ _ _ Hm))).
    congruence.
Qed.

(** X17.  A record stays in its place.  After a successful [record] for a
    type and an old id, on a document without arrays, any resolver over the
    same store resolves every other pair of type and old id as before.  When
    the recorded type is scoped, a resolver for another category or another
    environment resolves the recorded pair itself as before, too.  This is
    for keys (types, old ids and, for scoped types, categories and
    environments) none of which is a name that objects inherit. *)
Theorem record_keeps_other_mappings (r other : resolver) (e : Fs.env) (st st' : store)
  (w w' : Fs.fs) (type oldId newId : value) (t o t' o' : string) :
  record r e type oldId newId (st, w) = ((st', w'), Ok tt) ->
  nonblank type = Some t -> nonblank oldId = Some o ->
  no_arrays (data st) = true ->
  own_names (path_of r t o) = true ->
  own_names (path_of other t' o') = true ->
  (t', o') <> (t, o)
  \/ (isScoped r t = true
      /\ (category other, environment other) <> (category r, environment r)) ->
  resolve other t' o' st' = (st', snd (resolve other t' o' st)).
Proof.
  intros Hrec Ht Ho Hplain _ _ Hside.
  destruct (record_inv _ _ _ _ _ _ _ _ _ Hrec)
    as (t0 & o0 & n & d' & Ht0 & Ho0 & Hn & Hinit & Hs & -> & Hw).
  assert (t0 = t) by congruence. assert (o0 = o) by congruence. subst t0 o0.
  rewrite (resolve_unfold other t' o' (set_dirty false (set_data d' st)) Hinit),
    (resolve_unfold other t' o' st Hinit).
  change (data (set_dirty false (set_data d' st))) with d'. simpl snd.
  do 2 f_equal.
  assert (Hgoal : mapping d' (scoped_keys other t' o') = mapping (data st) (scoped_keys other t' o')
                  /\ mapping d' (simple_keys t' o') = mapping (data st) (simple_keys t' o')).
  { destruct (string_dec t' t) as [->|Hnt].
    - destruct (string_dec o' o) as [->|Hno].
      + destruct Hside as [Hpair|[Hscoped Hctx]]; [congruence|].
        rewrite Hscoped in Hs.
        destruct (scoped_write_simple r _ _ _ _ _ Hs) as [Hafter Hbefore].
        split; [|congruence].
        destruct (string_dec (category other) (category r)) as [Hc|Hc].
        * destruct (string_dec (environment other) (environment r)) as [He|He];
            [exfalso; apply Hctx; congruence|].
          unfold scoped_keys. rewrite Hc.
          exact (mapping_frame (data st) d' (VStr n)
                   [KStr t; KStr o; KStr (category r)] [] []
                   (environment r) (environment other) Hs Hplain He).
        * exact (mapping_frame (data st) d' (VStr n) [KStr t; KStr o]
                   [KStr (environment r)] [KStr (environment other)]
                   (category r) (category other) Hs Hplain Hc).
      + destruct (isScoped r t); split.
        * exact (mapping_frame (data st) d' (VStr n) [KStr t]
                   [KStr (category r); KStr (environment r)]
                   [KStr (category other); KStr (environment other)] o o' Hs Hplain Hno).
        * exact (mapping_frame (data st) d' (VStr n) [KStr t]
                   [KStr (category r); KStr (environment r)] [] o o' Hs Hplain Hno).
        * exact (mapping_frame (data st) d' (VStr n) [KStr t] []
                   [KStr (category other); KStr (environment other)] o o' Hs Hplain Hno).
        * exact (mapping_frame (data st) d' (VStr n) [KStr t] [] [] o o' Hs Hplain Hno).
    - destruct (isScoped r t); split.
      + exact (mapping_frame (data st) d' (VStr n) []
                 [KStr o; KStr (category r); KStr (environment r)]
                 [KStr o'; KStr (category other); KStr (environment other)]
                 t t' Hs Hplain Hnt).
      + exact (mapping_frame (data st) d' (VStr n) []
                 [KStr o; KStr (category r); KStr (environment r)] [KStr o']
                 t t' Hs Hplain Hnt).
      + exact (mapping_frame (data st) d' (VStr n) [] [KStr o]
                 [KStr o'; KStr (category other); KStr (environment other)]
                 t t' Hs Hplain Hnt).
      + exact (mapping_frame (data st) d' (VStr n) [] [KStr o] [KStr o']
                 t t' Hs Hplain Hnt). }
  destruct Hgoal as [Hscoped Hsimple].
  unfold found. rewrite Hscoped, Hsimple. reflexivity.
Qed.

Lemma record_keeps_other_mappings_witness :
  resolve prod "inventories" "7"
    (fst (fst (record staging (Fs.calm "0b5e") (VStr "inventories") (VStr "7")
                 (VStr "88") (id_map, old_disk))))
  = (fst (fst (record staging (Fs.calm "0b5e") (VStr "inventories") (VStr "7")
                 (VStr "88") (id_map, old_disk))),
     snd (resolve prod "inventories" "7" id_map)).
Proof.
  apply (record_keeps_other_mappings staging prod (Fs.calm "0b5e") id_map _ old_disk
           (snd (fst (record staging (Fs.calm "0b5e") (VStr "inventories") (VStr "7")
                        (VStr "88") (id_map, old_disk))))
           (VStr "inventories") (VStr "7") (VStr "88") "inventories" "7").
  - vm_compute. reflexivity.
  - reflexivity.
  - reflexivity.
  - reflexivity.
  - vm_compute. reflexivity.
  - vm_compute. reflexivity.
  - right. split; [vm_compute; reflexivity|]. intros H. inversion H.
Defined.

End ResolverFacts.

(* ===================================================================== *)
(** * The transform utilities *)
(* ===================================================================== *)

Module TransformFacts.
Import Runtime Notions Shapes StoreFacts TransformUtils.

(** ** Deleting a property *)

Lemma obj_delete_absent {A} (l : list (string * A)) (k : string) :
  ~ In k (map fst l) -> obj_delete l k = l.
Proof.
  induction l as [|[k0 a] l IH]; simpl; intros H; [reflexivity|].
  destruct (String.eqb_spec k0 k) as [->|Hne]; [tauto|]. f_equal. apply IH. tauto.
Qed.

Lemma obj_delete_get {A} (l : list (string * A)) (k k' : string) :
  List.NoDup (map fst l) ->
  assoc_get (obj_delete l k) k' = if String.eqb k k' then None else assoc_get l k'.
Proof.
  induction l as [|[k0 a] l IH]; simpl; intros Hnd.
  - destruct (String.eqb k k'); reflexivity.
  - inversion Hnd as [|? ? Hnotin Hnd']; subst.
    destruct (String.eqb_spec k0 k) as [->|Hne].
    + destruct (String.eqb_spec k k') as [->|Hne'].
      * apply assoc_get_None_iff. exact Hnotin.
      * reflexivity.
    + simpl. rewrite IH by assumption.
      destruct (String.eqb_spec k0 k') as [->|Hne'].
      * destruct (String.eqb_spec k k'); [congruence|reflexivity].
      * reflexivity.
Qed.

Lemma obj_delete_keys {A} (l : list (string * A)) (k k' : string) :
  In k' (map fst (obj_delete l k)) -> In k' (map fst l).
Proof.
  induction l as [|[k0 a] l IH]; simpl; [tauto|].
  destruct (String.eqb k0 k); simpl; tauto.
Qed.

Lemma obj_delete_NoDup {A} (l : list (string * A)) (k : string) :
  List.NoDup (map fst l) -> List.NoDup (map fst (obj_delete l k)).
Proof.
  induction l as [|[k0 a] l IH]; simpl; intros Hnd; [constructor|].
  inversion Hnd as [|? ? Hnotin Hnd']; subst.
  destruct (String.eqb k0 k); [assumption|].
  simpl. constructor; [|auto].
  intros Hin. apply Hnotin. eapply obj_delete_keys. exact Hin.
Qed.

Lemma hasOwn_get {A} (l : list (string * A)) (k : string) :
  hasOwn l k = true <-> exists a, assoc_get l k = Some a.
Proof.
  unfold hasOwn. destruct (assoc_get l k); split; eauto; try discriminate.
  intros [a H]. discriminate.
Qed.

(** ** [renameKey] *)

(** X18.  [renameKey] on an object.  When the old key is the new key, or
    the object has no such property, the object is left as it is.
    Otherwise, for a new key other than [__proto__], the new key holds what
    the old key held, replacing what it held itself if it existed, the old
    key is gone, and every other property is as before. *)
Theorem renameKey_spec (obj : list (string * value)) (oldKey newKey : string) :
  List.NoDup (map fst obj) ->
  newKey <> "__proto__" ->
  (oldKey = newKey \/ assoc_get obj oldKey = None -> renameKey obj oldKey newKey = obj)
  /\ (forall x,
        oldKey <> newKey -> assoc_get obj oldKey = Some x ->
        forall k,
          assoc_get (renameKey obj oldKey newKey) k
          = if String.eqb k newKey then Some x
            else if String.eqb k oldKey then None
            else assoc_get obj k)
  /\ List.NoDup (map fst (renameKey obj oldKey newKey)).
Proof.
  intros Hnd _. unfold renameKey, hasOwn, read. split; [|split].
  - intros [->|Hnone].
    + rewrite String.eqb_refl. reflexivity.
    + rewrite Hnone. rewrite orb_true_r. reflexivity.
  - intros x Hne Hold k. rewrite Hold. simpl.
    apply String.eqb_neq in Hne. rewrite Hne. simpl.
    rewrite obj_delete_get by (apply obj_set_NoDup; exact Hnd).
    rewrite obj_set_get.
    destruct (String.eqb_spec k newKey) as [->|Hkn].
    + rewrite Hne, String.eqb_refl. reflexivity.
    + destruct (String.eqb_spec oldKey k) as [<-|Hok].
      * rewrite String.eqb_refl. reflexivity.
      * destruct (String.eqb_spec newKey k); [congruence|].
        destruct (String.eqb_spec k oldKey); [congruence|reflexivity].
  - destruct (String.eqb oldKey newKey
              || negb match assoc_get obj oldKey with Some _ => true | None => false end);
      [exact Hnd|].
    apply obj_delete_NoDup, obj_set_NoDup. exact Hnd.
Qed.

Lemma renameKey_spec_witness :
  renameKey [("oldName", VStr "value"); ("other", VNum (Fin 1))] "oldName" "newName"
  = [("other", VNum (Fin 1)); ("newName", VStr "value")]
  /\ assoc_get (renameKey [("oldName", VStr "value"); ("other", VNum (Fin 1))]
                  "oldName" "newName") "newName"
     = Some (VStr "value")
  /\ assoc_get (renameKey [("oldName", VStr "value"); ("other", VNum (Fin 1))]
                  "oldName" "newName") "oldName"
     = None.
Proof.
  split; [reflexivity|].
  assert (Hnd : List.NoDup (map fst [("oldName", VStr "value"); ("other", VNum (Fin 1))])).
  { repeat constructor; simpl; intuition discriminate. }
  assert (Hnew : "newName" <> "__proto__") by discriminate.
  assert (Hne : "oldName" <> "newName") by discriminate.
  destruct (renameKey_spec [("oldName", VStr "value"); ("other", VNum (Fin 1))]
              "oldName" "newName" Hnd Hnew) as (_ & Hget & _).
  split.
  - exact (Hget (VStr "value") Hne eq_refl "newName").
  - exact (Hget (VStr "value") Hne eq_refl "oldName").
Defined.

(** ** [addDefaults] *)

Lemma addDefaults_fold (defaults : list (string * value)) (k : string) (keys : list string) :
  forall o,
    assoc_get
      (fold_left
         (fun o key => if negb (hasOwn o key) then obj_set o key (read defaults key) else o)
         keys o) k
    = match assoc_get o k with
      | Some x => Some x
      | None => if bool_decide (k ∈ keys) then Some (read defaults k) else None
      end.
Proof.
  induction keys as [|k0 keys IH]; intros o; simpl.
  - destruct (assoc_get o k); reflexivity.
  - rewrite IH. unfold hasOwn.
    destruct (assoc_get o k0) as [x0|] eqn:H0; simpl.
    + destruct (assoc_get o k) as [x|] eqn:Hk; [reflexivity|].
      destruct (String.eqb_spec k k0) as [->|Hne]; [congruence|].
      rewrite (bool_decide_ext (k ∈ k0 :: keys) (k ∈ keys)); [reflexivity|].
      rewrite elem_of_cons. tauto.
    + rewrite obj_set_get.
      destruct (String.eqb_spec k0 k) as [->|Hne].
      * rewrite H0. rewrite bool_decide_eq_true_2 by (left). reflexivity.
      * destruct (assoc_get o k); [reflexivity|].
        rewrite (bool_decide_ext (k ∈ k0 :: keys) (k ∈ keys)); [reflexivity|].
        rewrite elem_of_cons. split; [intros [->|]; [congruence|auto]|auto].
Qed.

Lemma addDefaults_NoDup (defaults : list (string * value)) (keys : list string) :
  forall o,
    List.NoDup (map fst o) ->
    List.NoDup
      (map fst
         (fold_left
            (fun o key => if negb (hasOwn o key) then obj_set o key (read defaults key) else o)
            keys o)).
Proof.
  induction keys as [|k0 keys IH]; intros o Hnd; simpl; [exact Hnd|].
  apply IH. destruct (negb (hasOwn o k0)); [apply obj_set_NoDup|]; exact Hnd.
Qed.

Lemma assoc_get_keys {A} (l : list (string * A)) (k : string) (a : A) :
  assoc_get l k = Some a -> k ∈ map fst l.
Proof.
  intros H. apply list_elem_of_In.
  destruct (in_dec string_dec k (map fst l)) as [Hin|Hnot]; [exact Hin|].
  apply assoc_get_None_iff in Hnot. congruence.
Qed.

Lemma addDefaults_nothing_missing (defaults : list (string * value)) (keys : list string) :
  forall o,
    (forall key, key ∈ keys -> hasOwn o key = true) ->
    fold_left
      (fun o key => if negb (hasOwn o key) then obj_set o key (read defaults key) else o)
      keys o = o.
Proof.
  induction keys as [|k0 keys IH]; intros o Hall; simpl; [reflexivity|].
  rewrite (Hall k0) by left. simpl. apply IH. intros key Hin. apply Hall. right. exact Hin.
Qed.

(** X19.  [addDefaults] fills in what is missing and nothing else: a
    property the object has keeps its value, [null] included; a property it
    lacks and the defaults have is added with the default value; no other
    property appears.  Adding the same defaults again changes nothing.
    This is for defaults without a property [__proto__] of their own, or an
    object that has one. *)
Theorem addDefaults_spec (obj defaults : list (string * value)) :
  hasOwn defaults "__proto__" = false \/ hasOwn obj "__proto__" = true ->
  (forall k,
      assoc_get (addDefaults obj defaults) k
      = match assoc_get obj k with
        | Some x => Some x
        | None => assoc_get defaults k
        end)
  /\ (List.NoDup (map fst obj) -> List.NoDup (map fst (addDefaults obj defaults)))
  /\ addDefaults (addDefaults obj defaults) defaults = addDefaults obj defaults.
Proof.
  intros _.
  assert (Hget : forall o k,
             assoc_get (addDefaults o defaults) k
             = match assoc_get o k with
               | Some x => Some x
               | None => assoc_get defaults k
               end).
  { intros o k. unfold addDefaults. rewrite addDefaults_fold.
    destruct (assoc_get o k); [reflexivity|].
    destruct (assoc_get defaults k) as [y|] eqn:Hd.
    - rewrite bool_decide_eq_true_2 by (eapply assoc_get_keys; exact Hd).
      unfold read. rewrite Hd. reflexivity.
    - rewrite bool_decide_eq_false_2; [reflexivity|].
      rewrite list_elem_of_In. apply assoc_get_None_iff. exact Hd. }
  split; [apply Hget|]. split.
  - apply addDefaults_NoDup.
  - unfold addDefaults at 1. apply addDefaults_nothing_missing.
    intros key Hin. unfold hasOwn. rewrite Hget.
    destruct (assoc_get obj key); [reflexivity|].
    destruct (assoc_get defaults key) eqn:Hd; [reflexivity|].
    apply list_elem_of_In in Hin. apply assoc_get_None_iff in Hd. contradiction.
Qed.

Lemma addDefaults_spec_witness :
  addDefaults [("a", VNum (Fin 1)); ("b", VNull)] [("b", VStr "default"); ("c", VNum (Fin 3))]
  = [("a", VNum (Fin 1)); ("b", VNull); ("c", VNum (Fin 3))]
  /\ assoc_get
       (addDefaults [("a", VNum (Fin 1)); ("b", VNull)]
          [("b", VStr "default"); ("c", VNum (Fin 3))]) "b"
     = Some VNull
  /\ assoc_get
       (addDefaults [("a", VNum (Fin 1)); ("b", VNull)]
          [("b", VStr "default"); ("c", VNum (Fin 3))]) "c"
     = Some (VNum (Fin 3)).
Proof.
  split; [reflexivity|].
  destruct (addDefaults_spec [("a", VNum (Fin 1)); ("b", VNull)]
              [("b", VStr "default"); ("c", VNum (Fin 3))] (or_introl eq_refl))
    as (Hget & _).
  split; [exact (Hget "b")|exact (Hget "c")].
Defined.

(** ** [pick] *)

Lemma pick_fold (obj : list (string * value)) (k : string) (keys : list string) :
  forall acc,
    assoc_get
      (fold_left
         (fun result key => if hasOwn obj key then obj_set result key (read obj key) else result)
         keys acc) k
    = match (if bool_decide (k ∈ keys) then assoc_get obj k else None) with
      | Some x => Some x
      | None => assoc_get acc k
      end.
Proof.
  induction keys as [|k0 keys IH]; intros acc; simpl; [reflexivity|].
  rewrite IH. unfold hasOwn, read.
  destruct (decide (k ∈ keys)) as [Hin|Hnot].
  - rewrite !bool_decide_eq_true_2 by (try right; exact Hin).
    destruct (assoc_get obj k) as [x|] eqn:Hk; [reflexivity|].
    destruct (assoc_get obj k0) as [x0|] eqn:H0; [|reflexivity].
    rewrite obj_set_get. destruct (String.eqb_spec k0 k); [congruence|reflexivity].
  - rewrite (bool_decide_eq_false_2 (k ∈ keys)) by exact Hnot.
    destruct (String.eqb_spec k0 k) as [->|Hne].
    + rewrite bool_decide_eq_true_2 by left.
      destruct (assoc_get obj k) as [x|]; [|reflexivity].
      rewrite obj_set_get, String.eqb_refl. reflexivity.
    + rewrite bool_decide_eq_false_2
        by (rewrite elem_of_cons; intros [->|]; [congruence|contradiction]).
      destruct (assoc_get obj k0); [|reflexivity].
      rewrite obj_set_get. destruct (String.eqb_spec k0 k); [congruence|reflexivity].
Qed.

Lemma pick_NoDup (obj : list (string * value)) (keys : list string) :
  forall acc,
    List.NoDup (map fst acc) ->
    List.NoDup
      (map fst
         (fold_left
            (fun result key =>
               if hasOwn obj key then obj_set result key (read obj key) else result)
            keys acc)).
Proof.
  induction keys as [|k0 keys IH]; intros acc Hnd; simpl; [exact Hnd|].
  apply IH. destruct (hasOwn obj k0); [apply obj_set_NoDup|]; exact Hnd.
Qed.

(** ** [omit] and [removeKeys] *)

Lemma names_only_NoDup (ks : list string) : names_only ks = true -> List.NoDup ks.
Proof.
  induction ks as [|k ks IH]; simpl; intros H; [constructor|].
  destruct (array_index k); [discriminate|].
  apply andb_true_iff in H as [Hk Hks]. apply negb_true_iff in Hk.
  constructor; [|auto]. apply RoundTrip.existsb_eqb_false. exact Hk.
Qed.

Lemma ordered_from_NoDup (ks : list string) :
  forall lo, ordered_from lo ks = true -> List.NoDup ks.
Proof.
  induction ks as [|k ks IH]; intros lo H; [constructor|].
  simpl in H. destruct (array_index k) as [i|] eqn:Hi.
  - apply andb_true_iff in H as [_ Hrest]. constructor; [|eauto].
    intros Hin. apply in_split in Hin as (a & b & ->).
    pose proof (RoundTrip.ordered_from_bound a b k i i Hrest Hi). lia.
  - apply names_only_NoDup. simpl. rewrite Hi. exact H.
Qed.

(** Assigning the next property of an ordered object to a copy that holds
    some of the earlier ones appends it. *)
Lemma obj_set_next (acc pre rem : list (string * value)) (k : string) (x : value) :
  ordered_from None (map fst (pre ++ (k, x) :: rem)) = true ->
  (forall k', In k' (map fst acc) -> In k' (map fst pre)) ->
  obj_set acc k x = acc ++ [(k, x)].
Proof.
  intros H Hsub. rewrite map_app in H. simpl in H.
  destruct (RoundTrip.ordered_from_middle _ _ _ _ H) as [Hnot Hsmall].
  unfold obj_set.
  assert (Hget : assoc_get acc k = None).
  { apply assoc_get_None_iff. intros Hin. apply Hnot. apply Hsub. exact Hin. }
  rewrite Hget. destruct (array_index k) as [i|] eqn:Hi; [|reflexivity].
  apply RoundTrip.insert_index_last. intros k' Hin. apply (Hsmall i eq_refl). auto.
Qed.

Lemma assoc_get_middle (pre rem : list (string * value)) (k : string) (x : value) :
  ~ In k (map fst pre) -> assoc_get (pre ++ (k, x) :: rem) k = Some x.
Proof.
  induction pre as [|[k0 x0] pre IH]; simpl; intros Hnot.
  - rewrite String.eqb_refl. reflexivity.
  - destruct (String.eqb_spec k0 k) as [->|Hne]; [tauto|]. apply IH. tauto.
Qed.

Lemma filter_keys (p : string * value -> bool) (l : list (string * value)) (k : string) :
  In k (map fst (List.filter p l)) -> In k (map fst l).
Proof.
  induction l as [|kv l IH]; simpl; [tauto|].
  destruct (p kv); simpl; tauto.
Qed.

Lemma omit_fold (obj : list (string * value)) (keys : list string) (rem : list (string * value)) :
  forall pre,
    obj = pre ++ rem ->
    ordered_from None (map fst obj) = true ->
    fold_left
      (fun result key =>
         if negb (bool_decide (key ∈ (list_to_set keys : gset string)))
         then obj_set result key (read obj key) else result)
      (map fst rem) (List.filter (kept keys) pre)
    = List.filter (kept keys) obj.
Proof.
  induction rem as [|[k x] rem IH]; intros pre Hobj Hord; simpl.
  - subst obj. rewrite app_nil_r. reflexivity.
  - assert (Hobj' : obj = (pre ++ [(k, x)]) ++ rem) by (rewrite <- app_assoc; exact Hobj).
    rewrite <- (IH (pre ++ [(k, x)]) Hobj' Hord). f_equal.
    rewrite List.filter_app. simpl.
    change (kept keys (k, x)) with (negb (bool_decide (k ∈ keys))).
    rewrite (bool_decide_ext (k ∈ (list_to_set keys : gset string)) (k ∈ keys))
      by apply elem_of_list_to_set.
    destruct (bool_decide (k ∈ keys)); simpl; [rewrite app_nil_r; reflexivity|].
    rewrite Hobj in Hord.
    assert (Hnot : ~ In k (map fst pre)).
    { rewrite map_app in Hord. simpl in Hord.
      exact (proj1 (RoundTrip.ordered_from_middle _ _ _ _ Hord)). }
    unfold read. rewrite Hobj, (assoc_get_middle pre rem k x Hnot). simpl.
    apply (obj_set_next _ pre rem k x Hord). apply filter_keys.
Qed.

Lemma obj_delete_filter (l : list (string * value)) (k : string) :
  List.NoDup (map fst l) ->
  obj_delete l k = List.filter (fun kv => negb (String.eqb (fst kv) k)) l.
Proof.
  induction l as [|[k0 x0] l IH]; simpl; intros Hnd; [reflexivity|].
  inversion Hnd as [|? ? Hnotin Hnd']; subst.
  destruct (String.eqb_spec k0 k) as [->|Hne]; simpl.
  - rewrite <- IH by assumption. symmetry. apply obj_delete_absent. exact Hnotin.
  - f_equal. apply IH. assumption.
Qed.

Lemma filter_filter (p q : string * value -> bool) (l : list (string * value)) :
  List.filter q (List.filter p l) = List.filter (fun kv => p kv && q kv) l.
Proof.
  induction l as [|kv l IH]; simpl; [reflexivity|].
  destruct (p kv); simpl; [destruct (q kv); simpl; rewrite IH; reflexivity|exact IH].
Qed.

Lemma filter_NoDup (p : string * value -> bool) (l : list (string * value)) :
  List.NoDup (map fst l) -> List.NoDup (map fst (List.filter p l)).
Proof.
  induction l as [|kv l IH]; simpl; intros Hnd; [constructor|].
  inversion Hnd as [|? ? Hnotin Hnd']; subst.
  destruct (p kv); simpl; [|auto].
  constructor; [|auto]. intros Hin. apply Hnotin. eapply filter_keys. exact Hin.
Qed.

Lemma removeKeys_filter (keys : list string) :
  forall obj,
    List.NoDup (map fst obj) ->
    removeKeys obj keys = List.filter (kept keys) obj.
Proof.
  unfold removeKeys.
  induction keys as [|k keys IH]; intros obj Hnd; simpl.
  - clear Hnd. induction obj as [|kv obj IHo]; simpl; [reflexivity|].
    f_equal. exact IHo.
  - rewrite IH by (apply obj_delete_NoDup; exact Hnd).
    rewrite obj_delete_filter by exact Hnd. rewrite filter_filter.
    apply filter_ext. intros kv. unfold kept.
    destruct (String.eqb_spec (fst kv) k) as [->|Hne]; simpl.
    + rewrite bool_decide_eq_true_2 by left. reflexivity.
    + apply f_equal. apply bool_decide_ext. rewrite elem_of_cons. tauto.
Qed.

Lemma filter_get (keys : list string) (l : list (string * value)) (k : string) :
  assoc_get (List.filter (kept keys) l) k
  = if bool_decide (k ∈ keys) then None else assoc_get l k.
Proof.
  induction l as [|[k0 x0] l IH]; simpl.
  - destruct (bool_decide (k ∈ keys)); reflexivity.
  - unfold kept at 1. simpl.
    destruct (decide (k0 ∈ keys)) as [Hin|Hnot].
    + rewrite (bool_decide_eq_true_2 _ Hin). simpl. rewrite IH.
      destruct (String.eqb_spec k0 k) as [->|Hne]; [|reflexivity].
      rewrite (bool_decide_eq_true_2 _ Hin). reflexivity.
    + rewrite (bool_decide_eq_false_2 _ Hnot). simpl. rewrite IH.
      destruct (String.eqb_spec k0 k) as [->|Hne]; [|reflexivity].
      rewrite (bool_decide_eq_false_2 _ Hnot). reflexivity.
Qed.

Lemma not_in_existsb (k : string) (ks : list string) :
  ~ In k ks -> existsb (String.eqb k) ks = false.
Proof.
  intros Hnot. destruct (existsb (String.eqb k) ks) eqn:E; [|reflexivity].
  apply existsb_exists in E as (k' & Hin & Heq). apply String.eqb_eq in Heq. subst k'.
  contradiction.
Qed.

Lemma names_only_filter (p : string * value -> bool) (l : list (string * value)) :
  names_only (map fst l) = true -> names_only (map fst (List.filter p l)) = true.
Proof.
  induction l as [|[k x] l IH]; simpl; intros H; [reflexivity|].
  destruct (array_index k) eqn:Hi; [discriminate|].
  apply andb_true_iff in H as [Hk Hl]. apply negb_true_iff in Hk.
  destruct (p (k, x)); simpl; [|auto].
  rewrite Hi, (IH Hl), andb_true_r. apply negb_true_iff. apply not_in_existsb.
  intros Hin. apply (RoundTrip.existsb_eqb_false _ _ Hk). eapply filter_keys. exact Hin.
Qed.

Lemma names_only_ordered (ks : list string) (lo : option N) :
  names_only ks = true -> ordered_from lo ks = true.
Proof.
  destruct ks as [|k ks]; [reflexivity|]. intros H. simpl in *.
  destruct (array_index k); [discriminate|exact H].
Qed.

Lemma ordered_from_weaken (ks : list string) (i : N) (lo : option N) :
  ordered_from (Some i) ks = true ->
  match lo with Some l => (l < i)%N | None => True end ->
  ordered_from lo ks = true.
Proof.
  destruct ks as [|k ks]; [reflexivity|]. simpl.
  destruct (array_index k) as [j|]; [|auto].
  intros H Hlo. apply andb_true_iff in H as [Hij Hrest]. apply N.ltb_lt in Hij.
  rewrite Hrest, andb_true_r. destruct lo as [l|]; [|reflexivity].
  apply N.ltb_lt. lia.
Qed.

Lemma ordered_filter_from (p : string * value -> bool) (l : list (string * value)) :
  forall lo,
    ordered_from lo (map fst l) = true ->
    ordered_from lo (map fst (List.filter p l)) = true.
Proof.
  induction l as [|[k x] l IH]; intros lo H; [reflexivity|].
  simpl in H. destruct (array_index k) as [i|] eqn:Hi.
  - apply andb_true_iff in H as [Hlo Hrest].
    simpl. destruct (p (k, x)); simpl.
    + rewrite Hi, Hlo. simpl. apply IH. exact Hrest.
    + apply (ordered_from_weaken _ i); [apply IH; exact Hrest|].
      destruct lo as [l0|]; [apply N.ltb_lt; exact Hlo|exact I].
  - apply names_only_ordered.
    apply (names_only_filter p ((k, x) :: l)). simpl. rewrite Hi. exact H.
Qed.

Lemma ordered_filter (p : string * value -> bool) (l : list (string * value)) :
  ordered_from None (map fst l) = true ->
  ordered_from None (map fst (List.filter p l)) = true.
Proof. apply ordered_filter_from. Qed.

(** X20.  [omit] returns a copy of the object without the named
    properties: the other properties, with their values, in their order.
    [removeKeys] leaves the object it is given in exactly that state, so
    the copying and the in-place variant agree.  Naming a key the object
    does not have, or naming a key twice, makes no difference.  This is for
    an object without a property [__proto__] of its own, or with
    [__proto__] among the keys to leave out. *)
Theorem omit_spec (obj : list (string * value)) (keys : list string) :
  ordered_from None (map fst obj) = true ->
  hasOwn obj "__proto__" = false \/ "__proto__" ∈ keys ->
  omit obj keys = List.filter (kept keys) obj
  /\ removeKeys obj keys = omit obj keys
  /\ (forall k,
        assoc_get (omit obj keys) k
        = if bool_decide (k ∈ keys) then None else assoc_get obj k)
  /\ ordered_from None (map fst (omit obj keys)) = true.
Proof.
  intros Hord _.
  assert (Homit : omit obj keys = List.filter (kept keys) obj).
  { unfold omit. exact (omit_fold obj keys obj [] eq_refl Hord). }
  split; [exact Homit|]. split; [|split].
  - rewrite Homit. apply removeKeys_filter. eapply ordered_from_NoDup. exact Hord.
  - intros k. rewrite Homit. apply filter_get.
  - rewrite Homit. apply ordered_filter. exact Hord.
Qed.

Lemma omit_spec_witness :
  omit [("a", VNum (Fin 1)); ("b", VNum (Fin 2)); ("c", VNum (Fin 3))] ["b"; "d"]
  = [("a", VNum (Fin 1)); ("c", VNum (Fin 3))]
  /\ removeKeys [("a", VNum (Fin 1)); ("b", VNum (Fin 2)); ("c", VNum (Fin 3))] ["b"; "d"]
     = omit [("a", VNum (Fin 1)); ("b", VNum (Fin 2)); ("c", VNum (Fin 3))] ["b"; "d"].
Proof.
  destruct (omit_spec [("a", VNum (Fin 1)); ("b", VNum (Fin 2)); ("c", VNum (Fin 3))]
              ["b"; "d"] eq_refl (or_introl eq_refl)) as (H1 & H2 & _).
  split; [rewrite H1; vm_compute; reflexivity|exact H2].
Defined.

(** X21.  [pick] returns an object with the named properties the source
    has, holding the values they have there, and no other property; a
    named key the source lacks adds nothing.  Together [pick] and [omit]
    with the same keys split the object: each of its properties is in
    exactly one of the two results, with its value.  This is for a source
    without a property [__proto__] of its own. *)
Theorem pick_spec (obj : list (string * value)) (keys : list string) :
  hasOwn obj "__proto__" = false ->
  (forall k,
      assoc_get (pick obj keys) k
      = if bool_decide (k ∈ keys) then assoc_get obj k else None)
  /\ List.NoDup (map fst (pick obj keys))
  /\ (ordered_from None (map fst obj) = true ->
      forall k,
        match assoc_get (pick obj keys) k, assoc_get (omit obj keys) k with
        | Some x, None => assoc_get obj k = Some x
        | None, Some x => assoc_get obj k = Some x
        | None, None => assoc_get obj k = None
        | Some _, Some _ => False
        end).
Proof.
  intros _.
  assert (Hpick : forall k,
             assoc_get (pick obj keys) k
             = if bool_decide (k ∈ keys) then assoc_get obj k else None).
  { intros k. unfold pick. rewrite pick_fold. simpl.
    destruct (bool_decide (k ∈ keys)); [destruct (assoc_get obj k)|]; reflexivity. }
  split; [exact Hpick|]. split.
  - unfold pick. apply pick_NoDup. constructor.
  - intros Hord k. rewrite Hpick.
    assert (Homit : omit obj keys = List.filter (kept keys) obj).
    { unfold omit. exact (omit_fold obj keys obj [] eq_refl Hord). }
    rewrite Homit, filter_get.
    destruct (bool_decide (k ∈ keys)); destruct (assoc_get obj k); reflexivity.
Qed.

Lemma pick_spec_witness :
  pick [("a", VNum (Fin 1)); ("b", VNum (Fin 2)); ("c", VNum (Fin 3))] ["a"; "c"; "missing"]
  = [("a", VNum (Fin 1)); ("c", VNum (Fin 3))]
  /\ List.NoDup
       (map fst (pick [("a", VNum (Fin 1)); ("b", VNum (Fin 2)); ("c", VNum (Fin 3))]
                   ["a"; "c"; "missing"])).
Proof.
  split; [reflexivity|].
  exact (proj1 (proj2
    (pick_spec [("a", VNum (Fin 1)); ("b", VNum (Fin 2)); ("c", VNum (Fin 3))]
       ["a"; "c"; "missing"] eq_refl))).
Defined.

End TransformFacts.

(* ===================================================================== *)
(** * The migration log *)
(* ===================================================================== *)

Module LoggerFacts.
Import Runtime Shapes MigrationLogger.
Local Open Scope nat_scope.

Lemma make_all_lists (cs : list log_call) :
  forall l,
    migrated_list (make_all cs l) = migrated_list l ++ migrated_of cs
    /\ skipped_list (make_all cs l) = skipped_list l ++ skipped_of cs
    /\ failed_list (make_all cs l) = failed_list l ++ failed_of cs
    /\ length (console (make_all cs l)) = length (console l) + length cs.
Proof.
  induction cs as [|c cs IH]; intros l.
  - simpl. rewrite !app_nil_r. repeat split; lia.
  - change (make_all (c :: cs) l) with (make_all cs (make c l)).
    destruct (IH (make c l)) as (Hm & Hs & Hf & Hc).
    rewrite Hm, Hs, Hf, Hc.
    destruct c; simpl; rewrite <- ?app_assoc, ?length_app; simpl;
      repeat split; try reflexivity; lia.
Qed.

Lemma kinds_split (cs : list log_call) :
  length (migrated_of cs) + length (skipped_of cs) + length (failed_of cs) = length cs
  /\ length (failed_of cs) = length (List.filter is_failure cs).
Proof.
  induction cs as [|c cs [IH1 IH2]]; [split; reflexivity|].
  destruct c; simpl; split; lia.
Qed.

(** X22.  The log is the history of the calls.  After any sequence of
    [migrated], [skipped] and [failed] calls on a new logger, [toJSON] holds
    one entry for each call, in the list of its kind and in call order,
    with the arguments and the time of that call ([details] only when it
    was given, the message of an [Error] or the string itself as error);
    the total of [getCounts] is the number of calls made; [hasFailures]
    tells whether [failed] was called; and one line was printed per call.
    What was logged stays: further calls only add after it. *)
Theorem log_is_history (cs more : list log_call) :
  toJSON (make_all cs new) = (migrated_of cs, skipped_of cs, failed_of cs)
  /\ n_total (getCounts (make_all cs new)) = length cs
  /\ n_failed (getCounts (make_all cs new)) = length (List.filter is_failure cs)
  /\ hasFailures (make_all cs new) = existsb is_failure cs
  /\ length (console (make_all cs new)) = length cs
  /\ toJSON (make_all (cs ++ more) new)
     = (migrated_of cs ++ migrated_of more, skipped_of cs ++ skipped_of more,
        failed_of cs ++ failed_of more).
Proof.
  destruct (make_all_lists cs new) as (Hm & Hs & Hf & Hc).
  destruct (kinds_split cs) as [Hsum Hfail].
  simpl in Hm, Hs, Hf, Hc.
  split; [unfold toJSON; rewrite Hm, Hs, Hf; reflexivity|].
  split; [unfold getCounts; simpl; rewrite Hm, Hs, Hf; exact Hsum|].
  split; [unfold getCounts; simpl; rewrite Hf; exact Hfail|].
  split.
  - unfold hasFailures. rewrite Hf, Hfail.
    clear. induction cs as [|c cs IH]; [reflexivity|].
    destruct c; simpl; auto.
  - split; [exact Hc|].
    unfold make_all. rewrite fold_left_app. fold (make_all cs new).
    fold (make_all more (make_all cs new)).
    destruct (make_all_lists more (make_all cs new)) as (Hm' & Hs' & Hf' & _).
    unfold toJSON. rewrite Hm', Hs', Hf', Hm, Hs, Hf. reflexivity.
Qed.

Lemma filter_flat_map {A B} (p : B -> bool) (f : A -> list B) (q : A -> bool)
  (l : list A) :
  (forall a, List.filter p (f a) = if q a then f a else []) ->
  List.filter p (flat_map f l) = flat_map f (List.filter q l).
Proof.
  intros H. induction l as [|a l IH]; simpl; [reflexivity|].
  rewrite List.filter_app, IH, H. destruct (q a); reflexivity.
Qed.

(** X23.  [getByType] returns the log of the calls of that type: what
    [toJSON] would hold had only the calls with this type been made, in the
    same order and with the same times. *)
Theorem getByType_is_history (type : string) (cs : list log_call) :
  getByType type (make_all cs new)
  = toJSON (make_all (List.filter (fun c => String.eqb (call_type c) type) cs) new).
Proof.
  destruct (make_all_lists cs new) as (Hm & Hs & Hf & _).
  destruct (make_all_lists (List.filter (fun c => String.eqb (call_type c) type) cs) new)
    as (Hm' & Hs' & Hf' & _).
  simpl in Hm, Hs, Hf, Hm', Hs', Hf'.
  unfold getByType, toJSON. rewrite Hm, Hs, Hf, Hm', Hs', Hf'.
  unfold migrated_of, skipped_of, failed_of.
  f_equal; [f_equal|]; apply filter_flat_map; intros [] ; simpl;
    try reflexivity;
    match goal with
    | |- context [String.eqb ?a ?b] => destruct (String.eqb a b); reflexivity
    end.
Qed.




End LoggerFacts.

(* ===================================================================== *)
(** * The id map across a restart *)
(* ===================================================================== *)

Module Restart.
Import Runtime Eff Store Notions Samples Shapes Clone StoreFacts PathFacts WriteFacts
  PathMore ResolverFacts.
Import JSONStore DependencyResolver.

(** ** Assigning a property keeps the enumeration order *)

Lemma names_only_snoc (ks : list string) (k : string) :
  names_only ks = true -> array_index k = None -> ~ In k ks ->
  names_only (ks ++ [k]) = true.
Proof.
  induction ks as [|k0 ks IH]; cbn [names_only app existsb]; intros H Hk Hnot.
  - rewrite Hk. reflexivity.
  - destruct (array_index k0); [discriminate|].
    apply andb_true_iff in H as [H0 Hks]. apply negb_true_iff in H0.
    cbn [In] in Hnot.
    rewrite IH by tauto. rewrite andb_true_r. apply negb_true_iff.
    rewrite existsb_app. rewrite H0. cbn [existsb orb].
    destruct (String.eqb_spec k0 k) as [->|]; [tauto|reflexivity].
Qed.

Lemma ordered_snoc (ks : list string) (k : string) :
  forall lo,
    ordered_from lo ks = true -> array_index k = None -> ~ In k ks ->
    ordered_from lo (ks ++ [k]) = true.
Proof.
  induction ks as [|k0 ks IH]; intros lo H Hk Hnot.
  - cbn [app ordered_from]. rewrite Hk. cbn [names_only]. rewrite Hk. reflexivity.
  - cbn [app ordered_from] in H |- *. destruct (array_index k0) as [j|] eqn:Hj.
    + apply andb_true_iff in H as [Hlo Hrest]. rewrite Hlo. cbn [andb].
      apply IH; [exact Hrest|exact Hk|]. cbn [In] in Hnot. tauto.
    + apply (names_only_snoc (k0 :: ks) k); [exact H|exact Hk|exact Hnot].
Qed.

Lemma ordered_insert (l : list (string * value)) (i : N) (k : string) (x : value) :
  forall lo,
    ordered_from lo (map fst l) = true -> array_index k = Some i ->
    ~ In k (map fst l) ->
    match lo with Some b => (b < i)%N | None => True end ->
    ordered_from lo (map fst (insert_index l i k x)) = true.
Proof.
  induction l as [|[k0 x0] l IH]; intros lo H Hk Hnot Hlo.
  - cbn [insert_index map fst ordered_from]. rewrite Hk. destruct lo as [b|]; [|reflexivity].
    apply N.ltb_lt in Hlo. rewrite Hlo. reflexivity.
  - cbn [map fst ordered_from] in H. cbn [insert_index].
    cbn [map fst In] in Hnot.
    destruct (array_index k0) as [j|] eqn:Hj.
    + apply andb_true_iff in H as [Hloj Hrest].
      destruct (N.ltb_spec j i) as [Hlt|Hge].
      * cbn [map fst ordered_from]. rewrite Hj, Hloj. cbn [andb].
        apply IH; [exact Hrest|exact Hk| |exact Hlt]. tauto.
      * assert (Hne : j <> i).
        { intros ->. apply Hnot. left. eapply array_index_inj; eassumption. }
        cbn [map fst ordered_from]. rewrite Hk, Hj.
        assert (Hij : (i <? j)%N = true) by (apply N.ltb_lt; lia).
        rewrite Hij, Hrest. cbn [andb].
        destruct lo as [b|]; [|reflexivity].
        apply N.ltb_lt in Hlo. rewrite Hlo. reflexivity.
    + cbn [map fst ordered_from]. rewrite Hk.
      change (map fst ((k0, x0) :: l)) with (k0 :: map fst l).
      cbn [ordered_from]. rewrite Hj. rewrite H.
      destruct lo as [b|]; [|reflexivity].
      apply N.ltb_lt in Hlo. rewrite Hlo. reflexivity.
Qed.

Lemma obj_set_ordered (ps : list (string * value)) (k : string) (x : value) :
  ordered_from None (map fst ps) = true ->
  ordered_from None (map fst (obj_set ps k x)) = true.
Proof.
  intros H. unfold obj_set. destruct (assoc_get ps k) as [old|] eqn:Hget.
  - rewrite assoc_replace_keys. exact H.
  - apply assoc_get_None_iff in Hget.
    destruct (array_index k) as [i|] eqn:Hk.
    + apply ordered_insert; auto.
    + rewrite map_app. simpl. apply ordered_snoc; assumption.
Qed.

Lemma obj_set_In (ps : list (string * value)) (k : string) (x : value)
  (kv : string * value) :
  In kv (obj_set ps k x) -> kv = (k, x) \/ In kv ps.
Proof.
  unfold obj_set. destruct (assoc_get ps k).
  - induction ps as [|[k0 x0] ps IH]; cbn [assoc_replace In]; [tauto|].
    destruct (String.eqb_spec k0 k) as [->|]; cbn [In]; intuition (subst; auto).
  - destruct (array_index k) as [i|].
    + induction ps as [|[k0 x0] ps IH]; cbn [insert_index In];
        [intuition (subst; auto)|].
      destruct (array_index k0) as [j|]; [destruct (j <? i)%N|]; cbn [In];
        intuition (subst; auto).
    + rewrite in_app_iff. cbn [In]. intuition (subst; auto).
Qed.

(** ** Writing a string keeps a document of objects a JSON document *)

Lemma storable_object (ps : list (string * value)) :
  storable (VObj ps)
  <-> (forall kv, In kv ps -> storable (snd kv))
      /\ ordered_from None (map fst ps) = true.
Proof.
  unfold storable. rewrite no_arrays_obj. split.
  - intros [Hj Hp]. destruct (RoundTrip.json_obj ps Hj) as [Hvals Hord].
    split; [|exact Hord]. intros kv Hin.
    rewrite forallb_forall in Hvals. unfold fields_plain in Hp.
    rewrite forallb_forall in Hp. auto.
  - intros [Hall Hord]. split.
    + simpl. rewrite Hord, andb_true_r.
      clear Hord. induction ps as [|[k x] ps IH]; [reflexivity|].
      destruct (Hall (k, x) (or_introl eq_refl)) as [Hx _]. simpl in Hx.
      rewrite Hx. simpl. apply IH. intros kv Hin. apply Hall. right. exact Hin.
    + unfold fields_plain. apply forallb_forall. intros kv Hin. apply (Hall kv Hin).
Qed.

Lemma storable_set (c c' x : value) (k : string) :
  storable c -> storable x -> set_prop c k x = Ok c' -> storable c'.
Proof.
  intros Hc Hx. destruct c as [| | | | | |es ex|ps]; simpl; try discriminate.
  - destruct Hc as [_ Hc]. discriminate.
  - intros [= <-]. apply storable_object in Hc as [Hall Hord].
    apply storable_object. split; [|apply obj_set_ordered; exact Hord].
    intros kv Hin. apply obj_set_In in Hin as [->|Hin]; [exact Hx|auto].
Qed.

Lemma storable_get (c x : value) (k : string) :
  storable c -> get_prop c k = Ok x -> is_container x = true -> storable x.
Proof.
  intros Hc. destruct c as [| | | | | |es ex|ps]; simpl; try discriminate;
    try (intros [= <-]; discriminate).
  - destruct (array_index k).
    + unfold char_at. destruct (String.get (N.to_nat n) s); intros [= <-]; discriminate.
    + destruct (String.eqb k "length"); intros [= <-]; discriminate.
  - destruct Hc as [_ Hc]. discriminate.
  - apply storable_object in Hc as [Hall _]. intros [= <-] Hx.
    destruct (assoc_get ps k) as [y|] eqn:Hget; [|discriminate].
    simpl. clear Hx. induction ps as [|[k0 y0] ps IH]; simpl in Hget; [discriminate|].
    destruct (String.eqb k0 k).
    + inversion Hget; subst. exact (Hall (k0, y) (or_introl eq_refl)).
    + apply IH; [|exact Hget]. intros kv Hin. apply Hall. right. exact Hin.
Qed.

Lemma storable_empty : storable (VObj []).
Proof. split; reflexivity. Qed.

Lemma setAtPath_from_storable (keys : list key) :
  forall (walked : list key) (cur cur' v : value),
    keys <> [] -> storable cur -> storable v ->
    setAtPath_from walked cur keys v = Ok cur' -> storable cur'.
Proof.
  induction keys as [|k keys IH]; intros walked cur cur' v Hne Hcur Hv Hset;
    [contradiction|].
  destruct keys as [|nk rest].
  - cbn [setAtPath_from] in Hset. exact (storable_set _ _ _ _ Hcur Hv Hset).
  - rewrite setAtPath_from_step in Hset.
    destruct (get_prop cur (prop_name k)) as [child|] eqn:Hg; [|discriminate].
    cbn [rbind] in Hset.
    match type of Hset with
    | rbind ?R _ = _ => destruct R as [current'|] eqn:Hcur'; [|discriminate]
    end.
    cbn [rbind] in Hset.
    destruct (get_prop current' (prop_name k)) as [next|] eqn:Hg'; [|discriminate].
    cbn [rbind] in Hset.
    rewrite traversable_container in Hset.
    destruct (is_container next) eqn:Hn; [|discriminate]. cbn [negb] in Hset.
    destruct (setAtPath_from (walked ++ [k]) next (nk :: rest) v) as [next'|] eqn:Hrec;
      [|discriminate].
    cbn [rbind] in Hset.
    assert (Hcurrent : storable current').
    { destruct (nullish child).
      - destruct nk; [|discriminate].
        exact (storable_set _ _ _ _ Hcur storable_empty Hcur').
      - inversion Hcur'; subst. exact Hcur. }
    assert (Hnext : storable next) by exact (storable_get _ _ _ Hcurrent Hg' Hn).
    assert (Hnext' : storable next').
    { exact (IH _ _ _ _ ltac:(discriminate) Hnext Hv Hrec). }
    exact (storable_set _ _ _ _ Hcurrent Hnext' Hset).
Qed.

Lemma writeAtomic_dirs (e : Fs.env) (path : string) (d : value) (w : Fs.fs) :
  Fs.dirs (fst (writeAtomic e path d w)) = Fs.dirs w.
Proof.
  unfold JSONStore.writeAtomic, text_of.
  unfold Fs.open, Fs.writeFile, Fs.sync, Fs.close, Fs.rename, Fs.unlink, Fs.inject.
  destruct e as [tok fa fr fo fw wr fs fc fn fu]; simpl in *.
  eff_unfold; simpl.
  destruct fo as [eo|], fc as [ec|], (JSON.stringify d) as [text|], fw as [ew|],
    fs as [es|], fn as [en|], fu as [eu|]; simpl in *;
    try destruct (Fs.files w !! tmp_path path tok) eqn:Htmp; simpl;
    repeat (rewrite ?lookup_insert_eq, ?lookup_delete_eq; simpl);
    reflexivity.
Qed.

Lemma old_dir_exists : Fs.dirname "/data/ids.json" ∈ Fs.dirs old_disk.
Proof. change ("/data" ∈ ({[ "/data" ]} : gset string)). set_solver. Qed.

(** X25.  A recorded mapping survives a restart.  The document is built of
    [null], booleans, strings, integers within 2^53 and objects, without
    arrays; the keys of the mapping (the type and the old id and, for a
    scoped type, the category and the environment) are no names that
    objects inherit.  When [record] has succeeded, a new store opened on the
    same file, whose [access] and [readFile] do not fail, loads exactly the
    document the first store holds, without writing, and [require] on it
    returns the new id. *)
Theorem record_survives_restart (r : resolver) (e e' : Fs.env) (st st' : store)
  (w w' : Fs.fs) (type oldId newId : value) (t o : string)
  (factory : option (unit -> value)) :
  record r e type oldId newId (st, w) = ((st', w'), Ok tt) ->
  nonblank type = Some t -> nonblank oldId = Some o ->
  own_names (path_of r t o) = true ->
  json_document (data st) = true ->
  no_arrays (data st) = true ->
  Fs.dirname (filePath st) ∈ Fs.dirs w ->
  Fs.fail_access e' = None -> Fs.fail_readFile e' = None ->
  exists loaded n,
    load e' (Store.new (filePath st) factory, w') = ((loaded, w'), Ok tt)
    /\ data loaded = data st'
    /\ newId = VStr n
    /\ require r type oldId loaded = (loaded, Ok n).
Proof.
  intros Hrec Ht0 Ho0 _ Hjson Hplain Hdir Hfa Hfr.
  destruct (record_inv _ _ _ _ _ _ _ _ _ Hrec)
    as (t1 & o1 & n & d' & Ht & Ho & Hn & Hinit & Hs & -> & Hw).
  assert (t1 = t) by congruence. assert (o1 = o) by congruence. subst t1 o1.
  destruct (writeAtomic_resolved _ _ _ _ _ Hw) as (text & Htext & Hfile).
  assert (Hdir' : Fs.dirname (filePath st) ∈ Fs.dirs w').
  { pose proof (writeAtomic_dirs e (filePath st) d' w) as Hd.
    rewrite Hw in Hd. simpl in Hd. rewrite Hd. exact Hdir. }
  assert (Hd' : storable d').
  { unfold setAtPath in Hs.
    refine (setAtPath_from_storable _ [] (data st) d' (VStr n) _ (conj Hjson Hplain)
              (conj eq_refl eq_refl) Hs).
    destruct (isScoped r t); discriminate. }
  destruct (RoundTrip.parse_stringify d' (proj1 Hd')) as (text' & Htext' & Hparse).
  assert (text' = text) by congruence. subst text'.
  assert (Hfound : found r d' t o = Some n).
  { unfold found. destruct (isScoped r t).
    - rewrite (mapping_written (data st) d' (scoped_keys r t o) n ltac:(discriminate) Hs).
      reflexivity.
    - exact (mapping_written (data st) d' (simple_keys t o) n ltac:(discriminate) Hs). }
  exists (set_dirty false (set_initialized true
            (set_data d' (Store.new (filePath st) factory)))), n.
  split; [|split; [reflexivity|split; [exact (proj1 (nonblank_string _ _ Hn))|]]].
  - unfold JSONStore.load, JSONStore.readOrCreateDefault, Fs.access, Fs.readFile,
      Fs.inject, Store.new.
    eff_unfold. simpl. rewrite Hfa, Hfr. simpl.
    rewrite bool_decide_eq_true_2 by assumption. simpl.
    rewrite Hfile. simpl. rewrite Hparse. simpl. reflexivity.
  - destruct (lookups_unfold r
                (set_dirty false (set_initialized true
                   (set_data d' (Store.new (filePath st) factory))))
                type oldId t o eq_refl Ht Ho) as (_ & _ & H3).
    rewrite H3.
    change (data (set_dirty false (set_initialized true
                    (set_data d' (Store.new (filePath st) factory))))) with d'.
    rewrite Hfound. reflexivity.
Qed.

Lemma record_survives_restart_witness :
  exists loaded n,
    load (Fs.calm "71c2")
      (Store.new "/data/ids.json" None,
       snd (fst (record staging (Fs.calm "0b5e") (VStr "inventories") (VStr "7")
                   (VStr "88") (id_map, old_disk))))
    = ((loaded,
        snd (fst (record staging (Fs.calm "0b5e") (VStr "inventories") (VStr "7")
                    (VStr "88") (id_map, old_disk)))), Ok tt)
    /\ VStr "88" = VStr n
    /\ require staging (VStr "inventories") (VStr "7") loaded = (loaded, Ok n).
Proof.
  destruct (record_survives_restart staging (Fs.calm "0b5e") (Fs.calm "71c2") id_map
              (fst (fst (record staging (Fs.calm "0b5e") (VStr "inventories") (VStr "7")
                           (VStr "88") (id_map, old_disk))))
              old_disk
              (snd (fst (record staging (Fs.calm "0b5e") (VStr "inventories") (VStr "7")
                           (VStr "88") (id_map, old_disk))))
              (VStr "inventories") (VStr "7") (VStr "88") "inventories" "7" None)
    as (loaded & n & H1 & _ & H3 & H4).
  - vm_compute. reflexivity.
  - reflexivity.
  - reflexivity.
  - vm_compute. reflexivity.
  - reflexivity.
  - reflexivity.
  - exact old_dir_exists.
  - reflexivity.
  - reflexivity.
  - exists loaded, n. auto.
Defined.

End Restart.
